(** * matUtils introduce: region assignment, association index and
      introduction walk of [src/matUtils/introduce.cpp]

    The development embeds the functions [get_assignments],
    [get_association_index], [get_monophyletic_cladesize],
    [find_introductions], [record_clade_regions] and [read_two_column]
    as executable Rocq functions and proves (or refutes on concrete
    trees) the properties stated for them.

    Conventions.
    - A C++ [float] is an IEEE 754 binary32 value, a [double] a binary64
      value; both are [spec_float]s of the Standard Library, operated on
      with the parameterised operations of [SpecFloat] (round to nearest,
      ties to even).
    - [size_t] counters that count objects held in memory (leaves,
      mutations) are natural numbers [N]; the two subtractions of the
      source are written with their 64-bit wrap-around.
    - [exit(1)] and the undefined integer division by zero are outcomes of
      the functions ([Abort]). *)

From Stdlib Require Import ZArith NArith String List Bool Lia.
From Stdlib Require Import Floats.SpecFloat.
From stdpp Require Import base gmap strings list.

Local Open Scope string_scope.
Local Open Scope list_scope.

(** ** Numbers *)

(** [float]: IEEE 754 binary32. *)
Module F32.
Definition prec : Z := 24.
Definition emax : Z := 128.
Definition of_Z (z : Z) : spec_float := binary_normalize prec emax z 0 false.
(** [static_cast<float>(n)] for a [size_t] n. *)
Definition of_size_t (n : N) : spec_float := of_Z (Z.of_N n).
Definition zero : spec_float := S754_zero false.
Definition one : spec_float := Eval cbv in of_Z 1.
Definition half : spec_float := Eval cbv in SFdiv prec emax (of_Z 1) (of_Z 2).
Definition add : spec_float -> spec_float -> spec_float := SFadd prec emax.
Definition div : spec_float -> spec_float -> spec_float := SFdiv prec emax.
Definition isnan (x : spec_float) : bool :=
  match x with S754_nan => true | _ => false end.
(** [x < y], [x <= y], [x > y], [x >= y]; all false on NaN. *)
Definition ltb (x y : spec_float) : bool := SFltb x y.
Definition leb (x y : spec_float) : bool := SFleb x y.
Definition gtb (x y : spec_float) : bool := SFltb y x.
Definition geb (x y : spec_float) : bool := SFleb y x.
(** Rounding of a binary64 value to binary32 (assignment of a [double]
    to a [float]). *)
Definition of_double (d : spec_float) : spec_float :=
  match d with
  | S754_finite s m e => binary_round prec emax s m e
  | _ => d
  end.
End F32.

(** [double]: IEEE 754 binary64. *)
Module F64.
Definition prec : Z := 53.
Definition emax : Z := 1024.
Definition of_Z (z : Z) : spec_float := binary_normalize prec emax z 0 false.
Definition of_size_t (n : N) : spec_float := of_Z (Z.of_N n).
Definition add : spec_float -> spec_float -> spec_float := SFadd prec emax.
Definition div : spec_float -> spec_float -> spec_float := SFdiv prec emax.
(** Promotion of a binary32 value to binary64; exact. *)
Definition of_float (f : spec_float) : spec_float :=
  match f with
  | S754_finite s m e => binary_round prec emax s m e
  | _ => f
  end.
(** [pow(2, k)] of the C library for a [size_t] k: the power of two when
    it is a binary64 number, plus infinity above. *)
Definition pow2 (k : N) : spec_float := SFldexp prec emax (of_Z 1) (Z.of_N k).
End F64.

(** [size_t] subtraction, modulo 2^64. *)
Definition size_t_sub (a b : N) : N := ((a + 2 ^ 64 - b mod 2 ^ 64) mod 2 ^ 64)%N.

(** ** The mutation-annotated tree *)

(** Modelled from the spec: the tree of the data model ([MAT::Node] and
    [MAT::Tree], declared outside the sources). A node carries its
    identifier, the mutations on the branch leading to it (each kept as
    the string [get_string()] renders), its clade annotations and its
    children in order; the identifiers of a tree are pairwise distinct
    ([distinct_identifiers] below), which the statements that depend on
    it assume. *)
#[local] Unset Elimination Schemes.
Inductive Node : Type := mkNode {
  identifier : string;
  mutations : list string;
  clade_annotations : list string;
  children : list Node
}.

#[local] Set Elimination Schemes.

Record Tree : Type := mkTree { root : Node }.

(** Modelled from the spec: the leaf predicate ([MAT::Node::is_leaf],
    absent from the sources): a node without children. *)
Definition is_leaf (n : Node) : bool :=
  match children n with [] => true | _ => false end.

(** [a->mutations.size()] *)
Definition mutation_count (n : Node) : N := N.of_nat (length (mutations n)).

(** Modelled from the spec: the tree adapter's depth-first expansion
    rooted at a node ([MAT::Tree::depth_first_expansion], absent from the
    sources): the node, then the expansions of its children in order. *)
Fixpoint depth_first_expansion (n : Node) : list Node :=
  n :: flat_map depth_first_expansion (children n).

(** Modelled from the spec: the node of the tree with a given identifier
    ([MAT::Tree::get_node], absent from the sources). *)
Definition get_node (T : Tree) (id : string) : option Node :=
  find (fun n => String.eqb (identifier n) id) (depth_first_expansion (root T)).

(** Modelled from the spec: leaf enumeration under a node
    ([MAT::Tree::get_leaves_ids], absent from the sources). *)
Definition leaves_of (n : Node) : list Node :=
  filter (fun d => is_leaf d) (depth_first_expansion n).

Definition get_leaves_ids (T : Tree) (id : string) : list string :=
  match get_node T id with
  | Some n => map identifier (leaves_of n)
  | None => []
  end.

(** Modelled from the spec: root-ward traversal, inclusive of the start
    ([MAT::Tree::rsearch] with [include_self = true], absent from the
    sources): the node named [id], its parent, and so on up to the root;
    empty when no node has that identifier (unknown sample identifiers
    are not errors). The root predicate [is_root] holds of the last node
    of the traversal, the one without a parent. *)
Fixpoint rsearch_in (id : string) (n : Node) : option (list Node) :=
  if String.eqb (identifier n) id then Some [n]
  else
    match
      (fix first (cs : list Node) : option (list Node) :=
         match cs with
         | [] => None
         | c :: cs' =>
           match rsearch_in id c with
           | Some p => Some p
           | None => first cs'
           end
         end) (children n)
    with
    | Some p => Some (p ++ [n])
    | None => None
    end.

Definition rsearch (T : Tree) (id : string) : list Node :=
  match rsearch_in id (root T) with
  | Some p => p
  | None => []
  end.

(** Modelled from the spec: breadth-first expansion rooted at a node
    ([MAT::Tree::breadth_first_expansion], absent from the sources): the
    nodes level by level, each level in child order. *)
Fixpoint height (n : Node) : nat :=
  S (fold_right (fun c h => Nat.max (height c) h) 0%nat (children n)).

Fixpoint bfs_levels (fuel : nat) (level : list Node) : list Node :=
  match fuel with
  | O => []
  | S fuel' => level ++ bfs_levels fuel' (flat_map children level)
  end.

Definition breadth_first_expansion_from (n : Node) : list Node :=
  bfs_levels (height n) [n].

(** [breadth_first_expansion(nid)]; the default argument, the empty
    string, stands for the root. *)
Definition breadth_first_expansion (T : Tree) (nid : string) : list Node :=
  if String.eqb nid "" then breadth_first_expansion_from (root T)
  else
    match get_node T nid with
    | Some n => breadth_first_expansion_from n
    | None => []
    end.

(** ** Outcomes

    The functions of the source either return or end the process:
    [exit(1)] after a diagnostic ([InvalidAssignment] with the values
    printed, [MysteryInternalChild]), or run into undefined behaviour: an
    integer division by zero ([DivisionByZero]), the use of the end
    iterator of the assignment map ([UnassignedNode]). *)
Record nan_dump : Type := mkDump {
  dump_min : N; dump_mout : N; dump_ols : N; dump_ils : N;
  dump_vor : spec_float; dump_vir : spec_float; dump_r : spec_float
}.

Inductive failure : Type :=
| InvalidAssignment (d : nan_dump)
| MysteryInternalChild
| DivisionByZero
| UnassignedNode.

Inductive outcome (A : Type) : Type :=
| Done (a : A)
| Abort (f : failure).
Arguments Done {A} a.
Arguments Abort {A} f.

#[global] Instance outcome_ret : MRet outcome := fun _ a => Done a.
#[global] Instance outcome_bind : MBind outcome := fun _ _ k o =>
  match o with
  | Done a => k a
  | Abort f => Abort f
  end.

(** A loop over a vector whose body may end the process. *)
Fixpoint for_each {A S : Type} (body : S -> A -> outcome S) (l : list A) (s : S)
  : outcome S :=
  match l with
  | [] => Done s
  | a :: l' => s' ← body s a; for_each body l' s'
  end.

(** ** Region assignment: [get_assignments] *)

Definition in_sample_set (sample_set : gset string) (id : string) : bool :=
  bool_decide (id ∈ sample_set).

(** The inner [rsearch] loop of rule 4: walk root-ward from a leaf adding
    up mutation counts, the count of the node itself included, until the
    node named [nid] is met; [None] when the walk ends without meeting it
    (the source then leaves the minimum as it was). *)
Fixpoint total_traveled_to (nid : string) (path : list Node) (total_traveled : N)
  : option N :=
  match path with
  | [] => None
  | a :: path' =>
    let total_traveled := (total_traveled + mutation_count a)%N in
    if String.eqb (identifier a) nid then Some total_traveled
    else total_traveled_to nid path' total_traveled
  end.

(** The loop over [depth_first_expansion(n)] of rule 4; a minimum equal to
    0 means "not assigned yet". *)
Fixpoint nearest_leaf_scan (T : Tree) (sample_set : gset string) (n : Node)
    (ds : list Node) (min_to_in min_to_out : N) : N * N :=
  match ds with
  | [] => (min_to_in, min_to_out)
  | d :: ds' =>
    if (0 <? min_to_in)%N && (0 <? min_to_out)%N then (min_to_in, min_to_out)
    else if is_leaf d then
      if in_sample_set sample_set (identifier d) && (min_to_in =? 0)%N then
        let min_to_in :=
          match total_traveled_to (identifier n) (rsearch T (identifier d)) 0 with
          | Some t => t
          | None => min_to_in
          end in
        nearest_leaf_scan T sample_set n ds' min_to_in min_to_out
      else if negb (in_sample_set sample_set (identifier d)) && (min_to_out =? 0)%N then
        let min_to_out :=
          match total_traveled_to (identifier n) (rsearch T (identifier d)) 0 with
          | Some t => t
          | None => min_to_out
          end in
        nearest_leaf_scan T sample_set n ds' min_to_in min_to_out
      else nearest_leaf_scan T sample_set n ds' min_to_in min_to_out
    else nearest_leaf_scan T sample_set n ds' min_to_in min_to_out
  end.

(** The balance of rule 4, with its NaN check. *)
Definition rule4_confidence (min_to_in min_to_out ils ols : N) : outcome spec_float :=
  let vor := F32.div (F32.of_size_t min_to_out) (F32.of_size_t ols) in
  let vir := F32.div (F32.of_size_t min_to_in) (F32.of_size_t ils) in
  let r := F32.div vir vor in
  let c := F32.div F32.one (F32.add F32.one r) in
  if F32.isnan c then
    Abort (InvalidAssignment (mkDump min_to_in min_to_out ols ils vor vir r))
  else Done c.

(** The value given to one node (the body of the loop over the nodes). *)
Definition node_assignment (T : Tree) (sample_set : gset string) (n : Node)
  : outcome spec_float :=
  if is_leaf n then
    if in_sample_set sample_set (identifier n) then Done F32.one else Done F32.zero
  else
    let leaves := get_leaves_ids T (identifier n) in
    let in_leaves : gset string :=
      list_to_set (filter (fun l => in_sample_set sample_set l = true) leaves) in
    let out_leaves : gset string :=
      list_to_set (filter (fun l => in_sample_set sample_set l = false) leaves) in
    if (N.of_nat (size out_leaves) =? 0)%N then Done F32.one
    else if (N.of_nat (size in_leaves) =? 0)%N then Done F32.zero
    else
      let '(min_to_in, min_to_out) :=
        nearest_leaf_scan T sample_set n (depth_first_expansion n) 0 0 in
      if (min_to_in =? 0)%N then Done F32.one
      else if (min_to_out =? 0)%N then Done F32.zero
      else rule4_confidence min_to_in min_to_out
             (N.of_nat (size in_leaves)) (N.of_nat (size out_leaves)).

Definition assign_step (T : Tree) (sample_set : gset string)
    (assignments : gmap string spec_float) (n : Node)
  : outcome (gmap string spec_float) :=
  c ← node_assignment T sample_set n;
  Done (<[identifier n := c]> assignments).

Definition get_assignments (T : Tree) (sample_set : gset string)
  : outcome (gmap string spec_float) :=
  for_each (assign_step T sample_set) (depth_first_expansion (root T)) ∅.

(** ** Association index: [get_association_index] *)

(** [0.5] as a [double], and the comparisons of a [float] with it (the
    [float] is promoted). *)
Definition double_half : spec_float := Eval cbv in F64.div (F64.of_Z 1) (F64.of_Z 2).
Definition gt_half (v : spec_float) : bool := SFltb double_half (F64.of_float v).
Definition ge_half (v : spec_float) : bool := SFleb double_half (F64.of_float v).

(** The first loop of permutation mode: the leaves of the traversal and
    those of them whose assignment exceeds 0.5. *)
Definition permutation_counts (assignments : gmap string spec_float)
    (bfs : list Node) : N * N :=
  fold_left
    (fun '(leaf_count, sample_count) b =>
       if is_leaf b then
         match assignments !! identifier b with
         | Some v =>
           if gt_half v then ((leaf_count + 1)%N, (sample_count + 1)%N)
           else ((leaf_count + 1)%N, sample_count)
         | None => ((leaf_count + 1)%N, sample_count)
         end
       else (leaf_count, sample_count))
    bfs (0%N, 0%N).

(** The test of permutation mode on one result of [rand()]:
    [random = rand() % leaf_count], accepted when
    [random <= static_cast<float>(sample_count)]. *)
Definition permute_accepts (leaf_count sample_count : N) (rand_result : N) : bool :=
  let random := Z.of_N (rand_result mod leaf_count) in
  F32.leb (F32.of_Z random) (F32.of_size_t sample_count).

(** The state of the main loop; the counter [permuted_inc] of the source
    is never read and is left out. *)
Record ai_state : Type := mkAiState {
  total_ai : spec_float;
  internal_tracker : gmap string (N * N);
  rand_calls : nat
}.

(** The loop over the children of an internal node; [rand k] is the k-th
    result of [rand()] after the call of [srand]. *)
Definition count_child (assignments : gmap string spec_float) (permute : bool)
    (rand : nat -> N) (leaf_count sample_count : N)
    (tracker : gmap string (N * N)) (acc : N * N * nat) (c : Node)
  : outcome (N * N * nat) :=
  let '(in_c, out_c, calls) := acc in
  if is_leaf c then
    if permute then
      if (leaf_count =? 0)%N then Abort DivisionByZero
      else if permute_accepts leaf_count sample_count (rand calls)
      then Done ((in_c + 1)%N, out_c, S calls)
      else Done (in_c, (out_c + 1)%N, S calls)
    else
      match assignments !! identifier c with
      | Some v =>
        if gt_half v then Done ((in_c + 1)%N, out_c, calls)
        else Done (in_c, (out_c + 1)%N, calls)
      | None => Done (in_c, out_c, calls)
      end
  else
    match tracker !! identifier c with
    | Some (i, o) => Done ((in_c + i)%N, (out_c + o)%N, calls)
    | None => Abort MysteryInternalChild
    end.

(** One term of the index, as the source computes it: the quotient
    [max(in_c,out_c)/total_leaves] is a quotient of [size_t]s. *)
Definition ai_term (in_c out_c : N) : spec_float :=
  let total_leaves := (in_c + out_c)%N in
  F64.div (F64.of_size_t (size_t_sub 1 (N.max in_c out_c / total_leaves)))
          (F64.pow2 (size_t_sub total_leaves 1)).

(** The body of the loop over the reversed breadth-first expansion. *)
Definition ai_step (assignments : gmap string spec_float) (permute : bool)
    (rand : nat -> N) (leaf_count sample_count : N) (st : ai_state) (n : Node)
  : outcome ai_state :=
  if is_leaf n then Done st
  else
    counts ← for_each
      (count_child assignments permute rand leaf_count sample_count (internal_tracker st))
      (children n) (0%N, 0%N, rand_calls st);
    let '(in_c, out_c, calls) := counts in
    let tracker := <[identifier n := (in_c, out_c)]> (internal_tracker st) in
    if (in_c + out_c =? 0)%N then Abort DivisionByZero
    else
      Done (mkAiState
              (F32.of_double (F64.add (F64.of_float (total_ai st)) (ai_term in_c out_c)))
              tracker calls).

Definition ai_traversal (T : Tree) (subroot : option Node) : list Node :=
  match subroot with
  | Some s => breadth_first_expansion T (identifier s)
  | None => breadth_first_expansion T ""
  end.

Definition association_index_run (T : Tree) (assignments : gmap string spec_float)
    (permute : bool) (rand : nat -> N) (subroot : option Node) : outcome ai_state :=
  let bfs := ai_traversal T subroot in
  let '(leaf_count, sample_count) :=
    if permute then permutation_counts assignments bfs else (0%N, 0%N) in
  for_each (ai_step assignments permute rand leaf_count sample_count)
           (rev bfs) (mkAiState F32.zero ∅ 0).

Definition get_association_index (T : Tree) (assignments : gmap string spec_float)
    (permute : bool) (rand : nat -> N) (subroot : option Node) : outcome spec_float :=
  st ← association_index_run T assignments permute rand subroot;
  mret (total_ai st).

(** ** Monophyletic clade size: [get_monophyletic_cladesize] *)
Definition get_monophyletic_cladesize (T : Tree)
    (assignments : gmap string spec_float) (subroot : option Node) : N :=
  let start := match subroot with Some s => s | None => root T end in
  let acls := map identifier (leaves_of start) in
  let '(biggest, current) :=
    fold_left
      (fun '(biggest, current) l =>
         match assignments !! l with
         | Some v =>
           if ge_half v then (biggest, (current + 1)%N)
           else ((if (biggest <? current)%N then current else biggest), 0%N)
         | None => (biggest, current)
         end)
      acls (0%N, 0%N) in
  if (biggest <? current)%N then current else biggest.

(** ** Introductions: [find_introductions] *)

Definition tab : string := String (Ascii.ascii_of_nat 9) "".
Definition newline : string := String (Ascii.ascii_of_nat 10) "".

(** The four header literals of the source. *)
Definition header_line (single_region add_info : bool) : string :=
  if single_region then
    if add_info then
      "sample" ++ tab ++ "introduction_node" ++ tab ++ "intro_confidence" ++ tab
      ++ "parent_confidence" ++ tab ++ "distance" ++ tab ++ "clades" ++ tab
      ++ "mutation_path" ++ tab ++ "monophyl_size" ++ tab ++ "assoc_index" ++ newline
    else
      "sample" ++ tab ++ "introduction_node" ++ tab ++ "intro_confidence" ++ tab
      ++ "parent_confidence" ++ tab ++ "distance" ++ tab ++ "clades" ++ tab
      ++ "mutation_path" ++ newline
  else
    if add_info then
      "sample" ++ tab ++ "introduction_node" ++ tab ++ "intro_confidence" ++ tab
      ++ "parent_confidence" ++ tab ++ "distance" ++ tab ++ "region" ++ tab
      ++ "origins" ++ tab ++ "origins_confidence" ++ tab ++ "clades" ++ tab
      ++ "mutation_path" ++ tab ++ "monophyl_size" ++ tab ++ "assoc_index" ++ newline
    else
      "sample" ++ tab ++ "introduction_node" ++ tab ++ "intro_confidence" ++ tab
      ++ "parent_confidence" ++ tab ++ "distance" ++ tab ++ "region" ++ tab
      ++ "origins" ++ tab ++ "origins_confidence" ++ tab ++ "clades" ++ tab
      ++ "mutation_path" ++ newline.

(** What is streamed into [origins_cons]: a confidence followed by a
    comma, or the literal [0.0]. *)
Inductive cons_item : Type :=
| ConfidenceComma (v : spec_float)
| ZeroLiteral.

(** An output row before it is rendered: the values streamed into [ostr],
    in order. The region columns are there with several regions only, the
    last two columns with [add_info] only. *)
Record introduction_row : Type := mkRow {
  row_sample : string;
  row_introduction_node : string;
  row_intro_confidence : spec_float;
  row_parent_confidence : spec_float;
  row_distance : N;
  row_region_columns : option (string * string * list cons_item);
  row_clades : string;
  row_mutation_path : string;
  row_additional_info : option (N * spec_float)
}.

Inductive output_line : Type :=
| Header (text : string)
| Row (r : introduction_row).

(** [region_ins] and [region_cons]: for a node, the regions (and the
    confidences there) in which its assignment exceeds the threshold, in
    region order. Each region names a node once, so the order in which
    one region's map is run through does not show in the result. *)
Definition push_back {V : Type} (m : gmap string (list V)) (k : string) (v : V)
  : gmap string (list V) :=
  <[k := default [] (m !! k) ++ [v]]> m.

Definition origin_index (region_assignments : list (string * gmap string spec_float))
    (min_origin_confidence : spec_float)
  : gmap string (list spec_float) * gmap string (list string) :=
  fold_left
    (fun idx ra =>
       fold_left
         (fun '(region_cons, region_ins) ass =>
            if F32.gtb (snd ass) min_origin_confidence
            then (push_back region_cons (fst ass) (snd ass),
                  push_back region_ins (fst ass) (fst ra))
            else (region_cons, region_ins))
         (map_to_list (snd ra)) idx)
    region_assignments (∅, ∅).

(** [x += s] when [x] is empty, [x += "," + s] otherwise. *)
Definition comma_append (x s : string) : string :=
  if (String.length x =? 0)%nat then (x ++ s)%string else (x ++ "," ++ s)%string.

Definition origins_columns (multi_region a_is_root : bool)
    (region_cons : gmap string (list spec_float))
    (region_ins : gmap string (list string)) (a : Node)
  : string * list cons_item :=
  let '(origins, origins_cons) :=
    if multi_region && negb a_is_root then
      match region_ins !! identifier a with
      | Some rs =>
        (fold_left comma_append rs "",
         map ConfidenceComma (default [] (region_cons !! identifier a)))
      | None => ("indeterminate", [ZeroLiteral])
      end
    else ("", []) in
  if (String.length origins =? 0)%nat
  then ("indeterminate", origins_cons ++ [ZeroLiteral])
  else (origins, origins_cons).

(** The second root-ward walk, from the node where the first one stopped:
    clades and mutation path. *)
Definition clades_and_path (path : list Node) : string * string :=
  let '(intro_clades, intro_mut_path) :=
    fold_left
      (fun '(intro_clades, intro_mut_path) a =>
         let mutstr := fold_left comma_append (mutations a) "" in
         (fold_left
            (fun clades ann =>
               if (0 <? String.length ann)%nat then comma_append clades ann else clades)
            (clade_annotations a) intro_clades,
          (intro_mut_path ++ mutstr ++ "<")%string))
      path ("", "") in
  ((if (String.length intro_clades =? 0)%nat then "none" else intro_clades),
   intro_mut_path).

Record caches : Type := mkCaches {
  recorded_mc : gmap string N;
  recorded_ai : gmap string spec_float
}.

(** The statistics of a row under [add_info], looked up or recorded under
    the identifier of the node where the walk stopped and computed on the
    subtree of [last_node]. *)
Definition additional_info (T : Tree) (assignments : gmap string spec_float)
    (a : Node) (last_node : option Node) (c : caches)
  : outcome (N * spec_float * caches) :=
  let '(mc, mcs) :=
    match recorded_mc c !! identifier a with
    | Some mc => (mc, recorded_mc c)
    | None =>
      let mc := get_monophyletic_cladesize T assignments last_node in
      (mc, <[identifier a := mc]> (recorded_mc c))
    end in
  match recorded_ai c !! identifier a with
  | Some ai => Done (mc, ai, mkCaches mcs (recorded_ai c))
  | None =>
    ai ← get_association_index T assignments false (fun _ => 0%N) last_node;
    Done (mc, ai, mkCaches mcs (<[identifier a := ai]> (recorded_ai c)))
  end.

Record walk_state : Type := mkWalk {
  last_encountered : string;
  last_node : option Node;
  last_anc_state : spec_float;
  traversed : N
}.

Section Walker.
Variable T : Tree.
Variable region_count : nat.
Variable region_cons : gmap string (list spec_float).
Variable region_ins : gmap string (list string).
Variable add_info : bool.
Variable min_origin_confidence : spec_float.
Variable region : string.
Variable assignments : gmap string spec_float.

(** The row pushed when the walk from [s] stops at [a]. *)
Definition emit_row (s : string) (a : Node) (a_is_root : bool)
    (last_encountered : string) (st : walk_state) (anc_state : spec_float)
    (c : caches) : outcome (introduction_row * caches) :=
  let '(origins, origins_cons) :=
    origins_columns (1 <? region_count)%nat a_is_root region_cons region_ins a in
  let '(intro_clades, intro_mut_path) :=
    clades_and_path (rsearch T (identifier a)) in
  info ← (if add_info then
            r ← additional_info T assignments a (last_node st) c;
            Done (Some (fst r), snd r)
          else Done (None, c));
  Done (mkRow s last_encountered (last_anc_state st) anc_state (traversed st)
          (if (region_count =? 1)%nat then None
           else Some (region, origins, origins_cons))
          intro_clades intro_mut_path (fst info),
        snd info).

(** The loop over [rsearch(s, true)]. A node is the root when it has no
    parent, that is when the root-ward walk has nothing after it. *)
Fixpoint introduction_walk (s : string) (path : list Node) (st : walk_state)
    (c : caches) : outcome (list introduction_row * caches) :=
  match path with
  | [] => Done ([], c)
  | a :: rest =>
    let a_is_root := match rest with [] => true | _ => false end in
    let last_encountered :=
      if a_is_root then identifier a else last_encountered st in
    anc_state ← (if a_is_root then Done F32.zero
                 else match assignments !! identifier a with
                      | Some v => Done v
                      | None => Abort UnassignedNode
                      end);
    if F32.ltb anc_state min_origin_confidence then
      rc ← emit_row s a a_is_root last_encountered st anc_state c;
      Done ([fst rc], snd rc)
    else
      introduction_walk s rest
        (mkWalk (identifier a) (Some a) anc_state
                (traversed st + mutation_count a)%N) c
  end.

Definition walk_sample (s : string) (c : caches)
  : outcome (list introduction_row * caches) :=
  introduction_walk s (rsearch T s) (mkWalk s None F32.one 0%N) c.

(** The loop over the samples of one region. *)
Definition walk_region (samples : list string)
  : outcome (list introduction_row) :=
  res ← for_each
    (fun '(rows, c) s =>
       rc ← walk_sample s c;
       Done (rows ++ fst rc, snd rc))
    samples ([], mkCaches ∅ ∅);
  Done (fst res).
End Walker.

(** The first loop of [find_introductions]: the assignment of a region
    and, under [add_info], its statistics, which go to the standard error
    stream; [rand i] gives the results of [rand()] in the i-th
    permutation. *)
Definition region_statistics (T : Tree) (assignments : gmap string spec_float)
    (rand : nat -> nat -> N) : outcome unit :=
  global_ai ← get_association_index T assignments false (fun _ => 0%N) None;
  for_each
    (fun _ i => perm ← get_association_index T assignments true (rand i) None; Done tt)
    (seq 0 100) tt.

Definition assign_region (T : Tree) (add_info : bool) (rand : nat -> nat -> N)
    (region_assignments : list (string * gmap string spec_float))
    (ms : string * list string)
  : outcome (list (string * gmap string spec_float)) :=
  let sample_set : gset string := list_to_set (snd ms) in
  assignments ← get_assignments T sample_set;
  _ ← (if add_info then region_statistics T assignments rand else Done tt);
  Done (region_assignments ++ [(fst ms, assignments)]).

(** ** The table of clade regions: [record_clade_regions]

    What is written to the file, line by line. The header is text; a row
    is kept as the values streamed into it, the clade label and then the
    confidences, each followed by a tab in the file. *)
Inductive clade_line : Type :=
| CladeHeader (text : string)
| CladeRow (label : string) (support : list spec_float).

(** [region_assignments[r]] *)
Definition assignments_of (region_assignments : list (string * gmap string spec_float))
    (r : string) : gmap string spec_float :=
  match find (fun ra => String.eqb (fst ra) r) region_assignments with
  | Some ra => snd ra
  | None => ∅
  end.

(** The cells of one row: the confidence of the node in every region;
    [search->second] is used without a test. *)
Definition clade_cells (region_assignments : list (string * gmap string spec_float))
    (region_order : list string) (n : Node) : outcome (list spec_float) :=
  for_each
    (fun cells r =>
       match assignments_of region_assignments r !! identifier n with
       | Some v => Done (cells ++ [v])
       | None => Abort UnassignedNode
       end)
    region_order [].

Definition record_clade_regions (T : Tree)
    (region_assignments : list (string * gmap string spec_float))
  : outcome (list clade_line) :=
  let region_order := map fst region_assignments in
  let header :=
    ("clade" ++ tab ++ fold_left (fun text r => text ++ r ++ tab) region_order ""
     ++ newline)%string in
  for_each
    (fun lines n =>
       for_each
         (fun lines ca =>
            if (0 <? String.length ca)%nat then
              cells ← clade_cells region_assignments region_order n;
              Done (lines ++ [CladeRow ca cells])
            else Done lines)
         (clade_annotations n) lines)
    (depth_first_expansion (root T)) [CladeHeader header].

(** [sample_regions[region]] *)
Definition samples_of (sample_regions : list (string * list string)) (region : string)
  : list string :=
  match find (fun ms => String.eqb (fst ms) region) sample_regions with
  | Some ms => snd ms
  | None => []
  end.

(** [find_introductions]. The map [sample_regions] is given by its
    entries in iteration order; their keys are pairwise distinct. When
    [clade_output] is not empty the table of clade regions is written
    to the file of that name by [record_clade_regions]; the lines go to
    that file, not to the result. *)
Definition find_introductions (T : Tree) (sample_regions : list (string * list string))
    (add_info : bool) (clade_output : string) (rand : nat -> nat -> N)
    (min_origin_confidence : spec_float)
  : outcome (list output_line) :=
  region_assignments ← for_each (assign_region T add_info rand) sample_regions [];
  _ ← (if (0 <? String.length clade_output)%nat
       then record_clade_regions T region_assignments
       else Done []);
  let '(region_cons, region_ins) :=
    origin_index region_assignments min_origin_confidence in
  let region_count := length region_assignments in
  let outstrs := [Header (header_line (region_count =? 1)%nat add_info)] in
  for_each
    (fun outstrs ra =>
       rows ← walk_region T region_count region_cons region_ins add_info
                min_origin_confidence (fst ra) (snd ra)
                (samples_of sample_regions (fst ra));
       Done (outstrs ++ map Row rows))
    region_assignments outstrs.

(** ** The samples file: [read_two_column]

    The reader either returns the map or ends the process: [exit(1)]
    after a diagnostic ([CouldNotOpen], [TooManyColumns]) or undefined
    behaviour, the first word of a line without words ([NoWord]) and
    the last character of an empty word ([EmptyWord]). *)
Inductive read_error : Type :=
| CouldNotOpen
| TooManyColumns
| NoWord
| EmptyWord.

Inductive reading (A : Type) : Type :=
| Read (a : A)
| ReadError (e : read_error).
Arguments Read {A} a.
Arguments ReadError {A} e.

Definition carriage_return : Ascii.ascii := Ascii.ascii_of_nat 13.

(** [if (name[name.size()-1] == '\r') name = name.substr(0, name.size()-1)] *)
Definition strip_carriage_return (name : string) : reading string :=
  match name with
  | EmptyString => ReadError EmptyWord
  | String _ _ =>
    match String.get (String.length name - 1) name with
    | Some c =>
      if Ascii.eqb c carriage_return
      then Read (String.substring 0 (String.length name - 1) name)
      else Read name
    | None => ReadError EmptyWord
    end
  end.

Section SamplesFile.
(** [MAT::string_split(line, words)], declared outside the sources: the
    words of a line. The reader is modelled for any such function. *)
Variable string_split : string -> list string.

(** The body of the loop over the lines, up to the [push_back]: the
    sample name and the region name of a line. *)
Definition read_line (line : string) : reading (string * string) :=
  match string_split line with
  | [] => ReadError NoWord
  | [sname] =>
    match strip_carriage_return sname with
    | Read sname => Read (sname, "default")
    | ReadError e => ReadError e
    end
  | [sname; rname] =>
    match strip_carriage_return rname with
    | Read rname => Read (sname, rname)
    | ReadError e => ReadError e
    end
  | _ => ReadError TooManyColumns
  end.

(** The loop over the lines [std::getline] yields; the body ends with
    [amap[rname].push_back(sname)]. *)
Fixpoint read_lines (lines : list string) (amap : gmap string (list string))
  : reading (gmap string (list string)) :=
  match lines with
  | [] => Read amap
  | line :: lines' =>
    match read_line line with
    | Read (sname, rname) => read_lines lines' (push_back amap rname sname)
    | ReadError e => ReadError e
    end
  end.

(** [read_two_column]; [infile] is [None] for a file that cannot be
    opened and the lines of the file otherwise. *)
Definition read_two_column (infile : option (list string))
  : reading (gmap string (list string)) :=
  match infile with
  | None => ReadError CouldNotOpen
  | Some lines => read_lines lines ∅
  end.
End SamplesFile.

(** Modelled from the spec: the words of a line, separated by whitespace
    ([MAT::string_split], absent from the sources, reads them with the
    stream extraction operator); whitespace is the space and the
    characters from the tab to the carriage return. *)
Definition isspace (c : Ascii.ascii) : bool :=
  let n := Ascii.nat_of_ascii c in
  ((9 <=? n) && (n <=? 13) || (n =? 32))%nat.

Fixpoint words_from (word : string) (s : string) : list string :=
  match s with
  | EmptyString => if (String.length word =? 0)%nat then [] else [word]
  | String c s' =>
    if isspace c then
      if (String.length word =? 0)%nat then words_from "" s'
      else word :: words_from "" s'
    else words_from (word ++ String c "") s'
  end.

Definition whitespace_split (line : string) : list string := words_from "" line.

(** ** What the stated properties are measured against

    Definitions that follow the wording of the specification, to be
    compared with the functions above. *)

(** A row of tab-separated columns, ended by a newline. *)
Definition tsv_line (columns : list string) : string :=
  (String.concat tab columns ++ newline)%string.

(** The header table: the region columns come before [clades] unless
    there is exactly one region; the statistics columns come last under
    [add_info]. *)
Definition header_columns (region_count : nat) (add_info : bool) : list string :=
  ["sample"; "introduction_node"; "intro_confidence"; "parent_confidence"; "distance"]
  ++ (if (region_count =? 1)%nat then [] else ["region"; "origins"; "origins_confidence"])
  ++ ["clades"; "mutation_path"]
  ++ (if add_info then ["monophyl_size"; "assoc_index"] else []).

(** Rule 4 as the specification words it: the nearest leaf of a class is
    the first leaf of that class in the depth-first expansion of [n]; its
    distance is the sum of the mutation counts on the chain from the leaf
    up to [n], the count of [n] itself left out. *)
Fixpoint chain_below (nid : string) (path : list Node) : N :=
  match path with
  | [] => 0
  | a :: path' =>
    if String.eqb (identifier a) nid then 0
    else (mutation_count a + chain_below nid path')%N
  end.

Definition first_leaf_distance (T : Tree) (n : Node) (wanted : Node -> bool) : N :=
  match find (fun d => is_leaf d && wanted d) (depth_first_expansion n) with
  | Some d => chain_below (identifier n) (rsearch T (identifier d))
  | None => 0
  end.

Definition rule4_spec (T : Tree) (sample_set : gset string) (n : Node) : spec_float :=
  let is_in d := in_sample_set sample_set (identifier d) in
  let mi := first_leaf_distance T n is_in in
  let mo := first_leaf_distance T n (fun d => negb (is_in d)) in
  let iL := N.of_nat (length (filter (fun d => is_in d = true) (leaves_of n))) in
  let oL := N.of_nat (length (filter (fun d => is_in d = false) (leaves_of n))) in
  if (mi =? 0)%N then F32.one
  else if (mo =? 0)%N then F32.zero
  else
    let vir := F32.div (F32.of_size_t mi) (F32.of_size_t iL) in
    let vor := F32.div (F32.of_size_t mo) (F32.of_size_t oL) in
    F32.div F32.one (F32.add F32.one (F32.div vir vor)).

(** The association index as the specification words it: for every
    internal node of the subtree, the leaves under it with confidence
    above 0.5 and the other ones, and the term
    [(1 - max / total) / 2^(total - 1)] with a floating-point ratio. *)
Definition in_count (assignments : gmap string spec_float) (n : Node) : N :=
  N.of_nat (length (filter
    (fun l => match assignments !! identifier l with
              | Some v => gt_half v
              | None => false
              end = true) (leaves_of n))).

Definition out_count (assignments : gmap string spec_float) (n : Node) : N :=
  (N.of_nat (length (leaves_of n)) - in_count assignments n)%N.

Definition ai_term_spec (in_c out_c : N) : spec_float :=
  let total := (in_c + out_c)%N in
  F64.div
    (SFsub F64.prec F64.emax (F64.of_Z 1)
       (F64.div (F64.of_size_t (N.max in_c out_c)) (F64.of_size_t total)))
    (F64.pow2 (total - 1)).

Definition association_index_spec (assignments : gmap string spec_float)
    (subroot : Node) : spec_float :=
  fold_left
    (fun total n =>
       if is_leaf n then total
       else F32.of_double
              (F64.add (F64.of_float total)
                 (ai_term_spec (in_count assignments n) (out_count assignments n))))
    (rev (breadth_first_expansion_from subroot)) F32.zero.

(** The sum of the mutation counts on the edges of a root-ward path
    between its first node and the node named [target]. *)
Definition edge_distance (path : list Node) (target : string) : N :=
  chain_below target path.

(** ** Trees used as examples *)

(** The tree of the end-to-end scenarios: root with leaf A and node X; X
    with node Y and leaf D; Y with leaves B and C; one mutation a branch. *)
Definition leaf (id : string) (muts : list string) : Node := mkNode id muts [] [].
Definition scenario_tree : Tree :=
  mkTree (mkNode "root" [] []
    [ leaf "A" ["m1"];
      mkNode "X" ["m2"] []
        [ mkNode "Y" ["m3"] [] [leaf "B" ["m4"]; leaf "C" ["m5"]];
          leaf "D" ["m6"] ] ]).

(** A node [P] with one mutation on its branch, an in-sample leaf [a]
    identical to it (no mutation) and a leaf [b] one mutation away. *)
Definition identical_child_node : Node :=
  mkNode "P" ["m1"] [] [leaf "a" []; leaf "b" ["m2"]].
Definition identical_child_tree : Tree :=
  mkTree (mkNode "root" [] [] [identical_child_node]).

(** A root without mutations over the leaves [a] (no mutation), [b] and
    [c] (one mutation each). *)
Definition zero_branch_tree : Tree :=
  mkTree (mkNode "root" [] [] [leaf "a" []; leaf "b" ["m1"]; leaf "c" ["m2"]]).

Definition two_in_one_out : gmap string spec_float :=
  list_to_map [("a", F32.one); ("b", F32.one); ("c", F32.zero); ("root", F32.one)].

(** The value an outcome of [get_assignments] holds for a node. *)
Definition assigned (o : outcome (gmap string spec_float)) (id : string)
  : option spec_float :=
  match o with
  | Done assignments => assignments !! id
  | Abort _ => None
  end.

Definition no_rand : nat -> nat -> N := fun _ _ => 0%N.

(** ** Loops *)

Lemma for_each_cons {A S : Type} (body : S -> A -> outcome S) (a : A) (l : list A) (s : S) :
  for_each body (a :: l) s = (s' ← body s a; for_each body l s').
Proof. reflexivity. Qed.

Lemma for_each_app {A S : Type} (body : S -> A -> outcome S) (l1 l2 : list A) (s : S) :
  for_each body (l1 ++ l2) s = (s' ← for_each body l1 s; for_each body l2 s').
Proof.
  revert s. induction l1 as [|a l1 IH]; intros s; simpl; [reflexivity|].
  destruct (body s a) as [s'|f]; simpl; [apply IH | reflexivity].
Qed.

(** A property of the state that every completed turn of the body keeps
    holds when the loop completes. *)
Lemma for_each_invariant {A S : Type} (body : S -> A -> outcome S) (P : S -> Prop)
    (l : list A) :
  (forall s a s', a ∈ l -> P s -> body s a = Done s' -> P s') ->
  forall s s', P s -> for_each body l s = Done s' -> P s'.
Proof.
  induction l as [|a l IH]; intros Hstep s s' Hs Hrun; simpl in Hrun.
  - congruence.
  - destruct (body s a) as [s1|f] eqn:Hb; simpl in Hrun; [|discriminate].
    apply (IH (fun s0 a0 s0' Ha => Hstep s0 a0 s0' (list_elem_of_further _ _ _ Ha)) s1 s');
      [|assumption].
    apply (Hstep s a s1); [left | assumption | assumption].
Qed.

Lemma elem_of_concat {A : Type} (x : A) (ls : list (list A)) :
  x ∈ concat ls <-> exists l, x ∈ l /\ l ∈ ls.
Proof.
  induction ls as [|l ls IH]; simpl.
  - split; [intros H; inversion H | intros (l & _ & H); inversion H].
  - rewrite elem_of_app, IH. split.
    + intros [H|(l' & H1 & H2)]; [exists l; split; [exact H | left]|].
      exists l'. split; [exact H1 | right; exact H2].
    + intros (l' & H1 & H2). apply elem_of_cons in H2 as [->|H2]; [left; exact H1|].
      right. exists l'. split; assumption.
Qed.

Lemma elem_of_map {A B : Type} (f : A -> B) (l : list A) (y : B) :
  y ∈ map f l <-> exists x, y = f x /\ x ∈ l.
Proof.
  induction l as [|a l IH]; simpl.
  - split; [intros H; inversion H | intros (x & _ & H); inversion H].
  - rewrite elem_of_cons, IH. split.
    + intros [->|(x & -> & H)]; [exists a; split; [reflexivity | left]|].
      exists x. split; [reflexivity | right; exact H].
    + intros (x & -> & H). apply elem_of_cons in H as [->|H]; [left; reflexivity|].
      right. exists x. split; [reflexivity | exact H].
Qed.

Lemma filter_all {A : Type} (P : A -> Prop) `{!forall x, Decision (P x)} (l : list A) :
  Forall P l -> filter P l = l.
Proof.
  induction 1 as [|x l Hx _ IH]; [reflexivity|].
  rewrite filter_cons_True by exact Hx. f_equal. exact IH.
Qed.

Lemma filter_none {A : Type} (P : A -> Prop) `{!forall x, Decision (P x)} (l : list A) :
  Forall (fun x => ~ P x) l -> filter P l = [].
Proof.
  induction 1 as [|x l Hx _ IH]; [reflexivity|].
  rewrite filter_cons_False by exact Hx. exact IH.
Qed.

(** A loop that ends the process does so in one of its turns. *)
Lemma for_each_abort {A S : Type} (body : S -> A -> outcome S) (l : list A) :
  forall s f, for_each body l s = Abort f ->
  exists s0 a, a ∈ l /\ body s0 a = Abort f.
Proof.
  induction l as [|a l IH]; intros s f Hrun; simpl in Hrun; [discriminate|].
  destruct (body s a) as [s1|f1] eqn:Hb; simpl in Hrun.
  - destruct (IH _ _ Hrun) as (s0 & a0 & Ha0 & Hb0).
    exists s0, a0. split; [right; assumption | assumption].
  - exists s, a. split; [left | congruence].
Qed.

(** ** The NaN check of rule 4 *)

Lemma rule4_confidence_done mi mo ils ols c :
  rule4_confidence mi mo ils ols = Done c -> F32.isnan c = false.
Proof.
  unfold rule4_confidence.
  destruct (F32.isnan (F32.div F32.one _)) eqn:Hnan; [discriminate|].
  intros [= <-]. exact Hnan.
Qed.

Lemma rule4_confidence_abort mi mo ils ols f :
  rule4_confidence mi mo ils ols = Abort f ->
  let vor := F32.div (F32.of_size_t mo) (F32.of_size_t ols) in
  let vir := F32.div (F32.of_size_t mi) (F32.of_size_t ils) in
  let r := F32.div vir vor in
  f = InvalidAssignment (mkDump mi mo ols ils vor vir r) /\
  F32.isnan (F32.div F32.one (F32.add F32.one r)) = true.
Proof.
  unfold rule4_confidence.
  destruct (F32.isnan (F32.div F32.one _)) eqn:Hnan; [|discriminate].
  intros [= <-]. split; [reflexivity | first [exact Hnan | reflexivity]].
Qed.

Lemma node_assignment_done T sample_set n c :
  node_assignment T sample_set n = Done c -> F32.isnan c = false.
Proof.
  unfold node_assignment.
  repeat match goal with
  | |- context [if ?b then _ else _] => destruct b
  | |- context [let '(_, _) := ?p in _] => destruct p
  end; try (intros [= <-]; reflexivity).
  apply rule4_confidence_done.
Qed.

(** The mixed node whose balance is computed, and what goes into it. *)
Definition rule4_inputs (T : Tree) (sample_set : gset string) (n : Node)
  : N * N * N * N :=
  let leaves := get_leaves_ids T (identifier n) in
  let in_leaves : gset string :=
    list_to_set (filter (fun l => in_sample_set sample_set l = true) leaves) in
  let out_leaves : gset string :=
    list_to_set (filter (fun l => in_sample_set sample_set l = false) leaves) in
  let '(min_to_in, min_to_out) :=
    nearest_leaf_scan T sample_set n (depth_first_expansion n) 0 0 in
  (min_to_in, min_to_out, N.of_nat (size in_leaves), N.of_nat (size out_leaves)).

Lemma node_assignment_abort T sample_set n f :
  node_assignment T sample_set n = Abort f ->
  exists mi mo ils ols,
    rule4_inputs T sample_set n = (mi, mo, ils, ols) /\
    rule4_confidence mi mo ils ols = Abort f.
Proof.
  unfold node_assignment, rule4_inputs.
  destruct (nearest_leaf_scan _ _ _ _ _ _) as [mi mo].
  repeat match goal with
  | |- context [if ?b then _ else _] => destruct b
  end; try discriminate.
  intros H. eexists _, _, _, _. split; [reflexivity | exact H].
Qed.

Definition nan_free (assignments : gmap string spec_float) : Prop :=
  forall id v, assignments !! id = Some v -> F32.isnan v = false.

Lemma get_assignments_nan_free T sample_set assignments :
  get_assignments T sample_set = Done assignments -> nan_free assignments.
Proof.
  unfold get_assignments.
  apply (for_each_invariant (assign_step T sample_set) nan_free).
  - intros A n A' _ HA. unfold assign_step.
    destruct (node_assignment T sample_set n) as [c|f] eqn:Hc; simpl; [|discriminate].
    intros [= <-] id v. rewrite lookup_insert.
    destruct (decide (identifier n = id)).
    + intros [= <-]. eapply node_assignment_done, Hc.
    + apply HA.
  - intros id v. rewrite lookup_empty. discriminate.
Qed.

(** A node that reaches the balance of rule 4: an internal node with
    leaves of both kinds and both distances found. *)
Lemma node_assignment_mixed T sample_set n mi mo ils ols :
  is_leaf n = false ->
  rule4_inputs T sample_set n = (mi, mo, ils, ols) ->
  mi <> 0%N -> mo <> 0%N -> ils <> 0%N -> ols <> 0%N ->
  node_assignment T sample_set n = rule4_confidence mi mo ils ols.
Proof.
  unfold rule4_inputs, node_assignment. intros Hleaf. rewrite Hleaf.
  destruct (nearest_leaf_scan _ _ _ _ _ _) as [mi' mo'].
  intros [= -> -> <- <-] Hmi Hmo Hils Hols.
  apply N.eqb_neq in Hmi, Hmo, Hils, Hols. rewrite Hmi, Hmo, Hils, Hols. reflexivity.
Qed.

(** Only such a node ends the process. *)
Lemma node_assignment_abort_mixed T sample_set n f :
  node_assignment T sample_set n = Abort f ->
  exists mi mo ils ols,
    is_leaf n = false /\
    rule4_inputs T sample_set n = (mi, mo, ils, ols) /\
    mi <> 0%N /\ mo <> 0%N /\ ils <> 0%N /\ ols <> 0%N /\
    rule4_confidence mi mo ils ols = Abort f.
Proof.
  unfold node_assignment, rule4_inputs.
  destruct (is_leaf n); [destruct (in_sample_set _ _); discriminate|].
  destruct (nearest_leaf_scan _ _ _ _ _ _) as [mi mo].
  destruct (N.of_nat (size _) =? 0)%N eqn:Hols; [discriminate|].
  destruct (N.of_nat (size _) =? 0)%N eqn:Hils in |- *; [discriminate|].
  destruct (mi =? 0)%N eqn:Hmi; [discriminate|].
  destruct (mo =? 0)%N eqn:Hmo; [discriminate|].
  intros H. eexists _, _, _, _. split; [reflexivity|]. split; [reflexivity|].
  apply N.eqb_neq in Hols, Hils, Hmi, Hmo. repeat (split; [assumption|]). exact H.
Qed.

(** The loop over the nodes ends where the first node does. *)
Lemma assign_loop_abort_at T sample_set pre n post f :
  Forall (fun m => exists c, node_assignment T sample_set m = Done c) pre ->
  node_assignment T sample_set n = Abort f ->
  forall A0, for_each (assign_step T sample_set) (pre ++ n :: post) A0 = Abort f.
Proof.
  intros Hpre Hn. induction Hpre as [|m pre [c Hm] _ IH]; intros A0.
  - simpl app. rewrite for_each_cons.
    assert (Hstep : assign_step T sample_set A0 n = Abort f).
    { unfold assign_step. rewrite Hn. reflexivity. }
    rewrite Hstep. reflexivity.
  - simpl app. rewrite for_each_cons.
    assert (Hstep : assign_step T sample_set A0 m = Done (<[identifier m := c]> A0)).
    { unfold assign_step. rewrite Hm. reflexivity. }
    rewrite Hstep. simpl. apply IH.
Qed.

Lemma assign_loop_aborts T sample_set l n f :
  n ∈ l -> node_assignment T sample_set n = Abort f ->
  forall A0, exists f', for_each (assign_step T sample_set) l A0 = Abort f'.
Proof.
  intros Hn Hab. induction l as [|m l IH]; intros A0; [inversion Hn|].
  rewrite for_each_cons.
  destruct (node_assignment T sample_set m) as [c|f'] eqn:Hm.
  - assert (Hstep : assign_step T sample_set A0 m = Done (<[identifier m := c]> A0)).
    { unfold assign_step. rewrite Hm. reflexivity. }
    rewrite Hstep. simpl.
    apply elem_of_cons in Hn as [->|Hn]; [congruence|]. apply IH, Hn.
  - assert (Hstep : assign_step T sample_set A0 m = Abort f').
    { unfold assign_step. rewrite Hm. reflexivity. }
    rewrite Hstep. eexists; reflexivity.
Qed.


(** ** Rule 4 on identical children *)

(** C1 (the code departs from it). With sample set {a}, the mixed node P
    of [identical_child_tree] has its in-sample leaf at distance 0 when
    its own branch is left out, so the stated rule gives 1; the code adds
    the mutation of P's branch to both distances and assigns
    1/(1 + (1/1)/(2/1)) = 2/3. With sample set {a, b}, the root of
    [zero_branch_tree] has its first in-sample leaf at distance 0, so the
    stated rule gives 1; the code takes 0 for "not found yet", goes on to
    b and assigns 1/(1 + (1/2)/(1/1)) = 2/3. *)
Theorem rule4_identical_child_not_in :
  assigned (get_assignments identical_child_tree {["a"]}) "P"
  = Some (S754_finite false 11184811 (-24)) /\
  rule4_spec identical_child_tree {["a"]} identical_child_node = F32.one /\
  assigned (get_assignments zero_branch_tree (list_to_set ["a"; "b"])) "root"
  = Some (S754_finite false 11184811 (-24)) /\
  rule4_spec zero_branch_tree (list_to_set ["a"; "b"]) (root zero_branch_tree)
  = F32.one.
Proof. repeat split; vm_compute; reflexivity. Qed.

(** ** The association index on a small tree *)

(** C3 (the code departs from it). On [zero_branch_tree] with a and b in
    and c out, the one internal node has in_c = 2, out_c = 1: the stated
    term is (1 - 2/3) / 2^2 = 1/12, the code takes the quotient 2/3 of
    two [size_t]s, which is 0, and returns 1 / 2^2 = 1/4. For every node
    with leaves of both kinds the quotient is 0 and the term of the code
    is 1 / 2^(total - 1), whatever the ratio. *)
Theorem association_index_integer_quotient :
  get_association_index zero_branch_tree two_in_one_out false (fun _ => 0%N) None
  = Done (S754_finite false 8388608 (-25)) /\
  association_index_spec two_in_one_out (root zero_branch_tree)
  = S754_finite false 11184811 (-27) /\
  forall in_c out_c, (1 <= in_c)%N -> (1 <= out_c)%N ->
    ai_term in_c out_c
    = F64.div (F64.of_size_t 1) (F64.pow2 (size_t_sub (in_c + out_c) 1)).
Proof.
  split; [vm_compute; reflexivity|]. split; [vm_compute; reflexivity|].
  intros in_c out_c Hin Hout. unfold ai_term.
  rewrite (N.div_small (N.max in_c out_c) (in_c + out_c)) by lia. reflexivity.
Qed.

(** ** The permutation test *)

(** The results [rand() % leaf_count] can take that the test accepts. *)
Definition accepted_values (leaf_count sample_count : N) : list N :=
  filter (fun random => permute_accepts leaf_count sample_count random = true)
         (map N.of_nat (seq 0 (N.to_nat leaf_count))).

Definition scenario_only_B : gmap string spec_float :=
  match get_assignments scenario_tree {["B"]} with
  | Done assignments => assignments
  | Abort _ => ∅
  end.

(** C8 (the code departs from it). On the scenario tree with B alone in
    the sample, leaf_count = 4 and sample_count = 1; of the four values
    of [rand() % 4] the test [random <= sample_count] accepts two, 0 and
    1, not one: a leaf is drawn in with probability 2/4, not 1/4. *)
Theorem permutation_accepts_one_too_many :
  permutation_counts scenario_only_B (ai_traversal scenario_tree None) = (4%N, 1%N) /\
  accepted_values 4 1 = [0%N; 1%N].
Proof. split; vm_compute; reflexivity. Qed.

(** ** The shape of the output of [find_introductions] *)

Lemma header_line_columns (region_count : nat) (add_info : bool) :
  header_line (region_count =? 1)%nat add_info
  = tsv_line (header_columns region_count add_info).
Proof.
  unfold header_columns.
  destruct (region_count =? 1)%nat, add_info; vm_compute; reflexivity.
Qed.

(** What the first loop leaves: one assignment per region, in order. *)
Lemma assign_regions_done T add_info rand sample_regions :
  forall acc region_assignments,
  for_each (assign_region T add_info rand) sample_regions acc = Done region_assignments ->
  exists news,
    region_assignments = acc ++ news /\
    Forall2 (fun ms ra =>
               fst ra = fst ms /\
               get_assignments T (list_to_set (snd ms)) = Done (snd ra))
            sample_regions news.
Proof.
  induction sample_regions as [|ms l IH]; intros acc ras Hrun; simpl in Hrun.
  - injection Hrun as <-. exists []. rewrite app_nil_r. split; [reflexivity | constructor].
  - destruct (assign_region T add_info rand acc ms) as [acc'|f] eqn:Hstep;
      simpl in Hrun; [|discriminate].
    unfold assign_region in Hstep.
    destruct (get_assignments T (list_to_set ms.2)) as [A|f] eqn:HA; simpl in Hstep;
      [|discriminate].
    destruct (if add_info then region_statistics T A rand else Done ()) as [[]|f];
      simpl in Hstep; [|discriminate].
    injection Hstep as <-.
    destruct (IH _ _ Hrun) as (news & -> & Hnews).
    exists ((ms.1, A) :: news). rewrite <- app_assoc. split; [reflexivity|].
    constructor; [split; [reflexivity | exact HA] | exact Hnews].
Qed.

(** What the second loop appends: the rows of each region, in order. *)
Lemma walk_regions_done (walk : string * gmap string spec_float -> outcome (list introduction_row))
    (region_assignments : list (string * gmap string spec_float)) :
  forall outstrs out,
  for_each (fun outstrs ra => rows ← walk ra; Done (outstrs ++ map Row rows))
           region_assignments outstrs = Done out ->
  exists rowss,
    out = outstrs ++ map Row (concat rowss) /\
    Forall2 (fun ra rows => walk ra = Done rows) region_assignments rowss.
Proof.
  induction region_assignments as [|ra l IH]; intros outstrs out Hrun; simpl in Hrun.
  - injection Hrun as <-. exists []. simpl. rewrite app_nil_r. split; [reflexivity | constructor].
  - destruct (walk ra) as [rows|f] eqn:Hw; simpl in Hrun; [|discriminate].
    destruct (IH _ _ Hrun) as (rowss & -> & Hall).
    exists (rows :: rowss). simpl. rewrite map_app, <- app_assoc.
    split; [reflexivity | constructor; assumption].
Qed.

Lemma find_introductions_done T sample_regions add_info clade_output rand theta out :
  find_introductions T sample_regions add_info clade_output rand theta = Done out ->
  exists region_assignments rowss,
    Forall2 (fun ms ra =>
               fst ra = fst ms /\
               get_assignments T (list_to_set (snd ms)) = Done (snd ra))
            sample_regions region_assignments /\
    out = Header (header_line (length sample_regions =? 1)%nat add_info)
          :: map Row (concat rowss) /\
    Forall2 (fun ra rows =>
               walk_region T (length region_assignments)
                 (fst (origin_index region_assignments theta))
                 (snd (origin_index region_assignments theta))
                 add_info theta (fst ra) (snd ra)
                 (samples_of sample_regions (fst ra)) = Done rows)
            region_assignments rowss.
Proof.
  unfold find_introductions. intros Hrun.
  destruct (for_each (assign_region T add_info rand) sample_regions [])
    as [ras|f] eqn:Hras; simpl in Hrun; [|discriminate].
  destruct (assign_regions_done _ _ _ _ _ _ Hras) as (news & -> & Hnews).
  simpl in *.
  destruct (if (0 <? String.length clade_output)%nat
            then record_clade_regions T news else Done []) as [table|f];
    simpl in Hrun; [|discriminate].
  destruct (origin_index news theta) as [region_cons region_ins] eqn:Hidx.
  destruct (walk_regions_done
              (fun ra => walk_region T (length news) region_cons region_ins add_info
                           theta (fst ra) (snd ra) (samples_of sample_regions (fst ra)))
              _ _ _ Hrun) as (rowss & -> & Hall).
  exists news, rowss. split; [exact Hnews|].
  pose proof (Forall2_length _ _ _ Hnews) as Hlen. rewrite Hlen, Hidx.
  split; [reflexivity | exact Hall].
Qed.

(** C7. The first line [find_introductions] returns is the header, a
    tab-separated line of the columns sample, introduction_node,
    intro_confidence, parent_confidence, distance, then region, origins
    and origins_confidence unless there is exactly one region, then
    clades and mutation_path, then monophyl_size and assoc_index under
    add-info; every later line is a row. *)
Theorem header_is_first_line T sample_regions add_info clade_output rand theta out :
  find_introductions T sample_regions add_info clade_output rand theta = Done out ->
  exists rows,
    out = Header (tsv_line (header_columns (length sample_regions) add_info))
          :: map Row rows.
Proof.
  intros Hrun.
  destruct (find_introductions_done _ _ _ _ _ _ _ Hrun) as (ras & rowss & _ & -> & _).
  exists (concat rowss). rewrite header_line_columns. reflexivity.
Qed.

Lemma header_is_first_line_witness :
  exists rows,
    [Header (tsv_line ["sample"; "introduction_node"; "intro_confidence";
                       "parent_confidence"; "distance"; "clades"; "mutation_path"])]
    = Header (tsv_line (header_columns 1 false)) :: map Row rows.
Proof.
  apply (header_is_first_line scenario_tree [("default", ["Z"])] false "" no_rand F32.half).
  vm_compute. reflexivity.
Defined.

(** ** Comparisons of floats *)

Lemma SFcompare_antisym x y :
  SFcompare y x = option_map CompOpp (SFcompare x y).
Proof.
  destruct x as [sx|sx| |sx mx ex], y as [sy|sy| |sy my ey]; simpl;
    repeat match goal with b : bool |- _ => destruct b end; try reflexivity.
  - rewrite (Z.compare_antisym ex ey).
    destruct (ex ?= ey)%Z; simpl; try reflexivity.
    repeat rewrite Pos.compare_cont_spec. simpl.
    rewrite (Pos.compare_antisym mx my). destruct (mx ?= my)%positive; reflexivity.
  - rewrite (Z.compare_antisym ex ey).
    destruct (ex ?= ey)%Z; simpl; try reflexivity.
    repeat rewrite Pos.compare_cont_spec. simpl.
    rewrite (Pos.compare_antisym mx my). destruct (mx ?= my)%positive; reflexivity.
Qed.

(** [!(x < y)] is [y <= x] when neither is NaN. *)
Lemma not_ltb_leb x y :
  F32.isnan x = false -> F32.isnan y = false ->
  F32.ltb x y = false -> F32.leb y x = true.
Proof.
  unfold F32.ltb, F32.leb, SFltb, SFleb. rewrite (SFcompare_antisym x y).
  intros Hx Hy. destruct (SFcompare x y) as [[]|] eqn:Hc; simpl; try congruence.
  destruct x, y; simpl in *;
    repeat match goal with b : bool |- _ => destruct b end; discriminate.
Qed.

Lemma ltb_not_nan x y : F32.ltb x y = true -> F32.isnan y = false.
Proof. unfold F32.ltb, SFltb. destruct x, y; simpl; congruence. Qed.

(** ** The walk *)

Definition mutation_sum (l : list Node) : N :=
  fold_right (fun a total => (mutation_count a + total)%N) 0%N l.

(** How a row relates to the root-ward path it was found on: the walk
    went past the nodes [pre], none of them below the threshold, and
    stopped at [a], followed on the path by [post]. *)
Record stopped_at (assignments : gmap string spec_float) (theta : spec_float)
    (s : string) (st : walk_state) (pre : list Node) (a : Node) (post : list Node)
    (row : introduction_row) : Prop := mkStopped {
  stop_sample : row_sample row = s;
  stop_passed :
    Forall (fun b => exists v, assignments !! identifier b = Some v /\
                               F32.ltb v theta = false) pre;
  stop_below : F32.ltb (row_parent_confidence row) theta = true;
  stop_parent :
    match post with
    | [] => row_parent_confidence row = F32.zero
    | _ :: _ => assignments !! identifier a = Some (row_parent_confidence row)
    end;
  stop_intro :
    match last pre with
    | Some b => assignments !! identifier b = Some (row_intro_confidence row)
    | None => row_intro_confidence row = last_anc_state st
    end;
  stop_distance : row_distance row = (traversed st + mutation_sum pre)%N;
  stop_node :
    row_introduction_node row =
    match post with
    | [] => identifier a
    | _ :: _ =>
      match last pre with
      | Some b => identifier b
      | None => last_encountered st
      end
    end
}.

Section WalkerFacts.
Variable T : Tree.
Variable region_count : nat.
Variable region_cons : gmap string (list spec_float).
Variable region_ins : gmap string (list string).
Variable add_info : bool.
Variable theta : spec_float.
Variable region : string.
Variable assignments : gmap string spec_float.

Local Abbreviation emit := (emit_row T region_count region_cons region_ins add_info region assignments).
Local Abbreviation walk := (introduction_walk T region_count region_cons region_ins add_info theta region assignments).

Lemma emit_row_fields s a a_is_root le st anc c row c' :
  emit s a a_is_root le st anc c = Done (row, c') ->
  row_sample row = s /\ row_introduction_node row = le /\
  row_intro_confidence row = last_anc_state st /\
  row_parent_confidence row = anc /\ row_distance row = traversed st.
Proof.
  unfold emit_row.
  destruct (origins_columns _ _ _ _ _) as [origins origins_cons].
  destruct (clades_and_path _) as [intro_clades intro_mut_path].
  match goal with |- context [mbind _ ?o] => destruct o as [info|f] end; simpl;
    [|discriminate].
  intros [= <- _]. simpl. repeat split.
Qed.

Lemma introduction_walk_done s path :
  forall st c rows c',
  walk s path st c = Done (rows, c') ->
  rows = [] \/
  exists row pre a post,
    rows = [row] /\ path = pre ++ a :: post /\
    stopped_at assignments theta s st pre a post row.
Proof.
  induction path as [|a rest IH]; intros st c rows c' Hrun; simpl in Hrun.
  - left. congruence.
  - set (a_is_root := match rest with [] => true | _ => false end) in Hrun.
    destruct (if a_is_root then Done F32.zero
              else match assignments !! identifier a with
                   | Some v => Done v
                   | None => Abort UnassignedNode
                   end) as [anc|f] eqn:Hanc; simpl in Hrun; [|discriminate].
    destruct (F32.ltb anc theta) eqn:Hlt.
    + destruct (emit s a a_is_root _ st anc c) as [[row c1]|f] eqn:Hemit;
        simpl in Hrun; [|discriminate].
      injection Hrun as <- <-.
      destruct (emit_row_fields _ _ _ _ _ _ _ _ _ Hemit) as (Hs & Hle & Hic & Hpc & Hd).
      right. exists row, [], a, rest. split; [reflexivity|]. split; [reflexivity|].
      constructor; simpl.
      * exact Hs.
      * constructor.
      * rewrite Hpc. exact Hlt.
      * rewrite Hpc. subst a_is_root. destruct rest; [congruence|].
        destruct (assignments !! identifier a); congruence.
      * exact Hic.
      * rewrite Hd. lia.
      * rewrite Hle. subst a_is_root. destruct rest; reflexivity.
    + destruct (IH _ _ _ _ Hrun) as [->|(row & pre & a' & post & -> & -> & Hst)];
        [left; reflexivity|].
      right. exists row, (a :: pre), a', post.
      split; [reflexivity|]. split; [reflexivity|].
      assert (Ha : assignments !! identifier a = Some anc).
      { subst a_is_root. destruct pre; simpl in Hanc;
          destruct (assignments !! identifier a); congruence. }
      destruct Hst as [Hs Hp Hb Hpar Hin Hd Hn].
      cbn [last_anc_state last_encountered traversed] in Hin, Hd, Hn.
      constructor.
      * exact Hs.
      * constructor; [exists anc; split; assumption | exact Hp].
      * exact Hb.
      * exact Hpar.
      * destruct pre as [|b pre]; [simpl in *; congruence|].
        change (last (a :: b :: pre)) with (last (b :: pre)).
        destruct (last (b :: pre)) eqn:Hlast; [exact Hin|].
        apply last_None in Hlast. discriminate.
      * rewrite Hd. simpl. lia.
      * rewrite Hn. destruct post; [reflexivity|].
        destruct pre as [|b pre]; [reflexivity|].
        change (last (a :: b :: pre)) with (last (b :: pre)).
        destruct (last (b :: pre)) eqn:Hlast; [reflexivity|].
        apply last_None in Hlast. discriminate.
Qed.
End WalkerFacts.

(** The state in which the walk from a sample starts. *)
Definition walk_start (s : string) : walk_state := mkWalk s None F32.one 0%N.

(** A row found by the walk from its sample over the root-ward path of
    that sample. *)
Definition row_of_walk (T : Tree) (assignments : gmap string spec_float)
    (theta : spec_float) (row : introduction_row) : Prop :=
  exists pre a post,
    rsearch T (row_sample row) = pre ++ a :: post /\
    stopped_at assignments theta (row_sample row) (walk_start (row_sample row))
               pre a post row.

Section RegionFacts.
Variable T : Tree.
Variable region_count : nat.
Variable region_cons : gmap string (list spec_float).
Variable region_ins : gmap string (list string).
Variable add_info : bool.
Variable theta : spec_float.
Variable region : string.
Variable assignments : gmap string spec_float.

Local Abbreviation sample_walk :=
  (walk_sample T region_count region_cons region_ins add_info theta region assignments).
Local Abbreviation region_walk :=
  (walk_region T region_count region_cons region_ins add_info theta region assignments).

Lemma walk_sample_done s c rows c' :
  sample_walk s c = Done (rows, c') ->
  Forall (fun row => row_sample row = s /\ row_of_walk T assignments theta row) rows.
Proof.
  unfold walk_sample. intros Hrun.
  destruct (introduction_walk_done _ _ _ _ _ _ _ _ _ _ _ _ _ _ Hrun)
    as [->|(row & pre & a & post & -> & Hpath & Hst)]; [constructor|].
  assert (Hs : row_sample row = s) by apply Hst.
  constructor; [|constructor]. split; [exact Hs|].
  exists pre, a, post. rewrite Hs. split; assumption.
Qed.

(** The rows of a region are those of its samples, in order. *)
Lemma walk_region_done samples rows :
  region_walk samples = Done rows ->
  exists rowss,
    rows = concat rowss /\
    Forall2 (fun s rs => exists c c', sample_walk s c = Done (rs, c')) samples rowss.
Proof.
  unfold walk_region.
  destruct (for_each _ samples ([], mkCaches ∅ ∅)) as [[rows0 c0]|f] eqn:Hloop;
    simpl; [|discriminate].
  intros [= <-].
  assert (Hgen : forall samples acc c rows1 c1,
    for_each (fun '(rows, c) s => rc ← sample_walk s c; Done (rows ++ fst rc, snd rc))
             samples (acc, c) = Done (rows1, c1) ->
    exists rowss, rows1 = acc ++ concat rowss /\
      Forall2 (fun s rs => exists c c', sample_walk s c = Done (rs, c')) samples rowss).
  { clear. induction samples as [|s l IH]; intros acc c rows1 c1 Hrun; simpl in Hrun.
    - injection Hrun as <- <-. exists []. simpl. rewrite app_nil_r.
      split; [reflexivity | constructor].
    - destruct (sample_walk s c) as [[rs c2]|f] eqn:Hs; simpl in Hrun; [|discriminate].
      destruct (IH _ _ _ _ Hrun) as (rowss & -> & Hall).
      exists (rs :: rowss). simpl. rewrite <- app_assoc. split; [reflexivity|].
      constructor; [exists c, c2; exact Hs | exact Hall]. }
  destruct (Hgen _ _ _ _ _ Hloop) as (rowss & -> & Hall).
  exists rowss. split; [reflexivity | exact Hall].
Qed.

Lemma walk_region_rows samples rows row :
  region_walk samples = Done rows -> row ∈ rows ->
  row_sample row ∈ samples /\ row_of_walk T assignments theta row.
Proof.
  intros Hrun Hrow.
  destruct (walk_region_done _ _ Hrun) as (rowss & -> & Hall).
  apply elem_of_concat in Hrow as (rs & Hrow & Hrs).
  apply list_elem_of_lookup in Hrs as (i & Hi).
  destruct (Forall2_lookup_r _ _ _ _ _ Hall Hi) as (s & Hs & c & c' & Hwalk).
  pose proof (walk_sample_done _ _ _ _ Hwalk) as Hrows.
  rewrite Forall_forall in Hrows. destruct (Hrows _ Hrow) as [Heq Hw].
  split; [|exact Hw]. rewrite Heq. apply list_elem_of_lookup. exists i. exact Hs.
Qed.
End RegionFacts.

(** Every row [find_introductions] returns was found by the walk for one
    of the regions, under the assignment of that region. *)
Lemma find_introductions_rows T sample_regions add_info clade_output rand theta out row :
  find_introductions T sample_regions add_info clade_output rand theta = Done out ->
  Row row ∈ out ->
  exists ms assignments,
    ms ∈ sample_regions /\
    get_assignments T (list_to_set (snd ms)) = Done assignments /\
    row_sample row ∈ samples_of sample_regions (fst ms) /\
    row_of_walk T assignments theta row.
Proof.
  intros Hrun Hrow.
  destruct (find_introductions_done _ _ _ _ _ _ _ Hrun) as (ras & rowss & Hras & -> & Hall).
  apply elem_of_cons in Hrow as [Hrow|Hrow]; [discriminate|].
  apply elem_of_map in Hrow as (row' & [= <-] & Hrow).
  apply elem_of_concat in Hrow as (rs & Hrow & Hrs).
  apply list_elem_of_lookup in Hrs as (i & Hi).
  destruct (Forall2_lookup_r _ _ _ _ _ Hall Hi) as (ra & Hra & Hwalk).
  destruct (Forall2_lookup_r _ _ _ _ _ Hras Hra) as (ms & Hms & Hfst & HA).
  destruct (walk_region_rows _ _ _ _ _ _ _ _ _ _ _ Hwalk Hrow) as [Hin Hw].
  exists ms, (snd ra). split; [apply list_elem_of_lookup; exists i; exact Hms|].
  split; [exact HA|]. rewrite <- Hfst. split; assumption.
Qed.

(** ** Rows and the threshold *)

Definition scenario_B_row : introduction_row :=
  mkRow "B" "Y" (S754_finite false 8388608 (-24)) (S754_finite false 11184811 (-25))
        2 None "none" "m2<<" None.

Lemma scenario_B_output :
  find_introductions scenario_tree [("default", ["B"])] false "" no_rand F32.half
  = Done [Header (header_line true false); Row scenario_B_row].
Proof. vm_compute. reflexivity. Qed.

(** C5 (as amended). For a threshold theta <= 1, every row has
    parent_confidence < theta <= intro_confidence. The row's sample has a
    root-ward path pre ++ a :: post on which the walk went past the nodes
    of pre, all of confidence >= theta in the assignment of the region,
    and stopped at a: parent_confidence is 0 when a is the root (nothing
    after it) and the confidence of a, the first below theta, otherwise;
    intro_confidence is the confidence of the last node of pre, or the
    initial value 1 when the walk stopped at its first node. *)
Theorem confidences_around_threshold T sample_regions add_info clade_output rand theta out row :
  find_introductions T sample_regions add_info clade_output rand theta = Done out ->
  Row row ∈ out ->
  F32.leb theta F32.one = true ->
  F32.ltb (row_parent_confidence row) theta = true /\
  F32.leb theta (row_intro_confidence row) = true /\
  exists ms assignments pre a post,
    ms ∈ sample_regions /\
    get_assignments T (list_to_set (snd ms)) = Done assignments /\
    rsearch T (row_sample row) = pre ++ a :: post /\
    Forall (fun b => exists v, assignments !! identifier b = Some v /\
                               F32.leb theta v = true) pre /\
    match post with
    | [] => row_parent_confidence row = F32.zero
    | _ :: _ => assignments !! identifier a = Some (row_parent_confidence row)
    end /\
    match last pre with
    | Some b => assignments !! identifier b = Some (row_intro_confidence row)
    | None => row_intro_confidence row = F32.one
    end.
Proof.
  intros Hrun Hrow Hle.
  destruct (find_introductions_rows _ _ _ _ _ _ _ _ Hrun Hrow)
    as (ms & A & Hms & HA & _ & pre & a & post & Hpath & Hst).
  destruct Hst as [_ Hp Hb Hpar Hin _ _]. cbn [last_anc_state walk_start] in Hin.
  pose proof (get_assignments_nan_free _ _ _ HA) as Hnan.
  pose proof (ltb_not_nan _ _ Hb) as Htheta.
  assert (Hpre : Forall (fun b => exists v, A !! identifier b = Some v /\
                                            F32.leb theta v = true) pre).
  { eapply Forall_impl; [exact Hp|]. intros b (v & Hv & Hlt). exists v.
    split; [exact Hv|]. apply not_ltb_leb; [eapply Hnan, Hv | exact Htheta | exact Hlt]. }
  split; [exact Hb|]. split.
  - destruct (last pre) as [b|] eqn:Hlast.
    + apply last_Some_elem_of in Hlast. rewrite Forall_forall in Hpre.
      destruct (Hpre _ Hlast) as (v & Hv & Hlev). congruence.
    + rewrite Hin. exact Hle.
  - exists ms, A, pre, a, post. repeat (split; [assumption|]). exact Hin.
Qed.

Lemma confidences_around_threshold_witness :
  F32.ltb (row_parent_confidence scenario_B_row) F32.half = true /\
  F32.leb F32.half (row_intro_confidence scenario_B_row) = true.
Proof.
  pose proof (confidences_around_threshold scenario_tree [("default", ["B"])] false ""
                no_rand F32.half _ scenario_B_row scenario_B_output) as H.
  destruct H as (H1 & H2 & _).
  - apply list_elem_of_further, list_elem_of_here.
  - vm_compute. reflexivity.
  - split; assumption.
Defined.

(** C5 as stated fails: with the threshold 2 the walk from the leaf B,
    whose confidence is 1, stops at B itself; intro_confidence keeps its
    initial value 1, which is below the threshold. *)
Lemma threshold_above_every_confidence :
  exists row,
    find_introductions scenario_tree [("default", ["B"])] false "" no_rand (F32.of_Z 2)
    = Done [Header (header_line true false); Row row] /\
    F32.ltb (row_parent_confidence row) (F32.of_Z 2) = true /\
    F32.leb (F32.of_Z 2) (row_intro_confidence row) = false.
Proof.
  exists (mkRow "B" "B" F32.one F32.one 0 None "none" "m4<m3<m2<<" None).
  repeat split; vm_compute; reflexivity.
Qed.

(** ** Rows and the distance *)

(** C6 (as amended). The distance of a row is the sum of the mutation
    counts of the nodes the walk went past before it stopped: with
    pre ++ a :: post the root-ward path of the sample and a the node
    where the walk stopped (the first node below the threshold, or the
    root), it is the sum over pre, the length of the path from the
    sample up to a, and 0 when the walk stopped at its first node. The
    introduction_node is a when a is the root. Otherwise, when the walk
    went past a node, it is the last node passed, whose own branch the
    distance then includes; and when the walk stopped at its first node
    (pre is empty), it is the sample itself, at distance 0. *)
Theorem distance_up_to_stopping_node T sample_regions add_info clade_output rand theta out row :
  find_introductions T sample_regions add_info clade_output rand theta = Done out ->
  Row row ∈ out ->
  exists ms assignments pre a post,
    ms ∈ sample_regions /\
    get_assignments T (list_to_set (snd ms)) = Done assignments /\
    rsearch T (row_sample row) = pre ++ a :: post /\
    Forall (fun b => exists v, assignments !! identifier b = Some v /\
                               F32.ltb v theta = false) pre /\
    F32.ltb (match post with
             | [] => F32.zero
             | _ :: _ => default F32.zero (assignments !! identifier a)
             end) theta = true /\
    row_distance row = mutation_sum pre /\
    row_introduction_node row =
    match post with
    | [] => identifier a
    | _ :: _ =>
      match last pre with
      | Some b => identifier b
      | None => row_sample row
      end
    end /\
    (pre = [] ->
     row_distance row = 0%N /\
     (post <> [] -> row_introduction_node row = row_sample row)).
Proof.
  intros Hrun Hrow.
  destruct (find_introductions_rows _ _ _ _ _ _ _ _ Hrun Hrow)
    as (ms & A & Hms & HA & _ & pre & a & post & Hpath & Hst).
  destruct Hst as [_ Hp Hb Hpar _ Hd Hn].
  cbn [traversed last_encountered walk_start] in Hd, Hn.
  exists ms, A, pre, a, post. repeat (split; [assumption|]). split; [|split; [|split]].
  - destruct post; [rewrite <- Hpar | rewrite Hpar]; exact Hb.
  - rewrite Hd. lia.
  - exact Hn.
  - intros ->. split.
    + rewrite Hd. simpl. lia.
    + intros Hpost. rewrite Hn. destruct post; [contradiction|reflexivity].
Qed.

Lemma distance_up_to_stopping_node_witness :
  exists pre a post,
    rsearch scenario_tree "B" = pre ++ a :: post /\
    row_distance scenario_B_row = mutation_sum pre.
Proof.
  destruct (distance_up_to_stopping_node scenario_tree [("default", ["B"])] false ""
              no_rand F32.half _ scenario_B_row scenario_B_output)
    as (_ & _ & pre & a & post & _ & _ & Hpath & _ & _ & Hd & _ & _).
  - apply list_elem_of_further, list_elem_of_here.
  - exists pre, a, post. split; [exact Hpath | exact Hd].
Defined.

(** C6 as stated fails: the walk from B goes past B and Y and stops at
    X; the row names Y as introduction node and has distance 2, the
    mutations of B and of Y, while the path between B and Y is the one
    edge above B, with 1 mutation. *)
Lemma distance_counts_introduction_branch :
  exists row,
    find_introductions scenario_tree [("default", ["B"])] false "" no_rand F32.half
    = Done [Header (header_line true false); Row row] /\
    row_introduction_node row = "Y" /\
    row_distance row = 2%N /\
    edge_distance (rsearch scenario_tree (row_sample row)) (row_introduction_node row)
    = 1%N.
Proof.
  exists scenario_B_row. repeat split; vm_compute; reflexivity.
Qed.

(** ** Trees *)

Lemma Node_ind (P : Node -> Prop) :
  (forall id muts clades cs, Forall P cs -> P (mkNode id muts clades cs)) ->
  forall n, P n.
Proof.
  intros Hnode. fix IH 1. intros [id muts clades cs]. apply Hnode.
  induction cs as [|c cs IHcs]; constructor; [apply IH | exact IHcs].
Qed.

Lemma elem_of_flat_map {A B : Type} (f : A -> list B) (l : list A) (y : B) :
  y ∈ flat_map f l <-> exists x, x ∈ l /\ y ∈ f x.
Proof.
  induction l as [|a l IH]; simpl.
  - split; [intros H; inversion H | intros (x & H & _); inversion H].
  - rewrite elem_of_app, IH. split.
    + intros [H|(x & H1 & H2)]; [exists a; split; [left | exact H]|].
      exists x. split; [right; exact H1 | exact H2].
    + intros (x & H1 & H2). apply elem_of_cons in H1 as [->|H1]; [left; exact H2|].
      right. exists x. split; assumption.
Qed.

Lemma depth_first_expansion_unfold n :
  depth_first_expansion n = n :: flat_map depth_first_expansion (children n).
Proof. destruct n; reflexivity. Qed.

Lemma depth_first_expansion_self n : n ∈ depth_first_expansion n.
Proof. rewrite depth_first_expansion_unfold. left. Qed.

(** The expansion of a node holds the expansions of the nodes in it. *)
Lemma depth_first_expansion_trans n :
  forall m d, m ∈ depth_first_expansion n -> d ∈ depth_first_expansion m ->
  d ∈ depth_first_expansion n.
Proof.
  induction n as [id muts clades cs IH] using Node_ind. intros m d Hm Hd.
  rewrite depth_first_expansion_unfold in Hm. apply elem_of_cons in Hm as [->|Hm];
    [exact Hd|].
  rewrite depth_first_expansion_unfold. right. simpl in *.
  apply elem_of_flat_map in Hm as (c & Hc & Hm). apply elem_of_flat_map.
  exists c. split; [exact Hc|]. rewrite Forall_forall in IH. exact (IH c Hc m d Hm Hd).
Qed.

Lemma depth_first_expansion_child n c :
  c ∈ children n -> c ∈ depth_first_expansion n.
Proof.
  intros Hc. rewrite depth_first_expansion_unfold. right.
  apply elem_of_flat_map. exists c. split; [exact Hc | apply depth_first_expansion_self].
Qed.

Lemma height_unfold n :
  height n = S (fold_right (fun c h => Nat.max (height c) h) 0%nat (children n)).
Proof. destruct n; reflexivity. Qed.

Lemma height_child n c : c ∈ children n -> (height c < height n)%nat.
Proof.
  rewrite (height_unfold n). generalize (children n). intros cs Hc.
  induction cs as [|c' cs IH]; [inversion Hc|]. simpl.
  apply elem_of_cons in Hc as [->|Hc]; [lia|]. specialize (IH Hc). lia.
Qed.

Lemma get_node_elem T id n : get_node T id = Some n ->
  n ∈ depth_first_expansion (root T) /\ identifier n = id.
Proof.
  unfold get_node. intros H. apply find_some in H as [Hin Heq].
  split; [apply list_elem_of_In; exact Hin | apply String.eqb_eq; exact Heq].
Qed.

(** The breadth-first expansion stays inside the depth-first one. *)
Lemma bfs_levels_elem fuel :
  forall level d, d ∈ bfs_levels fuel level ->
  exists n, n ∈ level /\ d ∈ depth_first_expansion n.
Proof.
  induction fuel as [|fuel IH]; intros level d Hd; simpl in Hd; [inversion Hd|].
  apply elem_of_app in Hd as [Hd|Hd].
  - exists d. split; [exact Hd | apply depth_first_expansion_self].
  - destruct (IH _ _ Hd) as (c & Hc & Hdc).
    apply elem_of_flat_map in Hc as (n & Hn & Hc). exists n. split; [exact Hn|].
    eapply depth_first_expansion_trans; [apply depth_first_expansion_child, Hc | exact Hdc].
Qed.

Lemma breadth_first_expansion_elem T nid d :
  d ∈ breadth_first_expansion T nid -> d ∈ depth_first_expansion (root T).
Proof.
  unfold breadth_first_expansion, breadth_first_expansion_from.
  destruct (String.eqb nid "").
  - intros Hd. apply bfs_levels_elem in Hd as (n & Hn & Hd).
    apply list_elem_of_singleton in Hn as ->. exact Hd.
  - destruct (get_node T nid) as [n|] eqn:Hget; [|intros H; inversion H].
    intros Hd. apply bfs_levels_elem in Hd as (n' & Hn & Hd).
    apply list_elem_of_singleton in Hn as ->.
    eapply depth_first_expansion_trans; [apply (get_node_elem _ _ _ Hget) | exact Hd].
Qed.

Lemma ai_traversal_elem T subroot d :
  d ∈ ai_traversal T subroot -> d ∈ depth_first_expansion (root T).
Proof. destruct subroot; apply breadth_first_expansion_elem. Qed.

(** ** Children before parents

    In the reversed breadth-first expansion every node comes after its
    children. [children_first processed l]: going through [l] after
    [processed], each node finds its children already gone through. *)
Fixpoint children_first (processed l : list Node) : Prop :=
  match l with
  | [] => True
  | n :: l' =>
    (forall c, c ∈ children n -> c ∈ processed) /\ children_first (n :: processed) l'
  end.

Lemma children_first_mono l :
  forall P P', (forall x, x ∈ P -> x ∈ P') -> children_first P l -> children_first P' l.
Proof.
  induction l as [|n l IH]; intros P P' Hsub; simpl; [trivial|].
  intros [Hc Hl]. split; [intros c Hcn; apply Hsub, Hc, Hcn|].
  apply (IH (n :: P)); [|exact Hl].
  intros x Hx. apply elem_of_cons in Hx as [->|Hx]; [left | right; apply Hsub, Hx].
Qed.

Lemma children_first_app l1 :
  forall P l2, children_first P l1 -> children_first (rev l1 ++ P) l2 ->
  children_first P (l1 ++ l2).
Proof.
  induction l1 as [|n l1 IH]; intros P l2 H1 H2; simpl in *; [exact H2|].
  destruct H1 as [Hc H1]. split; [exact Hc|]. apply IH; [exact H1|].
  rewrite <- app_assoc in H2. exact H2.
Qed.

Lemma children_first_all l :
  forall P, (forall n c, n ∈ l -> c ∈ children n -> c ∈ P) -> children_first P l.
Proof.
  induction l as [|n l IH]; intros P Hall; simpl; [trivial|].
  split; [intros c Hc; apply (Hall n c); [left | exact Hc]|].
  apply IH. intros n' c Hn Hc. right. apply (Hall n' c); [right; exact Hn | exact Hc].
Qed.

Lemma bfs_levels_children_first fuel :
  forall level, (forall n, n ∈ level -> (height n <= fuel)%nat) ->
  children_first [] (rev (bfs_levels fuel level)).
Proof.
  induction fuel as [|fuel IH]; intros level Hh; simpl; [trivial|].
  rewrite rev_app_distr. apply children_first_app.
  - apply IH. intros c Hc. apply elem_of_flat_map in Hc as (n & Hn & Hc).
    specialize (Hh n Hn). apply height_child in Hc. lia.
  - apply children_first_all. intros n c Hn Hc.
    rewrite rev_involutive, app_nil_r.
    apply list_elem_of_In, in_rev, list_elem_of_In in Hn.
    destruct fuel as [|fuel].
    + specialize (Hh n Hn). apply height_child in Hc.
      rewrite (height_unfold c) in Hc. lia.
    + simpl. apply elem_of_app. left. apply elem_of_flat_map. exists n. split; assumption.
Qed.

(** The children of a node gone through were gone through before it. *)
Lemma children_first_closed l :
  forall P n c, children_first P l -> n ∈ l -> c ∈ children n -> c ∈ l \/ c ∈ P.
Proof.
  induction l as [|m l IH]; intros P n c Hcf Hn Hc; [inversion Hn|].
  destruct Hcf as [Hm Hcf]. apply elem_of_cons in Hn as [->|Hn].
  - right. apply Hm, Hc.
  - destruct (IH _ _ _ Hcf Hn Hc) as [H|H]; [left; right; exact H|].
    apply elem_of_cons in H as [->|H]; [left; left | right; exact H].
Qed.

Lemma ai_traversal_children_first T subroot :
  children_first [] (rev (ai_traversal T subroot)).
Proof.
  assert (Hfrom : forall n, children_first [] (rev (breadth_first_expansion_from n))).
  { intros n. apply bfs_levels_children_first. intros n' Hn.
    apply list_elem_of_singleton in Hn as ->. lia. }
  unfold ai_traversal, breadth_first_expansion.
  destruct subroot as [s|]; simpl.
  - destruct (String.eqb (identifier s) ""); [apply Hfrom|].
    destruct (get_node T (identifier s)); [apply Hfrom | simpl; trivial].
  - apply Hfrom.
Qed.

(** ** The counts of the association index *)

(** The tracker has an entry for every internal node gone through. *)
Definition tracked (tracker : gmap string (N * N)) (processed : list Node) : Prop :=
  forall n, n ∈ processed -> is_leaf n = false -> is_Some (tracker !! identifier n).

(** Every entry of the tracker counts at least one leaf. *)
Definition positive (tracker : gmap string (N * N)) : Prop :=
  forall id in_c out_c, tracker !! id = Some (in_c, out_c) -> (1 <= in_c + out_c)%N.

Section UnassignedLeaves.
Variable assignments : gmap string spec_float.
Variable rand : nat -> N.
Variable leaf_count sample_count : N.

Local Abbreviation child := (count_child assignments false rand leaf_count sample_count).
Local Abbreviation step := (ai_step assignments false rand leaf_count sample_count).

(** The loop over the children completes when the internal children
    are in the tracker. *)
Lemma count_children_done tracker cs :
  (forall c, c ∈ cs -> is_leaf c = false -> is_Some (tracker !! identifier c)) ->
  forall acc, exists acc', for_each (child tracker) cs acc = Done acc'.
Proof.
  induction cs as [|c cs IH]; intros Hcs acc; [eexists; reflexivity|].
  rewrite for_each_cons.
  assert (Hc : exists acc1, child tracker acc c = Done acc1).
  { unfold count_child. destruct acc as [[in_c out_c] calls].
    destruct (is_leaf c) eqn:Hleaf.
    - destruct (assignments !! identifier c) as [v|]; [|eexists; reflexivity].
      destruct (gt_half v); eexists; reflexivity.
    - destruct (Hcs c (list_elem_of_here _ _) Hleaf) as [[i o] ->].
      eexists; reflexivity. }
  destruct Hc as [acc1 ->]. simpl. apply IH.
  intros c' Hc'. apply Hcs. right. exact Hc'.
Qed.

(** Children that are leaves without an assignment add nothing. *)
Lemma count_children_unmapped tracker cs :
  (forall c, c ∈ cs -> is_leaf c = true /\ assignments !! identifier c = None) ->
  forall acc, for_each (child tracker) cs acc = Done acc.
Proof.
  induction cs as [|c cs IH]; intros Hcs acc; [reflexivity|].
  rewrite for_each_cons.
  destruct (Hcs c (list_elem_of_here _ _)) as [Hleaf Hnone].
  destruct acc as [[in_c out_c] calls].
  assert (Hstep : child tracker (in_c, out_c, calls) c = Done (in_c, out_c, calls)).
  { unfold count_child. rewrite Hleaf, Hnone. reflexivity. }
  rewrite Hstep. simpl. apply IH. intros c' Hc'. apply Hcs. right. exact Hc'.
Qed.

Lemma tracked_leaf tracker P n :
  is_leaf n = true -> tracked tracker P -> tracked tracker (n :: P).
Proof.
  intros Hleaf Ht n' Hn' Hint. apply elem_of_cons in Hn' as [->|Hn']; [congruence|].
  apply Ht; assumption.
Qed.

Lemma tracked_insert tracker P n counts :
  tracked tracker P -> tracked (<[identifier n := counts]> tracker) (n :: P).
Proof.
  intros Ht n' Hn' Hint. rewrite lookup_insert.
  destruct (decide (identifier n = identifier n')); [eexists; reflexivity|].
  apply elem_of_cons in Hn' as [->|Hn']; [congruence|]. apply Ht; assumption.
Qed.

(** One turn of the main loop either completes, with the node tracked,
    or divides by zero. *)
Lemma ai_step_outcome st n P :
  (forall c, c ∈ children n -> c ∈ P) -> tracked (internal_tracker st) P ->
  (exists st', step st n = Done st' /\ tracked (internal_tracker st') (n :: P) /\
     (is_leaf n = true -> st' = st) /\
     (is_leaf n = false ->
      exists in_c out_c calls,
        for_each (child (internal_tracker st)) (children n) (0%N, 0%N, rand_calls st)
        = Done (in_c, out_c, calls) /\
        (in_c + out_c)%N <> 0%N /\
        internal_tracker st' = <[identifier n := (in_c, out_c)]> (internal_tracker st)))
  \/ (step st n = Abort DivisionByZero /\ is_leaf n = false /\
      exists calls,
        for_each (child (internal_tracker st)) (children n) (0%N, 0%N, rand_calls st)
        = Done (0%N, 0%N, calls)).
Proof.
  intros Hc Ht. unfold ai_step. destruct (is_leaf n) eqn:Hleaf.
  - left. exists st. split; [reflexivity|]. split; [apply tracked_leaf; assumption|].
    split; [reflexivity | discriminate].
  - destruct (count_children_done (internal_tracker st) (children n)
                (fun c Hcn Hint => Ht c (Hc c Hcn) Hint) (0%N, 0%N, rand_calls st))
      as [[[in_c out_c] calls] Hrun].
    rewrite Hrun. simpl. destruct (in_c + out_c =? 0)%N eqn:Hz.
    + right. apply N.eqb_eq in Hz. split; [reflexivity|]. split; [reflexivity|].
      exists calls. assert (in_c = 0%N /\ out_c = 0%N) as [-> ->] by lia. reflexivity.
    + left. apply N.eqb_neq in Hz. eexists. split; [reflexivity|]. simpl.
      split; [apply tracked_insert, Ht|]. split; [discriminate|].
      intros _. exists in_c, out_c, calls. repeat split; assumption.
Qed.

(** The main loop never meets an internal child it has not recorded. *)
Lemma ai_loop_outcome l :
  forall P st, children_first P l -> tracked (internal_tracker st) P ->
  (exists st', for_each step l st = Done st' /\
               tracked (internal_tracker st') (rev l ++ P))
  \/ for_each step l st = Abort DivisionByZero.
Proof.
  induction l as [|n l IH]; intros P st Hcf Ht.
  - left. exists st. split; [reflexivity | exact Ht].
  - rewrite for_each_cons. destruct Hcf as [Hc Hcf].
    destruct (ai_step_outcome st n P Hc Ht) as [(st1 & -> & Ht1 & _)|[-> _]];
      simpl; [|right; reflexivity].
    destruct (IH _ _ Hcf Ht1) as [(st' & -> & Ht')| ->]; [left | right; reflexivity].
    exists st'. split; [reflexivity|]. rewrite <- app_assoc. exact Ht'.
Qed.

(** A node whose children are all leaves without an assignment makes
    the loop divide by zero. *)
Lemma ai_loop_unmapped n l :
  is_leaf n = false ->
  (forall c, c ∈ children n -> is_leaf c = true /\ assignments !! identifier c = None) ->
  n ∈ l ->
  forall P st, children_first P l -> tracked (internal_tracker st) P ->
  for_each step l st = Abort DivisionByZero.
Proof.
  intros Hint Hcs. induction l as [|m l IH]; intros Hn P st Hcf Ht; [inversion Hn|].
  rewrite for_each_cons. destruct Hcf as [Hc Hcf].
  destruct (ai_step_outcome st m P Hc Ht) as [(st1 & Hs & Ht1 & _ & Hi)|[-> _]];
    [|reflexivity].
  rewrite Hs. simpl. apply elem_of_cons in Hn as [<-|Hn].
  - exfalso. destruct (Hi Hint) as (in_c & out_c & calls & Hrun & Hnz & _).
    rewrite (count_children_unmapped _ _ Hcs) in Hrun. injection Hrun as <- <- <-. lia.
  - apply (IH Hn _ _ Hcf Ht1).
Qed.
End UnassignedLeaves.

Lemma tracked_empty : tracked ∅ [].
Proof. intros n Hn. inversion Hn. Qed.

Lemma positive_empty : positive ∅.
Proof. intros id i o. rewrite lookup_empty. discriminate. Qed.

(** In both modes the loops complete when every leaf child can be
    counted: in permutation mode when [leaf_count] is not zero, otherwise
    when the leaf has an assignment. *)
Section CountedLeaves.
Variable assignments : gmap string spec_float.
Variable permute : bool.
Variable rand : nat -> N.
Variable leaf_count sample_count : N.

Local Abbreviation child := (count_child assignments permute rand leaf_count sample_count).
Local Abbreviation step := (ai_step assignments permute rand leaf_count sample_count).

Definition leaf_ready (c : Node) : Prop :=
  if permute then leaf_count <> 0%N else is_Some (assignments !! identifier c).

(** Each child adds at least one to the counts. *)
Lemma count_children_total tracker cs :
  positive tracker ->
  (forall c, c ∈ cs ->
     if is_leaf c then leaf_ready c else is_Some (tracker !! identifier c)) ->
  forall in_c out_c calls, exists in_c' out_c' calls',
    for_each (child tracker) cs (in_c, out_c, calls) = Done (in_c', out_c', calls') /\
    (in_c + out_c + N.of_nat (length cs) <= in_c' + out_c')%N.
Proof.
  intros Hpos. induction cs as [|c cs IH]; intros Hcs in_c out_c calls.
  - exists in_c, out_c, calls. split; [reflexivity | simpl; lia].
  - rewrite for_each_cons.
    assert (Hc : exists i1 o1 k1, child tracker (in_c, out_c, calls) c = Done (i1, o1, k1) /\
                                  (in_c + out_c + 1 <= i1 + o1)%N).
    { pose proof (Hcs c (list_elem_of_here _ _)) as Hready. unfold count_child.
      destruct (is_leaf c).
      - unfold leaf_ready in Hready. destruct permute.
        + apply N.eqb_neq in Hready. rewrite Hready.
          destruct (permute_accepts _ _ _); eexists _, _, _; (split; [reflexivity | lia]).
        + destruct Hready as [v ->].
          destruct (gt_half v); eexists _, _, _; (split; [reflexivity | lia]).
      - destruct Hready as [[i o] Ht]. rewrite Ht. specialize (Hpos _ _ _ Ht).
        eexists _, _, _. split; [reflexivity | lia]. }
    destruct Hc as (i1 & o1 & k1 & -> & Hstep). simpl.
    destruct (IH (fun c' Hc' => Hcs c' (list_elem_of_further _ _ _ Hc')) i1 o1 k1)
      as (i' & o' & k' & -> & Hrest).
    exists i', o', k'. split; [reflexivity | simpl length; lia].
Qed.

Lemma ai_loop_total l :
  (forall n c, n ∈ l -> c ∈ children n -> is_leaf c = true -> leaf_ready c) ->
  forall P st, children_first P l -> tracked (internal_tracker st) P ->
  positive (internal_tracker st) ->
  exists st', for_each step l st = Done st' /\
              tracked (internal_tracker st') (rev l ++ P) /\
              positive (internal_tracker st').
Proof.
  induction l as [|n l IH]; intros Hleaves P st Hcf Ht Hpos.
  - exists st. repeat split; assumption.
  - rewrite for_each_cons. destruct Hcf as [Hc Hcf].
    assert (Hnext : exists st1, step st n = Done st1 /\
              tracked (internal_tracker st1) (n :: P) /\ positive (internal_tracker st1)).
    { unfold ai_step. destruct (is_leaf n) eqn:Hleaf.
      - exists st. split; [reflexivity|]. split; [|exact Hpos].
        intros n' Hn' Hint. apply elem_of_cons in Hn' as [->|Hn']; [congruence|].
        apply Ht; assumption.
      - destruct (count_children_total (internal_tracker st) (children n) Hpos)
          with (in_c := 0%N) (out_c := 0%N) (calls := rand_calls st)
          as (in_c & out_c & calls & Hrun & Hgrow).
        { intros c Hcn. destruct (is_leaf c) eqn:Hcl.
          - apply (Hleaves n c); [left | exact Hcn | exact Hcl].
          - apply Ht; [apply Hc, Hcn | exact Hcl]. }
        rewrite Hrun. simpl.
        assert (Hnz : (in_c + out_c)%N <> 0%N).
        { unfold is_leaf in Hleaf. destruct (children n); [discriminate|].
          simpl length in Hgrow. lia. }
        apply N.eqb_neq in Hnz as Hz. rewrite Hz.
        eexists. split; [reflexivity|]. simpl. split.
        + intros n' Hn' Hint. rewrite lookup_insert.
          destruct (decide (identifier n = identifier n')); [eexists; reflexivity|].
          apply elem_of_cons in Hn' as [->|Hn']; [congruence|]. apply Ht; assumption.
        + intros id i o. rewrite lookup_insert.
          destruct (decide (identifier n = id)); [intros [= <- <-]; lia | apply Hpos]. }
    destruct Hnext as (st1 & -> & Ht1 & Hpos1). simpl.
    destruct (IH (fun n' c Hn' => Hleaves n' c (list_elem_of_further _ _ _ Hn'))
                 _ _ Hcf Ht1 Hpos1) as (st' & -> & Ht' & Hpos').
    exists st'. split; [reflexivity|]. rewrite <- app_assoc. split; assumption.
Qed.
End CountedLeaves.

(** A leaf of the traversal makes [leaf_count] positive. *)
Lemma permutation_counts_leaf assignments bfs c :
  c ∈ bfs -> is_leaf c = true -> fst (permutation_counts assignments bfs) <> 0%N.
Proof.
  unfold permutation_counts.
  set (f := fun '(leaf_count, sample_count) b => _).
  assert (Hmono : forall l acc, (fst acc <= fst (fold_left f l acc))%N).
  { induction l as [|b l IH]; intros acc; simpl; [lia|].
    etransitivity; [|apply IH]. destruct acc as [lc sc]. simpl.
    destruct (is_leaf b); [|simpl; lia].
    destruct (assignments !! identifier b) as [v|]; [destruct (gt_half v)|]; simpl; lia. }
  generalize (0%N, 0%N). induction bfs as [|b bfs IH]; intros acc Hc Hleaf; [inversion Hc|].
  simpl. apply elem_of_cons in Hc as [<-|Hc]; [|apply IH; assumption].
  specialize (Hmono bfs (f acc c)). destruct acc as [lc sc]. simpl in *.
  rewrite Hleaf in *.
  destruct (assignments !! identifier c) as [v|]; [destruct (gt_half v)|]; simpl in *; lia.
Qed.

(** The run completes in permutation mode, and in non-permute mode when
    every leaf of the traversal has an assignment; every internal node of
    the traversal then has counts that add up to at least 1. *)
Lemma association_index_run_total T assignments permute rand subroot :
  (permute = false ->
   forall l, l ∈ ai_traversal T subroot -> is_leaf l = true ->
             is_Some (assignments !! identifier l)) ->
  exists st,
    association_index_run T assignments permute rand subroot = Done st /\
    forall n, n ∈ ai_traversal T subroot -> is_leaf n = false ->
      exists in_c out_c,
        internal_tracker st !! identifier n = Some (in_c, out_c) /\
        (1 <= in_c + out_c)%N.
Proof.
  intros Hcov. unfold association_index_run.
  set (counts := if permute then permutation_counts assignments (ai_traversal T subroot)
                 else (0%N, 0%N)).
  assert (Hcounts : permute = true ->
            counts = permutation_counts assignments (ai_traversal T subroot)).
  { intros ->. reflexivity. }
  destruct counts as [leaf_count sample_count].
  destruct (ai_loop_total assignments permute rand leaf_count sample_count
              (rev (ai_traversal T subroot)))
    with (P := @nil Node) (st := mkAiState F32.zero ∅ 0) as (st & Hrun & Ht & Hpos).
  - intros n c Hn Hc Hleaf.
    assert (Hin : c ∈ ai_traversal T subroot).
    { destruct (children_first_closed _ _ _ _ (ai_traversal_children_first T subroot) Hn Hc)
        as [H|H]; [|inversion H].
      apply list_elem_of_In, in_rev, list_elem_of_In in H. exact H. }
    unfold leaf_ready. destruct permute.
    + pose proof (permutation_counts_leaf assignments _ _ Hin Hleaf) as Hnz.
      rewrite <- (Hcounts eq_refl) in Hnz. exact Hnz.
    + apply Hcov; [reflexivity | exact Hin | exact Hleaf].
  - apply ai_traversal_children_first.
  - apply tracked_empty.
  - apply positive_empty.
  - exists st. split; [exact Hrun|].
    intros n Hn Hint. rewrite rev_involutive, app_nil_r in Ht.
    destruct (Ht n Hn Hint) as [[in_c out_c] Hl]. exists in_c, out_c.
    split; [exact Hl | exact (Hpos _ _ _ Hl)].
Qed.

Lemma association_index_run_unmapped T assignments rand subroot n :
  n ∈ ai_traversal T subroot -> is_leaf n = false ->
  (forall c, c ∈ children n -> is_leaf c = true /\ assignments !! identifier c = None) ->
  association_index_run T assignments false rand subroot = Abort DivisionByZero.
Proof.
  intros Hn Hint Hcs. unfold association_index_run.
  apply (ai_loop_unmapped assignments rand 0 0 n (rev (ai_traversal T subroot)) Hint Hcs)
    with (P := @nil Node).
  - apply list_elem_of_In, in_rev. rewrite rev_involutive. apply list_elem_of_In, Hn.
  - apply ai_traversal_children_first.
  - apply tracked_empty.
Qed.

(** ** Root-ward paths *)

Definition rsearch_first (id : string) : list Node -> option (list Node) :=
  fix first (cs : list Node) : option (list Node) :=
    match cs with
    | [] => None
    | c :: cs' =>
      match rsearch_in id c with
      | Some p => Some p
      | None => first cs'
      end
    end.

Lemma rsearch_in_unfold id n :
  rsearch_in id n =
  if String.eqb (identifier n) id then Some [n]
  else match rsearch_first id (children n) with
       | Some p => Some (p ++ [n])
       | None => None
       end.
Proof. destruct n; reflexivity. Qed.

(** A path that is found starts at a node with the identifier looked
    for, ends at the node searched from and stays inside its expansion. *)
Lemma rsearch_in_some id n :
  forall p, rsearch_in id n = Some p ->
  (exists d p', p = d :: p' /\ identifier d = id) /\
  last p = Some n /\
  (forall a, a ∈ p -> a ∈ depth_first_expansion n).
Proof.
  induction n as [nid muts clades cs IH] using Node_ind. intros p.
  rewrite rsearch_in_unfold. simpl identifier. simpl children.
  destruct (String.eqb nid id) eqn:Heq.
  - intros [= <-]. apply String.eqb_eq in Heq. split; [eexists _, _; split; [reflexivity|exact Heq]|].
    split; [reflexivity|]. intros a Ha. apply list_elem_of_singleton in Ha as ->.
    apply depth_first_expansion_self.
  - destruct (rsearch_first id cs) as [q|] eqn:Hfirst; [|discriminate]. intros [= <-].
    assert (Hq : exists c, c ∈ cs /\ rsearch_in id c = Some q).
    { clear IH. induction cs as [|c cs IHcs]; simpl in Hfirst; [discriminate|].
      destruct (rsearch_in id c) eqn:Hc.
      - injection Hfirst as ->. exists c. split; [left | exact Hc].
      - destruct (IHcs Hfirst) as (c' & Hc' & Hq). exists c'. split; [right; exact Hc' | exact Hq]. }
    destruct Hq as (c & Hc & Hq). rewrite Forall_forall in IH.
    destruct (IH c Hc q Hq) as ((d & p' & -> & Hd) & _ & Hsub).
    split; [exists d, (p' ++ [mkNode nid muts clades cs]); split; [reflexivity | exact Hd]|].
    split; [apply last_snoc|].
    intros a Ha. apply elem_of_app in Ha as [Ha|Ha].
    + eapply depth_first_expansion_trans; [|apply depth_first_expansion_self].
      eapply depth_first_expansion_trans; [apply depth_first_expansion_child, Hc|].
      apply Hsub, Ha.
    + apply list_elem_of_singleton in Ha as ->. apply depth_first_expansion_self.
Qed.

(** A path is found exactly when the expansion has the identifier. *)
Lemma rsearch_in_none id n :
  rsearch_in id n = None ->
  forall d, d ∈ depth_first_expansion n -> identifier d <> id.
Proof.
  induction n as [nid muts clades cs IH] using Node_ind.
  rewrite rsearch_in_unfold. simpl identifier. simpl children.
  destruct (String.eqb nid id) eqn:Heq; [discriminate|].
  destruct (rsearch_first id cs) as [q|] eqn:Hfirst; [discriminate|]. intros _ d Hd.
  rewrite depth_first_expansion_unfold in Hd. apply elem_of_cons in Hd as [->|Hd].
  - simpl. apply String.eqb_neq, Heq.
  - simpl in Hd. apply elem_of_flat_map in Hd as (c & Hc & Hd).
    rewrite Forall_forall in IH. apply (IH c Hc); [|exact Hd].
    clear IH Hd. induction cs as [|c' cs IHcs]; [inversion Hc|]. simpl in Hfirst.
    destruct (rsearch_in id c') eqn:Hc'; [discriminate|].
    apply elem_of_cons in Hc as [->|Hc]; [exact Hc' | apply IHcs; assumption].
Qed.

(** Whether some node of the tree has the identifier. *)
Definition names_node (T : Tree) (s : string) : bool :=
  bool_decide (s ∈ map identifier (depth_first_expansion (root T))).

Lemma rsearch_unknown T s : names_node T s = false -> rsearch T s = [].
Proof.
  unfold names_node, rsearch. intros Hs. apply bool_decide_eq_false in Hs.
  destruct (rsearch_in s (root T)) as [p|] eqn:Hp; [|reflexivity].
  exfalso. apply Hs. destruct (rsearch_in_some _ _ _ Hp) as ((d & p' & -> & Hd) & _ & Hsub).
  apply elem_of_map. exists d. split; [symmetry; exact Hd | apply Hsub; left].
Qed.

Lemma rsearch_known T s :
  names_node T s = true ->
  exists d p, rsearch T s = d :: p /\ identifier d = s /\
              forall a, a ∈ d :: p -> a ∈ depth_first_expansion (root T).
Proof.
  unfold names_node, rsearch. intros Hs. apply bool_decide_eq_true in Hs.
  apply elem_of_map in Hs as (d & Hd & Hin).
  destruct (rsearch_in s (root T)) as [p|] eqn:Hp.
  - destruct (rsearch_in_some _ _ _ Hp) as ((d' & p' & -> & Hd') & _ & Hsub).
    exists d', p'. repeat split; assumption.
  - exfalso. apply (rsearch_in_none _ _ Hp d Hin). symmetry. exact Hd.
Qed.

(** ** Assignments that hold every node *)

Definition covers (assignments : gmap string spec_float) (T : Tree) : Prop :=
  forall n, n ∈ depth_first_expansion (root T) -> is_Some (assignments !! identifier n).

Lemma assign_loop_covers T sample_set l :
  forall A0 A', for_each (assign_step T sample_set) l A0 = Done A' ->
  (forall n, n ∈ l -> is_Some (A' !! identifier n)) /\
  (forall id, is_Some (A0 !! id) -> is_Some (A' !! id)).
Proof.
  induction l as [|n l IH]; intros A0 A' Hrun.
  - injection Hrun as <-. split; [intros n Hn; inversion Hn | trivial].
  - rewrite for_each_cons in Hrun.
    destruct (assign_step T sample_set A0 n) as [A1|f] eqn:Hstep; simpl in Hrun;
      [|discriminate].
    unfold assign_step in Hstep.
    destruct (node_assignment T sample_set n) as [c|f]; simpl in Hstep; [|discriminate].
    injection Hstep as <-. destruct (IH _ _ Hrun) as [Hl Hkeep]. split.
    + intros n' Hn'. apply elem_of_cons in Hn' as [->|Hn']; [|apply Hl, Hn'].
      apply Hkeep. rewrite lookup_insert_eq. eexists; reflexivity.
    + intros id Hid. apply Hkeep. rewrite lookup_insert.
      destruct (decide (identifier n = id)); [eexists; reflexivity | exact Hid].
Qed.

Lemma get_assignments_covers T sample_set assignments :
  get_assignments T sample_set = Done assignments -> covers assignments T.
Proof.
  intros Hrun n Hn. destruct (assign_loop_covers _ _ _ _ _ Hrun) as [Hall _].
  apply Hall, Hn.
Qed.

Lemma association_index_covered T assignments permute rand subroot :
  covers assignments T ->
  exists ai, get_association_index T assignments permute rand subroot = Done ai.
Proof.
  intros Hcov. unfold get_association_index.
  destruct (association_index_run_total T assignments permute rand subroot)
    as (st & -> & _).
  - intros _ l Hl _. apply Hcov. eapply ai_traversal_elem, Hl.
  - eexists. reflexivity.
Qed.

(** ** The totals of the association index *)

(** C10. In non-permute mode, when every leaf of the traversed subtree
    has an assignment, as is the case for every map [get_assignments]
    returns, [get_association_index] completes, and the counts recorded
    for every internal node of the traversal add up to at least 1, so no
    division is by zero; when the traversal has an internal node whose
    children are all leaves without an assignment, the total of that
    node is zero and the run ends in the division by zero. *)
Theorem internal_totals_positive T assignments rand subroot :
  ((forall l, l ∈ ai_traversal T subroot -> is_leaf l = true ->
              is_Some (assignments !! identifier l)) ->
   exists st,
     association_index_run T assignments false rand subroot = Done st /\
     get_association_index T assignments false rand subroot = Done (total_ai st) /\
     forall n, n ∈ ai_traversal T subroot -> is_leaf n = false ->
       exists in_c out_c,
         internal_tracker st !! identifier n = Some (in_c, out_c) /\
         (1 <= in_c + out_c)%N) /\
  (forall sample_set,
     get_assignments T sample_set = Done assignments ->
     forall l, l ∈ ai_traversal T subroot -> is_leaf l = true ->
               is_Some (assignments !! identifier l)) /\
  (forall n, n ∈ ai_traversal T subroot -> is_leaf n = false ->
     (forall c, c ∈ children n ->
                is_leaf c = true /\ assignments !! identifier c = None) ->
     get_association_index T assignments false rand subroot = Abort DivisionByZero).
Proof.
  split; [|split].
  - intros Hcov.
    destruct (association_index_run_total T assignments false rand subroot (fun _ => Hcov))
      as (st & Hrun & Hpos).
    exists st. split; [exact Hrun|]. split; [|exact Hpos].
    unfold get_association_index. rewrite Hrun. reflexivity.
  - intros sample_set Hrun l Hl _.
    apply (get_assignments_covers _ _ _ Hrun). eapply ai_traversal_elem, Hl.
  - intros n Hn Hint Hcs. unfold get_association_index.
    rewrite (association_index_run_unmapped _ _ _ _ _ Hn Hint Hcs). reflexivity.
Qed.

Lemma internal_totals_positive_witness :
  (exists st,
     association_index_run scenario_tree scenario_only_B false (fun _ => 0%N) None = Done st /\
     get_association_index scenario_tree scenario_only_B false (fun _ => 0%N) None
     = Done (total_ai st) /\
     forall n, n ∈ ai_traversal scenario_tree None -> is_leaf n = false ->
       exists in_c out_c,
         internal_tracker st !! identifier n = Some (in_c, out_c) /\
         (1 <= in_c + out_c)%N) /\
  get_association_index zero_branch_tree ∅ false (fun _ => 0%N) None
  = Abort DivisionByZero.
Proof.
  split.
  - apply (proj1 (internal_totals_positive scenario_tree scenario_only_B (fun _ => 0%N) None)).
    apply (proj1 (proj2 (internal_totals_positive scenario_tree scenario_only_B
                           (fun _ => 0%N) None)) {["B"]}).
    vm_compute. reflexivity.
  - apply (proj2 (proj2 (internal_totals_positive zero_branch_tree ∅ (fun _ => 0%N) None))
             (root zero_branch_tree)).
    + vm_compute. left.
    + reflexivity.
    + apply (proj1 (Forall_forall
               (fun c => is_leaf c = true /\ (∅ : gmap string spec_float) !! identifier c = None)
               (children (root zero_branch_tree)))).
      vm_compute. repeat constructor.
Defined.

Lemma for_each_total {A S : Type} (body : S -> A -> outcome S) (l : list A) :
  (forall s a, a ∈ l -> exists s', body s a = Done s') ->
  forall s, exists s', for_each body l s = Done s'.
Proof.
  induction l as [|a l IH]; intros Hbody s; [eexists; reflexivity|].
  rewrite for_each_cons. destruct (Hbody s a (list_elem_of_here _ _)) as [s1 ->]. simpl.
  apply IH. intros s0 a0 Ha0. apply Hbody. right. exact Ha0.
Qed.

Lemma rsearch_head T s d p : rsearch T s = d :: p -> identifier d = s.
Proof.
  unfold rsearch. destruct (rsearch_in s (root T)) as [q|] eqn:Hq; [|discriminate].
  intros ->. destruct (rsearch_in_some _ _ _ Hq) as ((d' & p' & [= <- <-] & Hd) & _).
  exact Hd.
Qed.

(** The introduction node of a row is on the root-ward path of its
    sample. *)
Lemma introduction_node_on_path T assignments theta row :
  row_of_walk T assignments theta row ->
  row_introduction_node row ∈ map identifier (rsearch T (row_sample row)).
Proof.
  intros (pre & a & post & Hpath & Hst). destruct Hst as [_ _ _ _ _ _ Hn].
  cbn [last_encountered walk_start] in Hn. rewrite Hn. apply elem_of_map.
  destruct post as [|b post].
  - exists a. split; [reflexivity|]. rewrite Hpath. apply elem_of_app. right. left.
  - destruct (last pre) as [l|] eqn:Hlast.
    + exists l. split; [reflexivity|]. rewrite Hpath. apply elem_of_app. left.
      apply last_Some_elem_of, Hlast.
    + apply last_None in Hlast. subst pre. exists a.
      split; [symmetry; eapply rsearch_head, Hpath | rewrite Hpath; left].
Qed.

(** ** The walk completes *)

Section WalkerTotal.
Variable T : Tree.
Variable region_count : nat.
Variable region_cons : gmap string (list spec_float).
Variable region_ins : gmap string (list string).
Variable add_info : bool.
Variable theta : spec_float.
Variable region : string.
Variable assignments : gmap string spec_float.
Hypothesis assigned_everywhere : covers assignments T.
Hypothesis theta_positive : F32.ltb F32.zero theta = true.

Local Abbreviation emit := (emit_row T region_count region_cons region_ins add_info region assignments).
Local Abbreviation walk := (introduction_walk T region_count region_cons region_ins add_info theta region assignments).
Local Abbreviation sample_walk :=
  (walk_sample T region_count region_cons region_ins add_info theta region assignments).
Local Abbreviation region_walk :=
  (walk_region T region_count region_cons region_ins add_info theta region assignments).

Lemma additional_info_total a last c :
  exists r, additional_info T assignments a last c = Done r.
Proof.
  unfold additional_info.
  destruct (match recorded_mc c !! identifier a with
            | Some mc => (mc, recorded_mc c)
            | None => _
            end) as [mc mcs].
  destruct (recorded_ai c !! identifier a); [eexists; reflexivity|].
  destruct (association_index_covered T assignments false (fun _ => 0%N) last
              assigned_everywhere) as [ai ->].
  eexists; reflexivity.
Qed.

Lemma emit_row_total s a a_is_root le st anc c :
  exists rc, emit s a a_is_root le st anc c = Done rc.
Proof.
  unfold emit_row.
  destruct (origins_columns _ _ _ _ _) as [origins origins_cons].
  destruct (clades_and_path _) as [intro_clades intro_mut_path].
  destruct add_info; simpl; [|eexists; reflexivity].
  destruct (additional_info_total a (last_node st) c) as [r ->]. eexists; reflexivity.
Qed.

(** On a path of assigned nodes the walk stops, at the root at the
    latest, and pushes one row. *)
Lemma introduction_walk_total s path :
  path <> [] -> (forall a, a ∈ path -> a ∈ depth_first_expansion (root T)) ->
  forall st c, exists row c', walk s path st c = Done ([row], c').
Proof.
  induction path as [|a rest IH]; intros Hne Hin st c; [congruence|].
  simpl. destruct rest as [|b rest].
  - simpl. rewrite theta_positive.
    destruct (emit_row_total s a true (identifier a) st F32.zero c) as [[row c'] ->].
    exists row, c'. reflexivity.
  - destruct (assigned_everywhere a (Hin a (list_elem_of_here _ _))) as [v ->]. simpl.
    destruct (F32.ltb v theta).
    + destruct (emit_row_total s a false (last_encountered st) st v c) as [[row c'] ->].
      exists row, c'. reflexivity.
    + apply IH; [discriminate|]. intros a' Ha'. apply Hin. right. exact Ha'.
Qed.

Lemma walk_sample_total s c :
  exists rows c',
    sample_walk s c = Done (rows, c') /\
    length rows = (if names_node T s then 1 else 0)%nat.
Proof.
  unfold walk_sample. destruct (names_node T s) eqn:Hs.
  - destruct (rsearch_known _ _ Hs) as (d & p & Hpath & _ & Hin). rewrite Hpath.
    destruct (introduction_walk_total s (d :: p) ltac:(discriminate) Hin
                (mkWalk s None F32.one 0%N) c) as (row & c' & ->).
    exists [row], c'. split; reflexivity.
  - rewrite (rsearch_unknown _ _ Hs). exists [], c. split; reflexivity.
Qed.

(** The number of times [s] is in a list of samples. *)
Definition occurrences (s : string) (samples : list string) : nat :=
  length (filter (fun x => x = s) samples).

Definition rows_of_sample (s : string) (rows : list introduction_row)
  : list introduction_row :=
  filter (fun r => row_sample r = s) rows.

Lemma walk_region_total samples :
  exists rows,
    region_walk samples = Done rows /\
    (forall s, length (rows_of_sample s rows)
               = if names_node T s then occurrences s samples else 0%nat) /\
    Forall (fun r => row_introduction_node r
                     ∈ map identifier (rsearch T (row_sample r))) rows.
Proof.
  unfold walk_region.
  assert (Hgen : forall acc c, exists rows c',
    for_each (fun '(rows, c) s => rc ← sample_walk s c; Done (rows ++ fst rc, snd rc))
             samples (acc, c) = Done (acc ++ rows, c') /\
    (forall s, length (rows_of_sample s rows)
               = if names_node T s then occurrences s samples else 0%nat) /\
    Forall (fun r => row_introduction_node r
                     ∈ map identifier (rsearch T (row_sample r))) rows).
  { induction samples as [|s0 l IH]; intros acc c.
    - exists [], c. rewrite app_nil_r. split; [reflexivity|]. split; [|constructor].
      intros s. destruct (names_node T s); reflexivity.
    - rewrite for_each_cons.
      destruct (walk_sample_total s0 c) as (rs & c1 & Hwalk & Hlen). rewrite Hwalk. simpl.
      destruct (IH (acc ++ rs) c1) as (rows & c' & -> & Hcount & Hon).
      exists (rs ++ rows), c'. rewrite app_assoc. split; [reflexivity|].
      pose proof (walk_sample_done _ _ _ _ _ _ _ _ _ _ _ _ Hwalk) as Hrs.
      split.
      + intros s. unfold rows_of_sample, occurrences in *.
        rewrite filter_app, length_app, Hcount, filter_cons.
        assert (Hhere : length (filter (fun r => row_sample r = s) rs)
                        = if decide (s0 = s) then length rs else 0%nat).
        { destruct (decide (s0 = s)) as [->|Hne].
          - f_equal. apply filter_all. eapply Forall_impl; [exact Hrs|].
            intros r [Hr _]. exact Hr.
          - rewrite filter_none; [reflexivity|]. eapply Forall_impl; [exact Hrs|].
            intros r [Hr _]. congruence. }
        rewrite Hhere, Hlen.
        destruct (decide (s0 = s)) as [->|Hne]; destruct (names_node T s); simpl; lia.
      + apply Forall_app. split; [|exact Hon].
        eapply Forall_impl; [exact Hrs|]. intros r [_ Hr].
        eapply introduction_node_on_path, Hr. }
  destruct (Hgen [] (mkCaches ∅ ∅)) as (rows & c' & -> & Hcount & Hon).
  exists rows. simpl. repeat split; assumption.
Qed.
End WalkerTotal.

(** ** One row for every sample of the tree *)

Lemma samples_of_entry sample_regions ms :
  NoDup (map fst sample_regions) -> ms ∈ sample_regions ->
  samples_of sample_regions (fst ms) = snd ms.
Proof.
  unfold samples_of. induction sample_regions as [|ms0 l IH]; intros Hnd Hms;
    [inversion Hms|].
  simpl in *. apply NoDup_cons in Hnd as [Hnotin Hnd].
  apply elem_of_cons in Hms as [->|Hms].
  - rewrite String.eqb_refl. reflexivity.
  - destruct (String.eqb (fst ms0) (fst ms)) eqn:Heq; [|apply IH; assumption].
    exfalso. apply String.eqb_eq in Heq. apply Hnotin. rewrite Heq.
    apply elem_of_map. exists ms. split; [reflexivity | exact Hms].
Qed.

Lemma bind_done {A B : Type} (a : A) (k : A -> outcome B) : (Done a ≫= k) = k a.
Proof. reflexivity. Qed.

Lemma region_statistics_total T assignments rand :
  covers assignments T -> region_statistics T assignments rand = Done tt.
Proof.
  intros Hcov. unfold region_statistics.
  destruct (association_index_covered T assignments false (fun _ => 0%N) None Hcov)
    as [ai ->]. rewrite bind_done.
  generalize (seq 0 100). intros l. induction l as [|i l IH]; [reflexivity|].
  rewrite for_each_cons.
  destruct (association_index_covered T assignments true (rand i) None Hcov) as [ai' ->].
  rewrite !bind_done. exact IH.
Qed.

Lemma assign_regions_total T add_info rand sample_regions :
  (forall ms, ms ∈ sample_regions ->
     exists assignments, get_assignments T (list_to_set (snd ms)) = Done assignments) ->
  forall acc, exists news,
    for_each (assign_region T add_info rand) sample_regions acc = Done (acc ++ news).
Proof.
  induction sample_regions as [|ms l IH]; intros Hall acc.
  - exists []. rewrite app_nil_r. reflexivity.
  - rewrite for_each_cons.
    destruct (Hall ms (list_elem_of_here _ _)) as [A HA].
    assert (Hstat : (if add_info then region_statistics T A rand else Done tt) = Done tt).
    { destruct add_info; [|reflexivity].
      apply region_statistics_total, (get_assignments_covers _ _ _ HA). }
    assert (Hstep : assign_region T add_info rand acc ms = Done (acc ++ [(fst ms, A)])).
    { unfold assign_region. rewrite HA, bind_done, Hstat, bind_done. reflexivity. }
    rewrite Hstep, bind_done.
    destruct (IH (fun ms' Hms' => Hall ms' (list_elem_of_further _ _ _ Hms'))
                 (acc ++ [(fst ms, A)])) as [news ->].
    exists ((fst ms, A) :: news). rewrite <- app_assoc. reflexivity.
Qed.

Lemma walk_regions_total
    (walk : string * gmap string spec_float -> outcome (list introduction_row))
    (region_assignments : list (string * gmap string spec_float)) rowss :
  Forall2 (fun ra rows => walk ra = Done rows) region_assignments rowss ->
  forall outstrs,
  for_each (fun outstrs ra => rows ← walk ra; Done (outstrs ++ map Row rows))
           region_assignments outstrs = Done (outstrs ++ map Row (concat rowss)).
Proof.
  induction 1 as [|ra rows l rowss Hra _ IH]; intros outstrs.
  - simpl. rewrite app_nil_r. reflexivity.
  - rewrite for_each_cons, Hra. simpl. rewrite IH, map_app, app_assoc. reflexivity.
Qed.

(** The maps of the first loop hold every node of the tree. *)
Lemma assigned_regions_cover T (sample_regions : list (string * list string))
    (region_assignments : list (string * gmap string spec_float)) :
  Forall2 (fun ms ra =>
             fst ra = fst ms /\
             get_assignments T (list_to_set (snd ms)) = Done (snd ra))
          sample_regions region_assignments ->
  Forall (fun ra => covers (snd ra) T) region_assignments.
Proof.
  induction 1 as [|ms ra l ras [_ HA] _ IH]; constructor; [|exact IH].
  eapply get_assignments_covers, HA.
Qed.

(** A region of the table is one of the maps. *)
Lemma assignments_of_elem (region_assignments : list (string * gmap string spec_float)) r :
  r ∈ map fst region_assignments ->
  exists ra, ra ∈ region_assignments /\ assignments_of region_assignments r = snd ra.
Proof.
  unfold assignments_of. intros Hr. apply elem_of_map in Hr as (ra & -> & Hra).
  destruct (find (fun ra0 => String.eqb (fst ra0) (fst ra)) region_assignments)
    as [ra'|] eqn:Hfind.
  - exists ra'. split; [|reflexivity].
    apply find_some in Hfind as [Hin _]. apply list_elem_of_In, Hin.
  - exfalso.
    pose proof (find_none _ _ Hfind ra (proj1 (list_elem_of_In _ _) Hra)) as Hno.
    simpl in Hno. rewrite String.eqb_refl in Hno. discriminate.
Qed.

(** On maps that hold every node, the table is written: no cell looks
    up a node that a map lacks. *)
Lemma record_clade_regions_returns T
    (region_assignments : list (string * gmap string spec_float)) :
  Forall (fun ra => covers (snd ra) T) region_assignments ->
  exists lines, record_clade_regions T region_assignments = Done lines.
Proof.
  intros Hcov. unfold record_clade_regions. apply for_each_total.
  intros lines n Hn. apply for_each_total. intros lines' ca _.
  destruct (0 <? String.length ca)%nat; [|eexists; reflexivity].
  assert (Hcells : exists cells,
            clade_cells region_assignments (map fst region_assignments) n = Done cells).
  { unfold clade_cells. apply for_each_total. intros cells r Hr.
    destruct (assignments_of_elem region_assignments r Hr) as (ra & Hra & ->).
    rewrite Forall_forall in Hcov. destruct (Hcov ra Hra n Hn) as [v ->].
    eexists; reflexivity. }
  destruct Hcells as [cells ->]. eexists; reflexivity.
Qed.

Lemma clade_table_returns T (clade_output : string)
    (region_assignments : list (string * gmap string spec_float)) :
  Forall (fun ra => covers (snd ra) T) region_assignments ->
  exists table,
    (if (0 <? String.length clade_output)%nat
     then record_clade_regions T region_assignments
     else Done []) = Done table.
Proof.
  intros Hcov. destruct (0 <? String.length clade_output)%nat; [|eexists; reflexivity].
  apply record_clade_regions_returns, Hcov.
Qed.

(** When the threshold is above 0 and the assignment of every region is
    produced, the walk completes for every region: the rows of a region
    hold one row for every occurrence of an identifier that names a node
    of the tree and none for the other identifiers. *)
Lemma rows_of_assigned_regions T sample_regions add_info clade_output rand theta :
  NoDup (map fst sample_regions) ->
  F32.ltb F32.zero theta = true ->
  (forall ms, ms ∈ sample_regions ->
     exists assignments, get_assignments T (list_to_set (snd ms)) = Done assignments) ->
  exists rowss,
    find_introductions T sample_regions add_info clade_output rand theta
    = Done (Header (header_line (length sample_regions =? 1)%nat add_info)
            :: map Row (concat rowss)) /\
    Forall2
      (fun ms rows =>
         (forall s, length (rows_of_sample s rows)
                    = if names_node T s then occurrences s (snd ms) else 0%nat) /\
         Forall (fun r => row_introduction_node r
                          ∈ map identifier (rsearch T (row_sample r))) rows)
      sample_regions rowss.
Proof.
  intros Hnd Htheta Hassign. unfold find_introductions.
  destruct (assign_regions_total T add_info rand sample_regions Hassign []) as [ras Hras].
  rewrite Hras. simpl.
  destruct (assign_regions_done _ _ _ _ _ _ Hras) as (news & Heq & Hnews).
  simpl in Heq. subst news.
  destruct (clade_table_returns T clade_output ras (assigned_regions_cover _ _ _ Hnews))
    as [table ->].
  rewrite bind_done.
  destruct (origin_index ras theta) as [region_cons region_ins].
  pose proof (Forall2_length _ _ _ Hnews) as Hlen. rewrite <- Hlen.
  set (walk := fun ra : string * gmap string spec_float =>
         walk_region T (length sample_regions) region_cons region_ins add_info theta
                     (fst ra) (snd ra) (samples_of sample_regions (fst ra))).
  assert (Hrows : exists rowss,
    Forall2 (fun ra rows => walk ra = Done rows) ras rowss /\
    Forall2
      (fun ms rows =>
         (forall s, length (rows_of_sample s rows)
                    = if names_node T s then occurrences s (snd ms) else 0%nat) /\
         Forall (fun r => row_introduction_node r
                          ∈ map identifier (rsearch T (row_sample r))) rows)
      sample_regions rowss).
  { assert (Hin : forall ms, ms ∈ sample_regions ->
                  samples_of sample_regions (fst ms) = snd ms).
    { intros ms. apply samples_of_entry, Hnd. }
    clear Hras Hlen Hassign Hnd. subst walk.
    generalize dependent (samples_of sample_regions). intros lookup Hin.
    generalize (length sample_regions). intros region_count.
    induction Hnews as [|ms ra l ras [Hfst HA] _ IH].
    - exists []. split; constructor.
    - destruct IH as (rowss & Hw & Hq).
      { intros ms' Hms'. apply Hin. right. exact Hms'. }
      destruct (walk_region_total T region_count region_cons region_ins add_info theta
                  (fst ra) (snd ra) (get_assignments_covers _ _ _ HA) Htheta (lookup (fst ra)))
        as (rows & Hrun & Hcount & Hon).
      exists (rows :: rowss). split; [constructor; assumption|].
      constructor; [|exact Hq]. rewrite Hfst, (Hin ms (list_elem_of_here _ _)) in Hcount.
      split; assumption. }
  destruct Hrows as (rowss & Hwalk & Hprops). exists rowss. split; [|exact Hprops].
  rewrite (walk_regions_total walk ras rowss Hwalk). reflexivity.
Qed.


(** ** Rounding to binary32

    Bounds by powers of two that the rounding of [SpecFloat] keeps: a
    value [m * 2^e] is at most [2^k] when [m <= 2^(k-e)], at least [2^k]
    when [2^(k-e) <= m]. *)
Section Rounding.
Local Open Scope Z_scope.

Lemma digits2_pos_bounds p :
  2 ^ (Z.pos (digits2_pos p) - 1) <= Z.pos p < 2 ^ Z.pos (digits2_pos p).
Proof.
  induction p as [p IH|p IH|]; simpl digits2_pos.
  - rewrite Pos2Z.inj_succ, (Pos2Z.inj_xI p).
    replace (Z.succ (Z.pos (digits2_pos p)) - 1) with (Z.succ (Z.pos (digits2_pos p) - 1)) by lia.
    rewrite !Z.pow_succ_r by lia.
    generalize dependent (2 ^ (Z.pos (digits2_pos p) - 1)).
    generalize (2 ^ Z.pos (digits2_pos p)). intros; lia.
  - rewrite Pos2Z.inj_succ, (Pos2Z.inj_xO p).
    replace (Z.succ (Z.pos (digits2_pos p)) - 1) with (Z.succ (Z.pos (digits2_pos p) - 1)) by lia.
    rewrite !Z.pow_succ_r by lia.
    generalize dependent (2 ^ (Z.pos (digits2_pos p) - 1)).
    generalize (2 ^ Z.pos (digits2_pos p)). intros; lia.
  - simpl. lia.
Qed.

(** [z] has at most [k] binary digits when it is below [2^k]. *)
Lemma Zdigits2_le z k : 0 <= k -> 0 <= z < 2 ^ k -> Zdigits2 z <= k.
Proof.
  intros Hk [Hz Hlt]. destruct z as [|p|p]; simpl; [lia| |lia].
  destruct (digits2_pos_bounds p) as [Hlo _].
  destruct (Z_le_gt_dec (Z.pos (digits2_pos p)) k) as [|Hgt]; [assumption|].
  exfalso. assert (2 ^ k <= 2 ^ (Z.pos (digits2_pos p) - 1)) by (apply Z.pow_le_mono_r; lia).
  lia.
Qed.

Lemma Zdigits2_gt z k : 0 <= k -> 2 ^ k <= z -> k < Zdigits2 z.
Proof.
  intros Hk Hz. assert (0 < 2 ^ k) by (apply Z.pow_pos_nonneg; lia).
  destruct z as [|p|p]; simpl; [lia| |lia].
  destruct (digits2_pos_bounds p) as [_ Hhi].
  destruct (Z_lt_le_dec k (Z.pos (digits2_pos p))) as [|Hle]; [assumption|].
  exfalso. assert (2 ^ Z.pos (digits2_pos p) <= 2 ^ k) by (apply Z.pow_le_mono_r; lia).
  lia.
Qed.

Definition no_remainder (mrs : shr_record) : Prop := shr_r mrs = false /\ shr_s mrs = false.

(** [mrs'] is [mrs] shifted right by [k] bits. *)
Definition shifted (k : Z) (mrs mrs' : shr_record) : Prop :=
  0 <= shr_m mrs' /\ shr_m mrs' = shr_m mrs / 2 ^ k /\
  (no_remainder mrs -> (2 ^ k | shr_m mrs) -> no_remainder mrs').

Lemma shifted_refl mrs : 0 <= shr_m mrs -> shifted 0 mrs mrs.
Proof.
  intros H. split; [exact H|]. split; [rewrite Z.div_1_r; reflexivity | tauto].
Qed.

Lemma shifted_trans a b x y z :
  0 <= a -> 0 <= b -> shifted a x y -> shifted b y z -> shifted (a + b) x z.
Proof.
  intros Ha Hb (Hy & Hxy & Hexy) (Hz & Hyz & Heyz).
  assert (0 < 2 ^ a) by (apply Z.pow_pos_nonneg; lia).
  assert (0 < 2 ^ b) by (apply Z.pow_pos_nonneg; lia).
  split; [exact Hz|]. split.
  - rewrite Hyz, Hxy, Z.pow_add_r, Z.div_div by lia. reflexivity.
  - intros Hx [t Ht]. rewrite Z.pow_add_r in Ht by lia. apply Heyz.
    + apply Hexy; [exact Hx|]. exists (t * 2 ^ b). lia.
    + rewrite Hxy, Ht. exists t. replace (t * (2 ^ a * 2 ^ b)) with (t * 2 ^ b * 2 ^ a) by lia.
      apply Z.div_mul. lia.
Qed.

Lemma shr_1_shifted mrs : 0 <= shr_m mrs -> shifted 1 mrs (shr_1 mrs).
Proof.
  destruct mrs as [m r s]. simpl. intros Hm.
  destruct m as [|[p|p|]|p]; try lia; unfold shifted, no_remainder; simpl shr_m; simpl shr_r;
    simpl shr_s; change (2 ^ 1) with 2.
  - split; [lia|]. split; [reflexivity|]. intros [-> ->] _. split; reflexivity.
  - split; [lia|]. split; [rewrite (Pos2Z.inj_xI p); apply (Z.div_unique _ _ _ 1); lia|].
    intros [-> ->] [t Ht]. lia.
  - split; [lia|]. split; [rewrite (Pos2Z.inj_xO p); apply (Z.div_unique _ _ _ 0); lia|].
    intros [-> ->] _. split; reflexivity.
  - split; [lia|]. split; [reflexivity|]. intros [-> ->] [t Ht]. lia.
Qed.

Lemma iter_pos_shifted p :
  forall mrs, 0 <= shr_m mrs -> shifted (Z.pos p) mrs (SpecFloat.iter_pos shr_1 p mrs).
Proof.
  induction p as [p IH|p IH|]; intros mrs Hm; simpl SpecFloat.iter_pos.
  - pose proof (shr_1_shifted mrs Hm) as H1.
    pose proof (IH _ (proj1 H1)) as H2. pose proof (IH _ (proj1 H2)) as H3.
    replace (Z.pos p~1) with (1 + Z.pos p + Z.pos p) by lia.
    eapply shifted_trans; [lia | lia | | exact H3].
    eapply shifted_trans; [lia | lia | exact H1 | exact H2].
  - pose proof (IH _ Hm) as H1. pose proof (IH _ (proj1 H1)) as H2.
    replace (Z.pos p~0) with (Z.pos p + Z.pos p) by lia.
    eapply shifted_trans; [lia | lia | exact H1 | exact H2].
  - apply shr_1_shifted, Hm.
Qed.

Lemma shr_shifted mrs e n :
  0 <= shr_m mrs ->
  snd (shr mrs e n) = e + Z.max 0 n /\ shifted (Z.max 0 n) mrs (fst (shr mrs e n)).
Proof.
  intros Hm. destruct n as [|p|p]; simpl shr; simpl fst; simpl snd.
  - split; [lia | apply shifted_refl, Hm].
  - rewrite Z.max_r by lia. split; [reflexivity | apply iter_pos_shifted, Hm].
  - rewrite Z.max_l by lia. split; [lia | apply shifted_refl, Hm].
Qed.

Lemma fexp32 z : fexp 24 128 z = Z.max (z - 24) (-149).
Proof. reflexivity. Qed.

Lemma shr_record_of_loc_m m l : shr_m (shr_record_of_loc m l) = m.
Proof. destruct l as [|[]]; reflexivity. Qed.

Lemma no_remainder_loc mrs : no_remainder mrs -> loc_of_shr_record mrs = loc_Exact.
Proof. destruct mrs as [m r s]. intros [Hr Hs]. simpl in *. subst. reflexivity. Qed.

Lemma shr_fexp_spec m e l :
  0 <= m ->
  let n := Z.max 0 (fexp 24 128 (Zdigits2 m + e) - e) in
  snd (shr_fexp 24 128 m e l) = e + n /\
  0 <= shr_m (fst (shr_fexp 24 128 m e l)) /\
  shr_m (fst (shr_fexp 24 128 m e l)) = m / 2 ^ n /\
  (l = loc_Exact -> (2 ^ n | m) ->
   loc_of_shr_record (fst (shr_fexp 24 128 m e l)) = loc_Exact).
Proof.
  intros Hm n. unfold shr_fexp.
  destruct (shr_shifted (shr_record_of_loc m l) e (fexp 24 128 (Zdigits2 m + e) - e))
    as (He & Hpos & Hdiv & Hex); [rewrite shr_record_of_loc_m; exact Hm|].
  rewrite shr_record_of_loc_m in Hdiv, Hex. fold n in He, Hdiv, Hex.
  split; [exact He|]. split; [exact Hpos|]. split; [exact Hdiv|].
  intros -> Hd. apply no_remainder_loc, Hex; [split; reflexivity | exact Hd].
Qed.

Lemma pow2_pos k : 0 <= k -> 0 < 2 ^ k.
Proof. intros. apply Z.pow_pos_nonneg; lia. Qed.

Lemma pow2_split a b : 0 <= a -> 0 <= b -> 2 ^ (a + b) = 2 ^ a * 2 ^ b.
Proof. intros. apply Z.pow_add_r; assumption. Qed.

(** One shift of the rounding keeps an upper bound [2^k] on the value
    [m * 2^e], and a mantissa that reaches the bound is exact. *)
Lemma stage_le k m e l :
  -126 <= k -> e <= k -> 0 <= m <= 2 ^ (k - e) ->
  (m = 2 ^ (k - e) -> l = loc_Exact) ->
  let mrs := fst (shr_fexp 24 128 m e l) in
  let e' := snd (shr_fexp 24 128 m e l) in
  e <= e' <= Z.max e (k - 23) /\ 0 <= shr_m mrs <= 2 ^ (k - e') /\
  (shr_m mrs = 2 ^ (k - e') -> loc_of_shr_record mrs = loc_Exact).
Proof.
  intros Hk He [Hm0 Hm] Hl mrs e'.
  destruct (shr_fexp_spec m e l Hm0) as (He' & Hpos & Hdiv & Hex).
  fold mrs in Hpos, Hdiv, Hex. fold e' in He'.
  set (n := Z.max 0 (fexp 24 128 (Zdigits2 m + e) - e)) in *.
  assert (Hd : Zdigits2 m <= k - e + 1).
  { apply Zdigits2_le; [lia|]. split; [exact Hm0|].
    rewrite pow2_split by lia. change (2 ^ 1) with 2. pose proof (pow2_pos (k - e)). lia. }
  assert (Hn : 0 <= n /\ e + n <= Z.max e (k - 23)).
  { unfold n. rewrite fexp32. lia. }
  assert (Hsplit : 2 ^ (k - e) = 2 ^ (k - e') * 2 ^ n).
  { rewrite <- pow2_split by lia. f_equal. lia. }
  pose proof (pow2_pos n (proj1 Hn)) as Hpn.
  split; [lia|]. split; [split; [exact Hpos|]|].
  - rewrite Hdiv. rewrite <- (Z.div_mul (2 ^ (k - e')) (2 ^ n)) by lia.
    apply Z.div_le_mono; lia.
  - intros Htop. rewrite Hdiv in Htop.
    pose proof (Z.mul_div_le m (2 ^ n) Hpn) as Hle. rewrite Htop in Hle.
    assert (Heq : m = 2 ^ (k - e)) by lia.
    apply Hex; [apply Hl, Heq|]. exists (2 ^ (k - e')). lia.
Qed.

(** One shift of the rounding keeps a lower bound [2^k] on the value. *)
Lemma stage_ge k m e l :
  -149 <= k -> 1 <= m -> 2 ^ (k - e) <= m ->
  let mrs := fst (shr_fexp 24 128 m e l) in
  let e' := snd (shr_fexp 24 128 m e l) in
  1 <= shr_m mrs /\ 2 ^ (k - e') <= shr_m mrs.
Proof.
  intros Hk Hm1 Hm mrs e'.
  destruct (shr_fexp_spec m e l ltac:(lia)) as (He' & Hpos & Hdiv & _).
  fold mrs in Hpos, Hdiv. fold e' in He'.
  set (n := Z.max 0 (fexp 24 128 (Zdigits2 m + e) - e)) in *.
  assert (Hn : 0 <= n) by (unfold n; lia).
  pose proof (pow2_pos n Hn) as Hpn.
  destruct (Z.eq_dec n 0) as [Hn0|Hn0].
  { rewrite Hn0 in *. rewrite Z.div_1_r in Hdiv. rewrite Hdiv.
    replace e' with e by lia. split; assumption. }
  destruct (Z_le_gt_dec 0 (k - e')) as [Hke|Hke].
  - assert (Hsplit : 2 ^ (k - e) = 2 ^ (k - e') * 2 ^ n).
    { rewrite <- pow2_split by lia. f_equal. lia. }
    assert (Hlow : 2 ^ (k - e') <= shr_m mrs).
    { rewrite Hdiv. apply Z.div_le_lower_bound; lia. }
    pose proof (pow2_pos (k - e') Hke). lia.
  - rewrite (Z.pow_neg_r 2 (k - e')) by lia.
    assert (Hm' : 2 ^ 23 <= shr_m mrs); [|lia].
    rewrite Hdiv. destruct m as [|p|p]; try lia.
    pose proof (digits2_pos_bounds p) as [Hlo _].
    assert (Hnd : n = Z.pos (digits2_pos p) - 24).
    { unfold n in *. rewrite fexp32 in *. simpl Zdigits2 in *. lia. }
    apply Z.div_le_lower_bound; [lia|].
    assert (Hpow : 2 ^ n * 2 ^ 23 = 2 ^ (Z.pos (digits2_pos p) - 1)).
    { rewrite <- pow2_split by lia. f_equal. lia. }
    lia.
Qed.

Lemma round_nearest_even_bounds m l :
  m <= round_nearest_even m l <= m + 1 /\
  (l = loc_Exact -> round_nearest_even m l = m).
Proof. destruct l as [|[]]; simpl; destruct (Z.even m); split; (lia || tauto || discriminate). Qed.

(** Rounding keeps an upper bound [2^k] on the value, and does not
    overflow below [2^128]. *)
Lemma round_aux_le k sx m e l :
  -126 <= k <= 127 -> e <= k - 23 -> 0 <= m <= 2 ^ (k - e) ->
  (m = 2 ^ (k - e) -> l = loc_Exact) ->
  match binary_round_aux 24 128 sx m e l with
  | S754_zero s => s = sx
  | S754_finite s mf ef => s = sx /\ Z.pos mf <= 2 ^ (k - ef) /\ ef <= k - 23
  | _ => False
  end.
Proof.
  intros Hk He Hm Hl. unfold binary_round_aux.
  pose proof (stage_le k m e l ltac:(lia) ltac:(lia) Hm Hl) as H1.
  destruct (shr_fexp 24 128 m e l) as [mrs1 e1]. simpl in H1.
  destruct H1 as (He1 & Hm1 & Hex1).
  pose proof (round_nearest_even_bounds (shr_m mrs1) (loc_of_shr_record mrs1)) as [Hr Hre].
  set (m2 := round_nearest_even (shr_m mrs1) (loc_of_shr_record mrs1)) in *.
  assert (Hm2 : 0 <= m2 <= 2 ^ (k - e1)).
  { destruct (Z.eq_dec (shr_m mrs1) (2 ^ (k - e1))) as [Heq|Hne].
    - rewrite (Hre (Hex1 Heq)). lia.
    - lia. }
  pose proof (stage_le k m2 e1 loc_Exact ltac:(lia) ltac:(lia) Hm2 (fun _ => eq_refl)) as H2.
  destruct (shr_fexp 24 128 m2 e1 loc_Exact) as [mrs2 e2]. simpl in H2.
  destruct H2 as (He2 & Hmf & _).
  destruct (shr_m mrs2) as [|p|p]; [reflexivity| |lia].
  assert (Hfin : (e2 <=? 128 - 24) = true) by (apply Z.leb_le; lia).
  rewrite Hfin. repeat split; lia.
Qed.

(** Rounding keeps a lower bound [2^k] on the value, and does not
    underflow to zero above [2^-149]. *)
Lemma round_aux_ge k sx m e l :
  -149 <= k -> 1 <= m -> 2 ^ (k - e) <= m ->
  match binary_round_aux 24 128 sx m e l with
  | S754_finite s mf ef => s = sx /\ 2 ^ (k - ef) <= Z.pos mf
  | S754_infinity s => s = sx
  | _ => False
  end.
Proof.
  intros Hk Hm1 Hm. unfold binary_round_aux.
  pose proof (stage_ge k m e l Hk Hm1 Hm) as H1.
  destruct (shr_fexp 24 128 m e l) as [mrs1 e1]. simpl in H1. destruct H1 as [H1 H1'].
  pose proof (round_nearest_even_bounds (shr_m mrs1) (loc_of_shr_record mrs1)) as [Hr _].
  set (m2 := round_nearest_even (shr_m mrs1) (loc_of_shr_record mrs1)) in *.
  pose proof (stage_ge k m2 e1 loc_Exact Hk ltac:(lia) ltac:(lia)) as H2.
  destruct (shr_fexp 24 128 m2 e1 loc_Exact) as [mrs2 e2]. simpl in H2. destruct H2 as [H2 H2'].
  destruct (shr_m mrs2) as [|p|p]; [lia| |lia].
  destruct (e2 <=? 128 - 24); [split; [reflexivity | exact H2'] | reflexivity].
Qed.

Lemma iter_xO mx d : Z.pos (Pos.iter xO mx d) = Z.pos mx * 2 ^ Z.pos d.
Proof.
  induction d as [|d IH] using Pos.peano_ind.
  - simpl. rewrite (Pos2Z.inj_xO mx). change (2 ^ 1) with 2. lia.
  - rewrite Pos.iter_succ, (Pos2Z.inj_xO (Pos.iter xO mx d)), IH, Pos2Z.inj_succ,
      Z.pow_succ_r by lia. lia.
Qed.

Lemma shl_align_spec mx ex ex' :
  snd (shl_align mx ex ex') = Z.min ex ex' /\
  Z.pos (fst (shl_align mx ex ex')) = Z.pos mx * 2 ^ (ex - Z.min ex ex').
Proof.
  unfold shl_align. destruct (ex' - ex) as [|d|d] eqn:Hd; simpl fst; simpl snd.
  - replace (Z.min ex ex') with ex by lia. rewrite Z.sub_diag. simpl. lia.
  - replace (Z.min ex ex') with ex by lia. rewrite Z.sub_diag. simpl. lia.
  - replace (Z.min ex ex') with ex' by lia. rewrite iter_xO.
    replace (ex - ex') with (Z.pos d) by lia. split; reflexivity.
Qed.

(** The same for [binary_round], which first aligns the mantissa. *)
Lemma binary_round_ge k sx mx ex :
  -149 <= k -> 2 ^ (k - ex) <= Z.pos mx ->
  match binary_round 24 128 sx mx ex with
  | S754_finite s mf ef => s = sx /\ 2 ^ (k - ef) <= Z.pos mf
  | S754_infinity s => s = sx
  | _ => False
  end.
Proof.
  intros Hk Hm. unfold binary_round.
  pose proof (shl_align_spec mx ex (fexp 24 128 (Z.pos (digits2_pos mx) + ex))) as [He Hmz].
  destruct (shl_align mx ex _) as [mz ez]. cbn [fst snd] in He, Hmz.
  apply round_aux_ge; [exact Hk | lia |].
  rewrite Hmz, He. set (e' := Z.min ex _). assert (He' : e' <= ex) by (unfold e'; lia).
  pose proof (pow2_pos (ex - e') ltac:(lia)) as Hp.
  destruct (Z_le_gt_dec 0 (k - ex)) as [Hke|Hke].
  - replace (k - e') with ((k - ex) + (ex - e')) by lia. rewrite pow2_split by lia.
    apply Z.mul_le_mono_nonneg_r; lia.
  - destruct (Z_le_gt_dec 0 (k - e')) as [Hke'|Hke']; [|rewrite Z.pow_neg_r by lia; lia].
    assert (2 ^ (k - e') <= 2 ^ (ex - e')) by (apply Z.pow_le_mono_r; lia). nia.
Qed.

Lemma binary_round_le k sx mx ex :
  -126 <= k <= 127 -> ex <= k -> Z.pos mx <= 2 ^ (k - ex) ->
  match binary_round 24 128 sx mx ex with
  | S754_zero s => s = sx
  | S754_finite s mf ef => s = sx /\ Z.pos mf <= 2 ^ (k - ef) /\ ef <= k - 23
  | _ => False
  end.
Proof.
  intros Hk He Hm. unfold binary_round.
  pose proof (shl_align_spec mx ex (fexp 24 128 (Z.pos (digits2_pos mx) + ex))) as [Hez Hmz].
  assert (Hd : Z.pos (digits2_pos mx) <= k - ex + 1).
  { apply (Zdigits2_le (Z.pos mx)); [lia|]. split; [lia|].
    rewrite pow2_split by lia. change (2 ^ 1) with 2. lia. }
  rewrite fexp32 in Hez, Hmz.
  destruct (shl_align mx ex _) as [mz ez]. cbn [fst snd] in Hez, Hmz.
  assert (Hsplit : 2 ^ (k - ez) = 2 ^ (k - ex) * 2 ^ (ex - ez)).
  { rewrite <- pow2_split by lia. f_equal. lia. }
  pose proof (pow2_pos (ex - ez) ltac:(lia)) as Hp.
  apply round_aux_le; [exact Hk | lia | | intros _; reflexivity].
  rewrite Hsplit, Hmz. replace (Z.min ex (Z.max (Z.pos (digits2_pos mx) + ex - 24) (-149))) with ez by lia.
  split; [lia|]. apply Z.mul_le_mono_nonneg_r; lia.
Qed.

Lemma div_core_unfold m1 e1 m2 e2 :
  let e := Z.min (fexp 24 128 (Z.pos (digits2_pos m1) + e1 - (Z.pos (digits2_pos m2) + e2)))
                 (e1 - e2) in
  let s := e1 - e2 - e in
  0 <= s /\
  SFdiv_core_binary 24 128 (Z.pos m1) e1 (Z.pos m2) e2
  = (Z.pos m1 * 2 ^ s / Z.pos m2, e, new_location (Z.pos m2) (Z.pos m1 * 2 ^ s mod Z.pos m2)).
Proof.
  intros e s. assert (Hs : 0 <= s) by (unfold s, e; lia). split; [exact Hs|].
  unfold SFdiv_core_binary. simpl Zdigits2. fold e. fold s.
  assert (Hm : match s with
               | 0 => Z.pos m1
               | Z.pos _ => Z.shiftl (Z.pos m1) s
               | Z.neg _ => 0
               end = Z.pos m1 * 2 ^ s).
  { destruct s as [|p|p] eqn:Hp; [simpl; lia | apply Z.shiftl_mul_pow2; lia | lia]. }
  rewrite Hm. unfold Z.div, Z.modulo.
  destruct (Z.div_eucl (Z.pos m1 * 2 ^ s) (Z.pos m2)) as [q r]. reflexivity.
Qed.

Lemma new_location_zero m : new_location m 0 = loc_Exact.
Proof. unfold new_location. destruct (Z.even m); reflexivity. Qed.

(** The quotient of a numerator at most [2^a] by a denominator at least
    [2^b] is at most [2^(a-b)]. *)
Lemma div_core_le a b m1 e1 m2 e2 :
  -126 <= a - b -> e1 <= a -> Z.pos m1 <= 2 ^ (a - e1) -> 2 ^ (b - e2) <= Z.pos m2 ->
  let '(q, e, l) := SFdiv_core_binary 24 128 (Z.pos m1) e1 (Z.pos m2) e2 in
  e <= a - b - 23 /\ 0 <= q <= 2 ^ (a - b - e) /\ (q = 2 ^ (a - b - e) -> l = loc_Exact).
Proof.
  intros Hab He1 Hm1 Hm2.
  destruct (div_core_unfold m1 e1 m2 e2) as [Hs ->].
  set (d1 := Z.pos (digits2_pos m1)). set (d2 := Z.pos (digits2_pos m2)).
  set (e := Z.min (fexp 24 128 (d1 + e1 - (d2 + e2))) (e1 - e2)) in *.
  set (s := e1 - e2 - e) in *.
  assert (Hd1 : d1 <= a - e1 + 1).
  { apply (Zdigits2_le (Z.pos m1)); [lia|]. split; [lia|].
    rewrite pow2_split by lia. change (2 ^ 1) with 2. lia. }
  assert (Hd2 : b - e2 < d2).
  { destruct (Z_le_gt_dec 0 (b - e2)) as [H|H]; [|unfold d2; lia].
    apply (Zdigits2_gt (Z.pos m2)); assumption. }
  assert (He : e <= a - b - 23) by (unfold e; rewrite fexp32; lia).
  set (K := a - b - e) in *.
  pose proof (pow2_pos s Hs) as Hps. pose proof (pow2_pos K ltac:(lia)) as HpK.
  assert (Hnum : Z.pos m1 * 2 ^ s <= 2 ^ K * Z.pos m2).
  { assert (H1 : Z.pos m1 * 2 ^ s <= 2 ^ (a - e1 + s)).
    { rewrite pow2_split by lia. apply Z.mul_le_mono_nonneg_r; lia. }
    assert (H2 : 2 ^ (a - e1 + s) <= 2 ^ K * Z.pos m2); [|lia].
    destruct (Z_le_gt_dec 0 (b - e2)) as [H|H].
    - replace (a - e1 + s) with (K + (b - e2)) by lia. rewrite pow2_split by lia.
      apply Z.mul_le_mono_nonneg_l; lia.
    - assert (2 ^ (a - e1 + s) <= 2 ^ K) by (apply Z.pow_le_mono_r; lia). nia. }
  pose proof (Z.div_mod (Z.pos m1 * 2 ^ s) (Z.pos m2) ltac:(lia)) as Hdm.
  pose proof (Z.mod_pos_bound (Z.pos m1 * 2 ^ s) (Z.pos m2) ltac:(lia)) as Hr.
  pose proof (Z.div_pos (Z.pos m1 * 2 ^ s) (Z.pos m2) ltac:(lia) ltac:(lia)) as Hq.
  set (q := Z.pos m1 * 2 ^ s / Z.pos m2) in *.
  set (r := Z.pos m1 * 2 ^ s mod Z.pos m2) in *.
  split; [exact He|]. split; [split; [exact Hq | nia]|].
  intros Hqeq. assert (Hr0 : r = 0) by nia. rewrite Hr0. apply new_location_zero.
Qed.

(** The quotient of a numerator at least [2^a] by a denominator at most
    [2^b] is at least [2^(a-b)], and is not zero. *)
Lemma div_core_ge a b m1 e1 m2 e2 :
  -149 <= a - b -> 2 ^ (a - e1) <= Z.pos m1 -> e2 <= b -> Z.pos m2 <= 2 ^ (b - e2) ->
  let '(q, e, l) := SFdiv_core_binary 24 128 (Z.pos m1) e1 (Z.pos m2) e2 in
  1 <= q /\ 2 ^ (a - b - e) <= q.
Proof.
  intros Hab Hm1 He2 Hm2.
  destruct (div_core_unfold m1 e1 m2 e2) as [Hs ->].
  set (d1 := Z.pos (digits2_pos m1)). set (d2 := Z.pos (digits2_pos m2)).
  set (e := Z.min (fexp 24 128 (d1 + e1 - (d2 + e2))) (e1 - e2)) in *.
  set (s := e1 - e2 - e) in *.
  pose proof (pow2_pos s Hs) as Hps.
  destruct (Z_le_gt_dec 0 (a - b - e)) as [HK|HK].
  - pose proof (pow2_pos (a - b - e) HK) as HpK.
    assert (Hlow : 2 ^ (a - b - e) <= Z.pos m1 * 2 ^ s / Z.pos m2); [|lia].
    apply Z.div_le_lower_bound; [lia|].
    assert (H1 : Z.pos m2 * 2 ^ (a - b - e) <= 2 ^ (a - e1 + s)).
    { replace (a - e1 + s) with ((b - e2) + (a - b - e)) by lia. rewrite pow2_split by lia.
      apply Z.mul_le_mono_nonneg_r; lia. }
    assert (H2 : 2 ^ (a - e1 + s) <= Z.pos m1 * 2 ^ s); [|lia].
    destruct (Z_le_gt_dec 0 (a - e1)) as [H|H].
    + rewrite pow2_split by lia. apply Z.mul_le_mono_nonneg_r; lia.
    + assert (2 ^ (a - e1 + s) <= 2 ^ s); [|nia].
      destruct (Z_le_gt_dec 0 (a - e1 + s)); [apply Z.pow_le_mono_r; lia|].
      rewrite Z.pow_neg_r by lia. lia.
  - rewrite (Z.pow_neg_r 2 (a - b - e)) by lia.
    assert (Hq : 1 <= Z.pos m1 * 2 ^ s / Z.pos m2); [|lia].
    apply Z.div_le_lower_bound; [lia|].
    pose proof (digits2_pos_bounds m1) as [Hlo1 _]. fold d1 in Hlo1.
    pose proof (digits2_pos_bounds m2) as [_ Hhi2]. fold d2 in Hhi2.
    assert (Hs' : d2 - d1 + 24 <= s) by (unfold s, e in *; rewrite fexp32 in *; lia).
    destruct (Z_le_gt_dec 0 (d2 - d1 + 24)) as [Ht|Ht].
    + assert (H1 : 2 ^ (d2 + 23) <= Z.pos m1 * 2 ^ s).
      { replace (d2 + 23) with ((d1 - 1) + (d2 - d1 + 24)) by lia.
        rewrite pow2_split by (unfold d1; lia).
        assert (2 ^ (d2 - d1 + 24) <= 2 ^ s) by (apply Z.pow_le_mono_r; lia).
        pose proof (pow2_pos (d2 - d1 + 24) Ht). nia. }
      assert (2 ^ d2 <= 2 ^ (d2 + 23)) by (apply Z.pow_le_mono_r; unfold d2; lia).
      lia.
    + assert (2 ^ d2 <= 2 ^ (d1 - 1)) by (apply Z.pow_le_mono_r; unfold d2; lia).
      nia.
Qed.

End Rounding.

(** ** The balance of rule 4 lies between 0 and 1 *)
Section Balance.
Local Open Scope Z_scope.

(** [x] is NaN or has the sign [sx]. *)
Definition signed (sx : bool) (x : spec_float) : Prop :=
  match x with
  | S754_zero s | S754_infinity s | S754_finite s _ _ => s = sx
  | S754_nan => True
  end.

Lemma binary_round_aux_signed sx m e l : signed sx (binary_round_aux 24 128 sx m e l).
Proof.
  unfold binary_round_aux.
  destruct (shr_fexp 24 128 m e l) as [mrs1 e1].
  destruct (shr_fexp 24 128 _ e1 loc_Exact) as [mrs2 e2].
  destruct (shr_m mrs2); simpl; [reflexivity| |trivial].
  destruct (e2 <=? 128 - 24); reflexivity.
Qed.

Lemma of_size_t_signed n : signed false (F32.of_size_t n).
Proof.
  unfold F32.of_size_t, F32.of_Z, binary_normalize.
  destruct (Z.of_N n) as [|p|p] eqn:Hn; [reflexivity| |lia].
  unfold binary_round. destruct (shl_align p 0 _) as [mz ez].
  apply binary_round_aux_signed.
Qed.

Lemma div_signed x y : signed false x -> signed false y -> signed false (F32.div x y).
Proof.
  unfold F32.div, SFdiv.
  destruct x as [sx|sx| |sx mx ex], y as [sy|sy| |sy my ey]; simpl; intros Hx Hy;
    subst; try exact I; try reflexivity.
  destruct (SFdiv_core_binary F32.prec F32.emax (Z.pos mx) ex (Z.pos my) ey) as [[mz ez] lz].
  apply binary_round_aux_signed.
Qed.

(** [1 + r] is at least 1 for a finite [r >= 0]. *)
Lemma add_one_ge m e :
  match F32.add F32.one (S754_finite false m e) with
  | S754_finite s mf ef => s = false /\ 2 ^ (0 - ef) <= Z.pos mf
  | S754_infinity s => s = false
  | _ => False
  end.
Proof.
  unfold F32.add, F32.one, SFadd, cond_Zopp.
  set (ez := Z.min (-23) e).
  pose proof (shl_align_spec 8388608 (-23) ez) as [_ Ha].
  pose proof (shl_align_spec m e ez) as [_ Hb].
  set (a := fst (shl_align 8388608 (-23) ez)) in *.
  set (b := fst (shl_align m e ez)) in *.
  change (Z.pos a + Z.pos b) with (Z.pos (a + b)). unfold binary_normalize.
  apply (binary_round_ge 0); [lia|].
  rewrite Pos2Z.inj_add, Ha. replace (Z.min (-23) ez) with ez by (unfold ez; lia).
  change 8388608 with (2 ^ 23). rewrite <- pow2_split by (unfold ez; lia).
  replace (23 + (-23 - ez)) with (0 - ez) by lia. lia.
Qed.

(** [1 / x] is at most 1 for a finite [x >= 1]. *)
Lemma div_one_le m e :
  2 ^ (0 - e) <= Z.pos m ->
  match F32.div F32.one (S754_finite false m e) with
  | S754_zero s => s = false
  | S754_finite s mf ef => s = false /\ Z.pos mf <= 2 ^ (0 - ef) /\ ef <= -23
  | _ => False
  end.
Proof.
  intros Hm. unfold F32.div, F32.one, SFdiv.
  assert (Hone : Z.pos 8388608 <= 2 ^ (0 - -23)) by (vm_compute; discriminate).
  pose proof (div_core_le 0 0 8388608 (-23) m e ltac:(lia) ltac:(lia) Hone Hm) as Hcore.
  change F32.prec with 24. change F32.emax with 128.
  destruct (SFdiv_core_binary 24 128 (Z.pos 8388608) (-23) (Z.pos m) e) as [[q e'] l].
  destruct Hcore as (He' & Hq & Hl).
  simpl xorb. apply (round_aux_le 0); [lia | lia | exact Hq | exact Hl].
Qed.

Definition in_unit_interval (c : spec_float) : Prop :=
  F32.leb F32.zero c = true /\ F32.leb c F32.one = true.

Lemma small_finite_in_unit_interval mf ef :
  Z.pos mf <= 2 ^ (0 - ef) -> ef <= -23 -> in_unit_interval (S754_finite false mf ef).
Proof.
  intros Hm He. split; [reflexivity|].
  unfold F32.leb, F32.one, SFleb, SFcompare.
  destruct (Z.compare_spec ef (-23)) as [->|Hlt|Hgt]; [|reflexivity|lia].
  rewrite Pos.compare_cont_spec. simpl Pos.switch_Eq.
  change (2 ^ (0 - -23)) with (Z.pos 8388608) in Hm.
  destruct (Pos.compare_spec mf 8388608); [reflexivity | reflexivity | lia].
Qed.

(** [1 / (1 + r)] is NaN or in [0, 1] for every [r] that is not
    negative. *)
Lemma balance_in_unit_interval r :
  signed false r ->
  F32.isnan (F32.div F32.one (F32.add F32.one r)) = false ->
  in_unit_interval (F32.div F32.one (F32.add F32.one r)).
Proof.
  destruct r as [s|s| |s m e]; simpl signed.
  - intros -> _. split; reflexivity.
  - intros -> _. split; reflexivity.
  - intros _ H. discriminate H.
  - intros ->. pose proof (add_one_ge m e) as Hx.
    destruct (F32.add F32.one (S754_finite false m e)) as [sx|sx| |sx mx ex];
      try contradiction.
    + subst sx. intros _. split; reflexivity.
    + destruct Hx as [-> Hx]. pose proof (div_one_le mx ex Hx) as Hc.
      destruct (F32.div F32.one (S754_finite false mx ex)) as [sc|sc| |sc mc ec];
        try contradiction.
      * subst sc. intros _. split; reflexivity.
      * destruct Hc as (-> & Hmc & Hec). intros _.
        apply small_finite_in_unit_interval; assumption.
Qed.

Lemma rule4_confidence_in_unit_interval mi mo ils ols c :
  rule4_confidence mi mo ils ols = Done c -> in_unit_interval c.
Proof.
  intros Hc. pose proof (rule4_confidence_done _ _ _ _ _ Hc) as Hnan.
  unfold rule4_confidence in Hc.
  destruct (F32.isnan (F32.div F32.one _)); [discriminate|]. injection Hc as <-.
  apply balance_in_unit_interval; [|exact Hnan].
  apply div_signed; apply div_signed; apply of_size_t_signed.
Qed.

Lemma node_assignment_in_unit_interval T sample_set n c :
  node_assignment T sample_set n = Done c -> in_unit_interval c.
Proof.
  unfold node_assignment.
  repeat match goal with
  | |- context [if ?b then _ else _] => destruct b
  | |- context [let '(_, _) := ?p in _] => destruct p
  end; try (intros [= <-]; split; reflexivity).
  apply rule4_confidence_in_unit_interval.
Qed.
End Balance.

(** ** Assignments on a tree with distinct identifiers *)

Definition distinct_identifiers (T : Tree) : Prop :=
  NoDup (map identifier (depth_first_expansion (root T))).

Lemma find_by_identifier (l : list Node) n :
  NoDup (map identifier l) -> n ∈ l ->
  find (fun d => String.eqb (identifier d) (identifier n)) l = Some n.
Proof.
  induction l as [|d l IH]; intros Hnd Hn; [inversion Hn|].
  simpl in *. apply NoDup_cons in Hnd as [Hd Hnd].
  apply elem_of_cons in Hn as [->|Hn]; [rewrite String.eqb_refl; reflexivity|].
  destruct (String.eqb (identifier d) (identifier n)) eqn:Heq; [|apply IH; assumption].
  exfalso. apply String.eqb_eq in Heq. apply Hd. rewrite Heq.
  apply elem_of_map. exists n. split; [reflexivity | exact Hn].
Qed.

Lemma get_node_self T n :
  distinct_identifiers T -> n ∈ depth_first_expansion (root T) ->
  get_node T (identifier n) = Some n.
Proof. intros Hnd Hn. apply find_by_identifier; assumption. Qed.

(** With distinct identifiers the loop leaves for every node the value
    computed for it. *)
Lemma assign_loop_values T sample_set l :
  NoDup (map identifier l) ->
  forall A0 A', for_each (assign_step T sample_set) l A0 = Done A' ->
  (forall n, n ∈ l ->
     exists c, node_assignment T sample_set n = Done c /\ A' !! identifier n = Some c) /\
  (forall id, id ∉ map identifier l -> A' !! id = A0 !! id).
Proof.
  induction l as [|n l IH]; intros Hnd A0 A' Hrun.
  - injection Hrun as <-. split; [intros n Hn; inversion Hn | reflexivity].
  - rewrite for_each_cons in Hrun. simpl in Hnd. apply NoDup_cons in Hnd as [Hn Hnd].
    destruct (assign_step T sample_set A0 n) as [A1|f] eqn:Hstep; simpl in Hrun;
      [|discriminate].
    unfold assign_step in Hstep.
    destruct (node_assignment T sample_set n) as [c|f] eqn:Hc; simpl in Hstep;
      [|discriminate].
    injection Hstep as <-. destruct (IH Hnd _ _ Hrun) as [Hl Hframe]. split.
    + intros n' Hn'. apply elem_of_cons in Hn' as [->|Hn']; [|apply Hl, Hn'].
      exists c. split; [exact Hc|]. rewrite (Hframe _ Hn). apply lookup_insert_eq.
    + intros id Hid. simpl in Hid. apply not_elem_of_cons in Hid as [Hne Hid].
      rewrite (Hframe _ Hid). apply lookup_insert_ne. congruence.
Qed.

Lemma get_assignments_values T sample_set assignments n :
  distinct_identifiers T ->
  get_assignments T sample_set = Done assignments ->
  n ∈ depth_first_expansion (root T) ->
  exists c, node_assignment T sample_set n = Done c /\
            assignments !! identifier n = Some c.
Proof.
  intros Hnd Hrun Hn.
  destruct (assign_loop_values T sample_set _ Hnd _ _ Hrun) as [Hall _]. apply Hall, Hn.
Qed.

(** Every node has a leaf under it. *)
Lemma leaves_of_inhabited n : exists l, l ∈ leaves_of n.
Proof.
  induction n as [id muts clades cs IH] using Node_ind.
  destruct cs as [|c cs].
  - exists (mkNode id muts clades []). apply list_elem_of_filter. split; [exact I | left].
  - apply Forall_cons in IH as [(l & Hl) _]. exists l.
    apply list_elem_of_filter in Hl as [Hleaf Hl]. apply list_elem_of_filter.
    split; [exact Hleaf|]. eapply depth_first_expansion_trans; [|exact Hl].
    apply depth_first_expansion_child. left.
Qed.

Lemma in_sample_set_true sample_set id :
  in_sample_set sample_set id = true <-> id ∈ sample_set.
Proof. unfold in_sample_set. apply bool_decide_eq_true. Qed.

Lemma in_sample_set_false sample_set id :
  in_sample_set sample_set id = false <-> id ∉ sample_set.
Proof. unfold in_sample_set. apply bool_decide_eq_false. Qed.

Lemma size_list_to_set_zero (l : list string) :
  N.of_nat (size (list_to_set l : gset string)) = 0%N <-> l = [].
Proof.
  split.
  - intros Hsize. assert (H0 : size (list_to_set l : gset string) = 0%nat) by lia.
    apply size_empty_iff in H0. destruct l as [|x l]; [reflexivity|].
    exfalso. apply (not_elem_of_empty (C := gset string) x). rewrite <- H0.
    apply elem_of_list_to_set. left.
  - intros ->. reflexivity.
Qed.

(** Rules 1 to 3 at a node of a tree with distinct identifiers. *)
Lemma node_assignment_rules T sample_set n c :
  distinct_identifiers T -> n ∈ depth_first_expansion (root T) ->
  node_assignment T sample_set n = Done c ->
  (is_leaf n = true ->
   c = if in_sample_set sample_set (identifier n) then F32.one else F32.zero) /\
  (is_leaf n = false ->
   (forall l, l ∈ leaves_of n -> identifier l ∈ sample_set) -> c = F32.one) /\
  (is_leaf n = false ->
   (forall l, l ∈ leaves_of n -> identifier l ∉ sample_set) -> c = F32.zero).
Proof.
  intros Hnd Hn. unfold node_assignment, get_leaves_ids.
  rewrite (get_node_self _ _ Hnd Hn).
  destruct (is_leaf n) eqn:Hleaf.
  - intros Hc. split; [|split; discriminate]. intros _.
    destruct (in_sample_set sample_set (identifier n)); congruence.
  - set (ids := map identifier (leaves_of n)).
    set (ins := filter (fun l => in_sample_set sample_set l = true) ids).
    set (outs := filter (fun l => in_sample_set sample_set l = false) ids).
    intros Hc. split; [discriminate|]. split; intros _ Hall.
    + assert (Houts : outs = []).
      { apply filter_none, Forall_forall. intros id Hid.
        apply elem_of_map in Hid as (l & -> & Hl).
        rewrite (proj2 (in_sample_set_true _ _) (Hall l Hl)). discriminate. }
      rewrite (proj2 (size_list_to_set_zero outs) Houts) in Hc. simpl in Hc. congruence.
    + destruct (leaves_of_inhabited n) as (l & Hl).
      assert (Houts : outs <> []).
      { intros Hnil. assert (Hin : identifier l ∈ outs).
        { apply list_elem_of_filter. split; [apply in_sample_set_false, Hall, Hl|].
          apply elem_of_map. exists l. split; [reflexivity | exact Hl]. }
        rewrite Hnil in Hin. inversion Hin. }
      assert (Hins : ins = []).
      { apply filter_none, Forall_forall. intros id Hid.
        apply elem_of_map in Hid as (l' & -> & Hl').
        rewrite (proj2 (in_sample_set_false _ _) (Hall l' Hl')). discriminate. }
      destruct (N.of_nat (size (list_to_set outs : gset string)) =? 0)%N eqn:Hz.
      * apply N.eqb_eq, size_list_to_set_zero in Hz. contradiction.
      * rewrite (proj2 (size_list_to_set_zero ins) Hins) in Hc. simpl in Hc. congruence.
Qed.

(** ** The balance of rule 4 is never NaN on counts that fit [size_t] *)
Section NoNaN.
Local Open Scope Z_scope.

Lemma round_aux_not_nan sx m e l :
  0 <= m -> binary_round_aux 24 128 sx m e l <> S754_nan.
Proof.
  intros Hm. unfold binary_round_aux.
  destruct (shr_fexp_spec m e l Hm) as (_ & H1 & _).
  destruct (shr_fexp 24 128 m e l) as [mrs1 e1]. simpl in H1.
  pose proof (round_nearest_even_bounds (shr_m mrs1) (loc_of_shr_record mrs1)) as [Hr _].
  set (m2 := round_nearest_even (shr_m mrs1) (loc_of_shr_record mrs1)) in *.
  destruct (shr_fexp_spec m2 e1 loc_Exact ltac:(lia)) as (_ & H2 & _).
  destruct (shr_fexp 24 128 m2 e1 loc_Exact) as [mrs2 e2]. simpl in H2.
  destruct (shr_m mrs2); [discriminate| |lia].
  destruct (e2 <=? 128 - 24); discriminate.
Qed.

Lemma div_finite_not_nan s1 m1 e1 s2 m2 e2 :
  F32.div (S754_finite s1 m1 e1) (S754_finite s2 m2 e2) <> S754_nan.
Proof.
  unfold F32.div, SFdiv. change F32.prec with 24. change F32.emax with 128.
  destruct (div_core_unfold m1 e1 m2 e2) as [Hs ->].
  apply round_aux_not_nan. apply Z.div_pos; [|lia].
  apply Z.mul_nonneg_nonneg; [lia | apply Z.pow_nonneg; lia].
Qed.

(** A positive finite float with a value between [2^a] and [2^b]. *)
Definition between (a b : Z) (x : spec_float) : Prop :=
  match x with
  | S754_finite false m e => 2 ^ (a - e) <= Z.pos m <= 2 ^ (b - e) /\ e <= b
  | _ => False
  end.

Lemma of_size_t_between n :
  (1 <= n < 2 ^ 64)%N -> between 0 64 (F32.of_size_t n).
Proof.
  intros Hn. unfold F32.of_size_t, F32.of_Z, binary_normalize.
  change F32.prec with 24. change F32.emax with 128.
  destruct (Z.of_N n) as [|p|p] eqn:Hp; [lia| |lia].
  assert (Hhi : Z.pos p <= 2 ^ (64 - 0)).
  { rewrite <- Hp. change (2 ^ (64 - 0)) with (Z.of_N (2 ^ 64)). lia. }
  pose proof (binary_round_ge 0 false p 0 ltac:(lia) ltac:(simpl; lia)) as Hge.
  pose proof (binary_round_le 64 false p 0 ltac:(lia) ltac:(lia) Hhi) as Hle.
  destruct (binary_round 24 128 false p 0) as [s|s| |s mf ef]; try contradiction.
  destruct Hge as [-> Hge]. destruct Hle as (_ & Hle & Hef). simpl. lia.
Qed.

Lemma div_between a b a' b' x y :
  between a b x -> between a' b' y ->
  -149 <= a - b' -> -126 <= b - a' <= 127 ->
  between (a - b') (b - a') (F32.div x y).
Proof.
  destruct x as [| | |[] m1 e1]; try contradiction.
  destruct y as [| | |[] m2 e2]; try contradiction.
  intros ([Hlo1 Hhi1] & He1) ([Hlo2 Hhi2] & He2) Hlow Hhigh.
  unfold F32.div, SFdiv. change F32.prec with 24. change F32.emax with 128.
  pose proof (div_core_le b a' m1 e1 m2 e2 ltac:(lia) He1 Hhi1 Hlo2) as Hle.
  pose proof (div_core_ge a b' m1 e1 m2 e2 Hlow Hlo1 He2 Hhi2) as Hge.
  destruct (SFdiv_core_binary 24 128 (Z.pos m1) e1 (Z.pos m2) e2) as [[q e] l].
  destruct Hle as (He & Hq & Hl). destruct Hge as [Hq1 Hqlo].
  pose proof (round_aux_le (b - a') false q e l Hhigh He Hq Hl) as Hrle.
  pose proof (round_aux_ge (a - b') false q e l Hlow Hq1 Hqlo) as Hrge.
  simpl xorb.
  destruct (binary_round_aux 24 128 false q e l) as [s|s| |s mf ef]; try contradiction.
  destruct Hrge as [-> Hrge]. destruct Hrle as (_ & Hrle & Hef). simpl. lia.
Qed.

Lemma add_one_not_nan r :
  signed false r -> r <> S754_nan ->
  match F32.add F32.one r with
  | S754_finite _ _ _ | S754_infinity _ => True
  | _ => False
  end.
Proof.
  destruct r as [s|s| |s m e]; simpl signed; intros Hs Hr; try congruence; subst.
  - exact I.
  - exact I.
  - pose proof (add_one_ge m e) as H.
    destruct (F32.add F32.one (S754_finite false m e)); try contradiction; exact I.
Qed.

Lemma rule4_confidence_total mi mo ils ols :
  (1 <= mi < 2 ^ 64)%N -> (1 <= mo < 2 ^ 64)%N ->
  (1 <= ils < 2 ^ 64)%N -> (1 <= ols < 2 ^ 64)%N ->
  exists c, rule4_confidence mi mo ils ols = Done c.
Proof.
  intros Hmi Hmo Hils Hols. unfold rule4_confidence.
  pose proof (div_between 0 64 0 64 _ _ (of_size_t_between mo Hmo)
                (of_size_t_between ols Hols) ltac:(lia) ltac:(lia)) as Hvor.
  pose proof (div_between 0 64 0 64 _ _ (of_size_t_between mi Hmi)
                (of_size_t_between ils Hils) ltac:(lia) ltac:(lia)) as Hvir.
  set (vor := F32.div (F32.of_size_t mo) (F32.of_size_t ols)) in *.
  set (vir := F32.div (F32.of_size_t mi) (F32.of_size_t ils)) in *.
  assert (Hr : signed false (F32.div vir vor) /\ F32.div vir vor <> S754_nan).
  { destruct vir as [| | |[] m1 e1]; try contradiction.
    destruct vor as [| | |[] m2 e2]; try contradiction.
    split; [apply div_signed; reflexivity | apply div_finite_not_nan]. }
  destruct Hr as [Hsigned Hnan].
  pose proof (add_one_not_nan _ Hsigned Hnan) as Hx.
  assert (Hc : F32.isnan (F32.div F32.one (F32.add F32.one (F32.div vir vor))) = false).
  { destruct (F32.add F32.one (F32.div vir vor)) as [| | |sx mx ex]; try contradiction.
    - reflexivity.
    - pose proof (div_finite_not_nan false 8388608 (-23) sx mx ex) as Hd.
      fold F32.one in Hd.
      destruct (F32.div F32.one (S754_finite sx mx ex)); congruence || reflexivity. }
  rewrite Hc. eexists; reflexivity.
Qed.
End NoNaN.

(** ** [get_assignments] completes on trees that fit [size_t] *)

(** The tree has fewer than 2^64 nodes and fewer than 2^64 mutations in
    all, as every tree held in memory has. *)
Definition fits_size_t (T : Tree) : Prop :=
  (N.of_nat (length (depth_first_expansion (root T))) < 2 ^ 64)%N /\
  (mutation_sum (depth_first_expansion (root T)) < 2 ^ 64)%N.

Lemma mutation_sum_app l1 l2 :
  mutation_sum (l1 ++ l2) = (mutation_sum l1 + mutation_sum l2)%N.
Proof. induction l1 as [|a l1 IH]; simpl; [reflexivity | rewrite IH; lia]. Qed.

Lemma flat_map_child_length (cs : list Node) c :
  c ∈ cs ->
  (length (depth_first_expansion c) <= length (flat_map depth_first_expansion cs))%nat.
Proof.
  induction cs as [|c' cs IH]; intros Hc; [inversion Hc|]. simpl. rewrite length_app.
  apply elem_of_cons in Hc as [->|Hc]; [lia|]. specialize (IH Hc). lia.
Qed.

Lemma flat_map_child_sum (cs : list Node) c :
  c ∈ cs ->
  (mutation_sum (depth_first_expansion c)
   <= mutation_sum (flat_map depth_first_expansion cs))%N.
Proof.
  induction cs as [|c' cs IH]; intros Hc; [inversion Hc|]. simpl. rewrite mutation_sum_app.
  apply elem_of_cons in Hc as [->|Hc]; [lia|]. specialize (IH Hc). lia.
Qed.

Lemma depth_first_expansion_length n :
  forall m, m ∈ depth_first_expansion n ->
  (length (depth_first_expansion m) <= length (depth_first_expansion n))%nat.
Proof.
  induction n as [id muts clades cs IH] using Node_ind. intros m Hm.
  rewrite depth_first_expansion_unfold in Hm. apply elem_of_cons in Hm as [->|Hm]; [lia|].
  simpl in Hm. apply elem_of_flat_map in Hm as (c & Hc & Hm).
  rewrite Forall_forall in IH. specialize (IH c Hc m Hm).
  pose proof (flat_map_child_length cs c Hc).
  rewrite (depth_first_expansion_unfold (mkNode id muts clades cs)). simpl. lia.
Qed.

(** A root-ward path weighs no more than the expansion it is in. *)
Lemma rsearch_in_sum id n :
  forall p, rsearch_in id n = Some p ->
  (mutation_sum p <= mutation_sum (depth_first_expansion n))%N.
Proof.
  induction n as [nid muts clades cs IH] using Node_ind. intros p.
  rewrite rsearch_in_unfold, depth_first_expansion_unfold. simpl identifier. simpl children.
  destruct (String.eqb nid id).
  - intros [= <-]. simpl. lia.
  - destruct (rsearch_first id cs) as [q|] eqn:Hfirst; [|discriminate]. intros [= <-].
    assert (Hq : exists c, c ∈ cs /\ rsearch_in id c = Some q).
    { clear IH. induction cs as [|c cs IHcs]; simpl in Hfirst; [discriminate|].
      destruct (rsearch_in id c) eqn:Hc.
      - injection Hfirst as ->. exists c. split; [left | exact Hc].
      - destruct (IHcs Hfirst) as (c' & Hc' & Hq). exists c'. split; [right; exact Hc' | exact Hq]. }
    destruct Hq as (c & Hc & Hq). rewrite Forall_forall in IH. specialize (IH c Hc q Hq).
    pose proof (flat_map_child_sum cs c Hc).
    rewrite mutation_sum_app. simpl. lia.
Qed.

Lemma rsearch_sum T id :
  (mutation_sum (rsearch T id) <= mutation_sum (depth_first_expansion (root T)))%N.
Proof.
  unfold rsearch. destruct (rsearch_in id (root T)) as [p|] eqn:Hp; [|simpl; lia].
  apply (rsearch_in_sum _ _ _ Hp).
Qed.

Lemma total_traveled_to_bound nid path :
  forall total r, total_traveled_to nid path total = Some r ->
  (r <= total + mutation_sum path)%N.
Proof.
  induction path as [|a path IH]; intros total r; simpl; [discriminate|].
  destruct (String.eqb (identifier a) nid); [intros [= <-]; lia|].
  intros H. specialize (IH _ _ H). lia.
Qed.

Lemma nearest_leaf_scan_bound T sample_set n bound ds :
  (mutation_sum (depth_first_expansion (root T)) <= bound)%N ->
  forall mi mo, (mi <= bound)%N -> (mo <= bound)%N ->
  (fst (nearest_leaf_scan T sample_set n ds mi mo) <= bound)%N /\
  (snd (nearest_leaf_scan T sample_set n ds mi mo) <= bound)%N.
Proof.
  intros Hb. induction ds as [|d ds IH]; intros mi mo Hmi Hmo; simpl; [split; assumption|].
  assert (Hnew : forall old, (old <= bound)%N ->
            (match total_traveled_to (identifier n) (rsearch T (identifier d)) 0 with
             | Some t => t
             | None => old
             end <= bound)%N).
  { intros old Hold.
    destruct (total_traveled_to _ _ _) as [t|] eqn:Ht; [|exact Hold].
    apply total_traveled_to_bound in Ht. pose proof (rsearch_sum T (identifier d)). lia. }
  repeat match goal with
  | |- context [if ?b then _ else _] => destruct b
  end; try (split; assumption); apply IH; auto.
Qed.

Lemma size_list_to_set_le (l : list string) :
  (size (list_to_set l : gset string) <= length l)%nat.
Proof.
  induction l as [|x l IH]; [rewrite list_to_set_nil, size_empty; simpl; lia|].
  rewrite list_to_set_cons, size_union_alt, size_singleton. simpl length.
  assert (Hsub : (list_to_set l : gset string) ∖ {[x]} ⊆ list_to_set l).
  { intros y Hy. apply elem_of_difference in Hy as [Hy _]. exact Hy. }
  pose proof (subseteq_size _ _ Hsub). lia.
Qed.

Lemma get_leaves_ids_length T id :
  (length (get_leaves_ids T id) <= length (depth_first_expansion (root T)))%nat.
Proof.
  unfold get_leaves_ids. destruct (get_node T id) as [n|] eqn:Hn; [|simpl; lia].
  apply get_node_elem in Hn as [Hn _]. rewrite length_map. unfold leaves_of.
  pose proof (length_filter (fun d => is_leaf d) (depth_first_expansion n)).
  pose proof (depth_first_expansion_length _ _ Hn). lia.
Qed.

Lemma node_assignment_total T sample_set n :
  fits_size_t T -> exists c, node_assignment T sample_set n = Done c.
Proof.
  intros [Hnodes Hmuts]. unfold node_assignment.
  destruct (is_leaf n); [destruct (in_sample_set _ _); eexists; reflexivity|].
  set (leaves := get_leaves_ids T (identifier n)).
  set (ins := filter (fun l => in_sample_set sample_set l = true) leaves).
  set (outs := filter (fun l => in_sample_set sample_set l = false) leaves).
  destruct (N.of_nat (size (list_to_set outs : gset string)) =? 0)%N eqn:Houts;
    [eexists; reflexivity|].
  destruct (N.of_nat (size (list_to_set ins : gset string)) =? 0)%N eqn:Hins;
    [eexists; reflexivity|].
  pose proof (nearest_leaf_scan_bound T sample_set n (2 ^ 64 - 1)%N
                (depth_first_expansion n) ltac:(lia) 0%N 0%N ltac:(lia) ltac:(lia)) as [Hi Ho].
  destruct (nearest_leaf_scan T sample_set n (depth_first_expansion n) 0 0) as [mi mo].
  simpl in Hi, Ho.
  destruct (mi =? 0)%N eqn:Hmi; [eexists; reflexivity|].
  destruct (mo =? 0)%N eqn:Hmo; [eexists; reflexivity|].
  apply N.eqb_neq in Houts, Hins, Hmi, Hmo.
  pose proof (get_leaves_ids_length T (identifier n)) as Hlen. fold leaves in Hlen.
  pose proof (size_list_to_set_le ins) as Hsi.
  pose proof (size_list_to_set_le outs) as Hso.
  pose proof (length_filter (fun l => in_sample_set sample_set l = true) leaves) as Hfi.
  pose proof (length_filter (fun l => in_sample_set sample_set l = false) leaves) as Hfo.
  fold ins in Hfi. fold outs in Hfo.
  apply rule4_confidence_total; lia.
Qed.

(** On a tree that fits [size_t] the NaN check never fires:
    [get_assignments] returns a map. *)
Lemma get_assignments_total T sample_set :
  fits_size_t T -> exists assignments, get_assignments T sample_set = Done assignments.
Proof.
  intros Hfits. unfold get_assignments. apply for_each_total.
  intros A n _. unfold assign_step.
  destruct (node_assignment_total T sample_set n Hfits) as [c ->].
  eexists; reflexivity.
Qed.

(** ** The assignment map *)

(** C2. On a tree with distinct identifiers, [get_assignments] returns a
    map whenever the tree fits [size_t], and every map it returns has a
    value for every node; the value lies between 0 and 1; a leaf has
    exactly 1 when it is in the sample set and exactly 0 otherwise; an
    internal node whose leaves are all in the sample set has 1, and one
    whose leaves are all outside it has 0. *)
Theorem assignments_follow_the_rules T sample_set :
  distinct_identifiers T ->
  (fits_size_t T ->
   exists assignments, get_assignments T sample_set = Done assignments) /\
  forall assignments n,
    get_assignments T sample_set = Done assignments ->
    n ∈ depth_first_expansion (root T) ->
    exists v,
      assignments !! identifier n = Some v /\
      F32.leb F32.zero v = true /\ F32.leb v F32.one = true /\
      (is_leaf n = true ->
       v = if in_sample_set sample_set (identifier n) then F32.one else F32.zero) /\
      (is_leaf n = false ->
       (forall l, l ∈ leaves_of n -> identifier l ∈ sample_set) -> v = F32.one) /\
      (is_leaf n = false ->
       (forall l, l ∈ leaves_of n -> identifier l ∉ sample_set) -> v = F32.zero).
Proof.
  intros Hnd. split; [apply get_assignments_total|].
  intros assignments n Hrun Hn.
  destruct (get_assignments_values _ _ _ _ Hnd Hrun Hn) as (c & Hc & Hlookup).
  destruct (node_assignment_in_unit_interval _ _ _ _ Hc) as [Hlo Hhi].
  destruct (node_assignment_rules _ _ _ _ Hnd Hn Hc) as (Hleaf & Hall & Hnone).
  exists c. repeat split; assumption.
Qed.

Definition scenario_X : Node :=
  mkNode "X" ["m2"] []
    [ mkNode "Y" ["m3"] [] [leaf "B" ["m4"]; leaf "C" ["m5"]]; leaf "D" ["m6"] ].

Definition scenario_B_and_C : gmap string spec_float :=
  match get_assignments scenario_tree (list_to_set ["B"; "C"]) with
  | Done assignments => assignments
  | Abort _ => ∅
  end.

Lemma scenario_tree_distinct : distinct_identifiers scenario_tree.
Proof. apply (bool_decide_unpack _). vm_compute. exact I. Qed.

Lemma scenario_tree_fits : fits_size_t scenario_tree.
Proof. split; vm_compute; reflexivity. Qed.

Lemma assignments_follow_the_rules_witness :
  (exists assignments,
     get_assignments scenario_tree (list_to_set ["B"; "C"]) = Done assignments) /\
  exists v,
    scenario_B_and_C !! "X" = Some v /\
    F32.leb F32.zero v = true /\ F32.leb v F32.one = true /\
    (is_leaf scenario_X = true ->
     v = if in_sample_set (list_to_set ["B"; "C"]) "X" then F32.one else F32.zero) /\
    (is_leaf scenario_X = false ->
     (forall l, l ∈ leaves_of scenario_X -> identifier l ∈ (list_to_set ["B"; "C"] : gset string)) ->
     v = F32.one) /\
    (is_leaf scenario_X = false ->
     (forall l, l ∈ leaves_of scenario_X -> identifier l ∉ (list_to_set ["B"; "C"] : gset string)) ->
     v = F32.zero).
Proof.
  destruct (assignments_follow_the_rules scenario_tree (list_to_set ["B"; "C"])
              scenario_tree_distinct) as [Htotal Hvalues].
  split; [apply Htotal, scenario_tree_fits|].
  apply (Hvalues scenario_B_and_C scenario_X).
  - vm_compute. reflexivity.
  - vm_compute. right. right. left.
Defined.

(** ** One row for every sample of the tree *)

(** C4 (as amended). On a tree that fits [size_t], with a threshold
    above 0, [find_introductions] returns the header followed by the
    rows of the regions in order, and among the rows of a region every
    sample identifier that names a node of the tree has as many rows as
    it has occurrences in the region's sequence (one row when it is
    listed once), while an identifier that names no node has none; the
    introduction_node of every row is on the root-ward path of the row's
    sample. *)
Theorem one_row_per_sample_of_the_tree T sample_regions add_info clade_output rand theta :
  fits_size_t T ->
  NoDup (map fst sample_regions) ->
  F32.ltb F32.zero theta = true ->
  exists rowss,
    find_introductions T sample_regions add_info clade_output rand theta
    = Done (Header (header_line (length sample_regions =? 1)%nat add_info)
            :: map Row (concat rowss)) /\
    Forall2
      (fun ms rows =>
         (forall s, length (rows_of_sample s rows)
                    = if names_node T s then occurrences s (snd ms) else 0%nat) /\
         Forall (fun r => row_introduction_node r
                          ∈ map identifier (rsearch T (row_sample r))) rows)
      sample_regions rowss.
Proof.
  intros Hfits Hnd Htheta. apply rows_of_assigned_regions; [exact Hnd | exact Htheta|].
  intros ms _. apply get_assignments_total, Hfits.
Qed.

Lemma one_row_per_sample_of_the_tree_witness :
  exists rowss,
    find_introductions scenario_tree [("default", ["B"; "Z"; "C"; "B"])] false "" no_rand F32.half
    = Done (Header (header_line true false) :: map Row (concat rowss)) /\
    Forall2
      (fun ms rows =>
         (forall s, length (rows_of_sample s rows)
                    = if names_node scenario_tree s then occurrences s (snd ms) else 0%nat) /\
         Forall (fun r => row_introduction_node r
                          ∈ map identifier (rsearch scenario_tree (row_sample r))) rows)
      [("default", ["B"; "Z"; "C"; "B"])] rowss.
Proof.
  apply (one_row_per_sample_of_the_tree scenario_tree
           [("default", ["B"; "Z"; "C"; "B"])] false "" no_rand F32.half).
  - split; vm_compute; reflexivity.
  - apply NoDup_cons. split; [intros H; inversion H | constructor].
  - reflexivity.
Defined.

(** C4 as stated fails: a sample identifier that is in the region's
    sequence and names no node of the tree gets no row; one that is
    listed twice gets two rows; and with the threshold 0 the root is not
    below the threshold and no sample gets a row. *)
Lemma rows_are_not_one_per_identifier :
  ("Z" ∈ ["B"; "Z"] /\
   exists row,
     find_introductions scenario_tree [("default", ["B"; "Z"])] false "" no_rand F32.half
     = Done [Header (header_line true false); Row row] /\
     rows_of_sample "Z" [row] = []) /\
  (exists row1 row2,
     find_introductions scenario_tree [("default", ["B"; "B"])] false "" no_rand F32.half
     = Done [Header (header_line true false); Row row1; Row row2] /\
     length (rows_of_sample "B" [row1; row2]) = 2%nat) /\
  find_introductions scenario_tree [("default", ["B"])] false "" no_rand F32.zero
  = Done [Header (header_line true false)].
Proof.
  split; [|split].
  - split; [right; left|]. exists scenario_B_row. split; vm_compute; reflexivity.
  - exists scenario_B_row, scenario_B_row. split; vm_compute; reflexivity.
  - vm_compute. reflexivity.
Qed.

(** ** The monophyletic clade size is the longest run *)

(** The leaves that count for the clade size, in depth-first order: for
    every leaf with an assignment, whether its confidence is at least
    0.5; leaves without an assignment are passed over. *)
Definition in_flags (assignments : gmap string spec_float) (acls : list string)
  : list bool :=
  omap (fun l => ge_half <$> assignments !! l) acls.

(** The second loop of [get_monophyletic_cladesize], from any state. *)
Definition clade_scan (flags : list bool) (biggest current : N) : N * N :=
  fold_left
    (fun '(biggest, current) (f : bool) =>
       if f then (biggest, (current + 1)%N)
       else ((if (biggest <? current)%N then current else biggest), 0%N))
    flags (biggest, current).

Definition clade_result (st : N * N) : N :=
  if (fst st <? snd st)%N then snd st else fst st.

Lemma cladesize_fold assignments acls :
  forall st,
  fold_left
    (fun '(biggest, current) l =>
       match assignments !! l with
       | Some v =>
         if ge_half v then (biggest, (current + 1)%N)
         else ((if (biggest <? current)%N then current else biggest), 0%N)
       | None => (biggest, current)
       end) acls st
  = clade_scan (in_flags assignments acls) (fst st) (snd st).
Proof.
  unfold clade_scan. induction acls as [|l acls IH]; intros [b c].
  - reflexivity.
  - simpl. unfold in_flags. simpl. rewrite IH.
    destruct (assignments !! l) as [v|]; simpl; [|reflexivity].
    destruct (ge_half v); reflexivity.
Qed.

Lemma cladesize_scan T assignments subroot :
  get_monophyletic_cladesize T assignments subroot
  = clade_result
      (clade_scan
         (in_flags assignments
            (map identifier
               (leaves_of (match subroot with Some s => s | None => root T end))))
         0 0).
Proof.
  unfold get_monophyletic_cladesize, clade_result. rewrite cladesize_fold. simpl fst. simpl snd.
  destruct (clade_scan _ 0 0) as [b c]. reflexivity.
Qed.

Lemma clade_result_max b c : clade_result (b, c) = N.max b c.
Proof.
  unfold clade_result. simpl. destruct (b <? c)%N eqn:H.
  - apply N.ltb_lt in H. lia.
  - apply N.ltb_ge in H. lia.
Qed.

Lemma clade_scan_cons f flags b c :
  clade_scan (f :: flags) b c
  = if f then clade_scan flags b (c + 1) else clade_scan flags (N.max b c) 0.
Proof.
  unfold clade_scan. simpl. destruct f; [reflexivity|].
  destruct (b <? c)%N eqn:H.
  - apply N.ltb_lt in H. replace (N.max b c) with c by lia. reflexivity.
  - apply N.ltb_ge in H. replace (N.max b c) with b by lia. reflexivity.
Qed.

(** No run is longer than the result. *)
Lemma clade_scan_lower flags :
  forall b c,
  let r := clade_result (clade_scan flags b c) in
  (b <= r)%N /\
  (forall k rest, flags = repeat true k ++ rest -> (c + N.of_nat k <= r)%N) /\
  (forall pre k rest, flags = pre ++ repeat true k ++ rest -> (N.of_nat k <= r)%N).
Proof.
  induction flags as [|f flags IH]; intros b c r.
  - subst r. unfold clade_scan. simpl. rewrite clade_result_max. split; [lia|]. split.
    + intros k rest H. destruct k; [simpl; lia | discriminate].
    + intros pre k rest H. destruct pre; [|discriminate].
      destruct k; [simpl; lia | discriminate].
  - subst r. rewrite clade_scan_cons. destruct f.
    + destruct (IH b (c + 1)%N) as (Hb & Hlead & Hin). split; [exact Hb|]. split.
      * intros k rest H. destruct k as [|k].
        -- specialize (Hlead 0%nat flags eq_refl). simpl in *. lia.
        -- simpl in H. injection H as H. specialize (Hlead k rest H). lia.
      * intros pre k rest H. destruct pre as [|p pre].
        -- destruct k as [|k]; [simpl; lia|]. simpl in H. injection H as H.
           specialize (Hlead k rest H). lia.
        -- simpl in H. injection H as _ H. apply (Hin pre k rest H).
    + destruct (IH (N.max b c) 0%N) as (Hb & Hlead & Hin). split; [lia|]. split.
      * intros k rest H. destruct k as [|k]; [simpl; lia | discriminate].
      * intros pre k rest H. destruct pre as [|p pre].
        -- destruct k as [|k]; [simpl; lia | discriminate].
        -- simpl in H. injection H as _ H. apply (Hin pre k rest H).
Qed.

(** The result is the length of a run, or what the state held. *)
Lemma clade_scan_upper flags :
  forall b c,
  let r := clade_result (clade_scan flags b c) in
  r = b \/
  (exists k rest, flags = repeat true k ++ rest /\ r = (c + N.of_nat k)%N) \/
  (exists pre rest, flags = pre ++ repeat true (N.to_nat r) ++ rest).
Proof.
  induction flags as [|f flags IH]; intros b c r.
  - subst r. unfold clade_scan. simpl. rewrite clade_result_max.
    destruct (N.max_spec b c) as [[_ ->]|[_ ->]]; [|left; reflexivity].
    right. left. exists 0%nat, []. split; [reflexivity | simpl; lia].
  - subst r. rewrite clade_scan_cons. destruct f.
    + destruct (IH b (c + 1)%N) as [H|[(k & rest & -> & H)|(pre & rest & H)]].
      * left. exact H.
      * right. left. exists (S k), rest. split; [reflexivity | lia].
      * right. right. exists (true :: pre), rest. rewrite H at 1. reflexivity.
    + destruct (IH (N.max b c) 0%N) as [H|[(k & rest & -> & H)|(pre & rest & H)]].
      * destruct (N.max_spec b c) as [[_ Hm]|[_ Hm]].
        -- right. left. exists 0%nat, (false :: flags). split; [reflexivity | simpl; lia].
        -- left. lia.
      * right. right. exists [false], rest. rewrite H.
        replace (N.to_nat (0 + N.of_nat k)) with k by lia. reflexivity.
      * right. right. exists (false :: pre), rest. rewrite H at 1. reflexivity.
Qed.

(** X1. [get_monophyletic_cladesize] returns the length of the longest
    run of consecutive leaves of confidence at least 0.5 among the
    leaves of the subtree that have an assignment, taken in depth-first
    order: the leaves hold a run of that length, and no run is longer. *)
Theorem cladesize_is_longest_run T assignments subroot :
  let start := match subroot with Some s => s | None => root T end in
  let flags := in_flags assignments (map identifier (leaves_of start)) in
  let mc := get_monophyletic_cladesize T assignments subroot in
  (exists pre rest, flags = pre ++ repeat true (N.to_nat mc) ++ rest) /\
  (forall pre k rest, flags = pre ++ repeat true k ++ rest -> (N.of_nat k <= mc)%N).
Proof.
  intros start flags mc. subst mc. rewrite cladesize_scan. fold start. fold flags. split.
  - destruct (clade_scan_upper flags 0 0) as [H|[(k & rest & Hf & H)|H]].
    + rewrite H. exists [], flags. reflexivity.
    + rewrite H. exists [], rest.
      replace (N.to_nat (0 + N.of_nat k)) with k by lia. exact Hf.
    + exact H.
  - intros pre k rest H. apply (proj2 (proj2 (clade_scan_lower flags 0 0)) pre k rest H).
Qed.

(** X2. The clade size is at most the number of leaves of the subtree,
    it is 0 exactly when no leaf with an assignment has a confidence of
    at least 0.5, and it is the number of leaves with an assignment when
    all of them have. *)
Theorem cladesize_bounds T assignments subroot :
  let start := match subroot with Some s => s | None => root T end in
  let flags := in_flags assignments (map identifier (leaves_of start)) in
  let mc := get_monophyletic_cladesize T assignments subroot in
  (mc <= N.of_nat (length (leaves_of start)))%N /\
  (mc = 0%N <-> Forall (fun f => f = false) flags) /\
  (Forall (fun f => f = true) flags -> mc = N.of_nat (length flags)).
Proof.
  intros start flags mc.
  assert (Hlen : (length flags <= length (leaves_of start))%nat).
  { subst flags. unfold in_flags. rewrite <- (length_map identifier (leaves_of start)).
    generalize (map identifier (leaves_of start)). intros l.
    induction l as [|x l IH]; [simpl; lia|]. unfold omap in *. simpl.
    destruct (assignments !! x); simpl; lia. }
  assert (Hup : exists pre rest, flags = pre ++ repeat true (N.to_nat mc) ++ rest).
  { subst mc. rewrite cladesize_scan. fold start. fold flags.
    destruct (clade_scan_upper flags 0 0) as [H|[(k & rest & Hf & H)|H]].
    - rewrite H. exists [], flags. reflexivity.
    - rewrite H. exists [], rest.
      replace (N.to_nat (0 + N.of_nat k)) with k by lia. exact Hf.
    - exact H. }
  assert (Hlow : forall pre k rest, flags = pre ++ repeat true k ++ rest -> (N.of_nat k <= mc)%N).
  { subst mc. rewrite cladesize_scan. fold start. fold flags.
    intros pre k rest H. apply (proj2 (proj2 (clade_scan_lower flags 0 0)) pre k rest H). }
  split; [|split].
  - destruct Hup as (pre & rest & H).
    assert (length flags = length pre + (N.to_nat mc + length rest))%nat as Hl.
    { rewrite H at 1. rewrite !length_app, repeat_length. reflexivity. }
    lia.
  - split.
    + intros Hz. apply Forall_forall. intros f Hf. destruct f; [|reflexivity]. exfalso.
      apply list_elem_of_split in Hf as (pre & rest & Hf).
      specialize (Hlow pre 1%nat rest Hf). lia.
    + intros Hall. destruct Hup as (pre & rest & H).
      destruct (N.to_nat mc) as [|k] eqn:Hk; [lia|]. exfalso.
      rewrite Forall_forall in Hall. assert (true = false); [|discriminate].
      apply Hall. rewrite H. apply elem_of_app. right. left.
  - intros Hall.
    assert (Hrep : flags = repeat true (length flags)).
    { clear -Hall. induction Hall as [|f l -> _ IH]; [reflexivity|]. simpl. f_equal. exact IH. }
    specialize (Hlow [] (length flags) []). simpl in Hlow. rewrite app_nil_r in Hlow.
    specialize (Hlow Hrep).
    destruct Hup as (pre & rest & H).
    assert (length flags = length pre + (N.to_nat mc + length rest))%nat as Hl.
    { rewrite H at 1. rewrite !length_app, repeat_length. reflexivity. }
    lia.
Qed.

(** ** More on [get_assignments] *)

Lemma for_each_ext {A S : Type} (body1 body2 : S -> A -> outcome S) (l : list A) :
  (forall s a, a ∈ l -> body1 s a = body2 s a) ->
  forall s, for_each body1 l s = for_each body2 l s.
Proof.
  induction l as [|a l IH]; intros Hext s; [reflexivity|].
  rewrite !for_each_cons, (Hext s a (list_elem_of_here _ _)).
  destruct (body2 s a) as [s'|f]; simpl; [|reflexivity].
  apply IH. intros s0 a0 Ha0. apply Hext. right. exact Ha0.
Qed.

(** The keys of the map after the loop: those it had and the
    identifiers of the nodes gone through. *)
Lemma assign_loop_keys T sample_set l :
  forall A0 A', for_each (assign_step T sample_set) l A0 = Done A' ->
  forall id, is_Some (A' !! id) <-> is_Some (A0 !! id) \/ id ∈ map identifier l.
Proof.
  induction l as [|n l IH]; intros A0 A' Hrun id.
  - injection Hrun as <-. split; [left; assumption|]. intros [H|H]; [exact H | inversion H].
  - rewrite for_each_cons in Hrun.
    destruct (assign_step T sample_set A0 n) as [A1|f] eqn:Hstep; simpl in Hrun;
      [|discriminate].
    unfold assign_step in Hstep.
    destruct (node_assignment T sample_set n) as [c|f]; simpl in Hstep; [|discriminate].
    injection Hstep as <-. rewrite (IH _ _ Hrun id). simpl. rewrite elem_of_cons, lookup_insert.
    destruct (decide (identifier n = id)) as [->|Hne].
    + split; [intros _; right; left; reflexivity | intros _; left; eexists; reflexivity].
    + split; [intros [H|H]; [left; exact H | right; right; exact H]|].
      intros [H|[H|H]]; [left; exact H | congruence | right; exact H].
Qed.

(** X3. The map [get_assignments] returns has an entry exactly for the
    identifiers of the nodes of the tree: every node is assigned, and an
    identifier of the sample set that names no node adds no entry. *)
Theorem assignment_keys_are_the_nodes T sample_set assignments :
  get_assignments T sample_set = Done assignments ->
  forall id, is_Some (assignments !! id) <-> names_node T id = true.
Proof.
  intros Hrun id. rewrite (assign_loop_keys _ _ _ _ _ Hrun id), lookup_empty.
  unfold names_node. rewrite bool_decide_eq_true. split; [|right; assumption].
  intros [[v Hv]|H]; [discriminate | exact H].
Qed.

Lemma assignment_keys_are_the_nodes_witness :
  (is_Some (scenario_only_B !! "Y") <-> names_node scenario_tree "Y" = true) /\
  (is_Some (scenario_only_B !! "Z") <-> names_node scenario_tree "Z" = true).
Proof.
  split; apply (assignment_keys_are_the_nodes scenario_tree {["B"]} scenario_only_B);
    vm_compute; reflexivity.
Defined.

(** The leaves of a node of the tree are leaves of the tree. *)
Lemma leaves_of_elem n l : l ∈ leaves_of n <-> l ∈ depth_first_expansion n /\ is_leaf l = true.
Proof.
  unfold leaves_of. rewrite list_elem_of_filter. split; intros [H1 H2]; split; try assumption.
  - apply Is_true_true in H1. exact H1.
  - apply Is_true_true. exact H2.
Qed.

Lemma leaves_of_node T n l :
  n ∈ depth_first_expansion (root T) -> l ∈ leaves_of n -> l ∈ leaves_of (root T).
Proof.
  rewrite !leaves_of_elem. intros Hn [Hl Hleaf]. split; [|exact Hleaf].
  eapply depth_first_expansion_trans; eassumption.
Qed.

Lemma get_leaves_ids_elem T id x :
  x ∈ get_leaves_ids T id -> exists l, l ∈ leaves_of (root T) /\ x = identifier l.
Proof.
  unfold get_leaves_ids. destruct (get_node T id) as [n|] eqn:Hget; [|intros H; inversion H].
  intros Hx. apply elem_of_map in Hx as (l & -> & Hl). exists l. split; [|reflexivity].
  eapply leaves_of_node; [apply (get_node_elem _ _ _ Hget) | exact Hl].
Qed.

Lemma filter_ext_in {A : Type} (P Q : A -> Prop) `{!forall x, Decision (P x)}
    `{!forall x, Decision (Q x)} (l : list A) :
  (forall x, x ∈ l -> (P x <-> Q x)) -> filter P l = filter Q l.
Proof.
  induction l as [|a l IH]; intros Hext; [reflexivity|].
  rewrite !filter_cons. rewrite IH by (intros x Hx; apply Hext; right; exact Hx).
  pose proof (Hext a (list_elem_of_here _ _)) as Ha.
  destruct (decide (P a)), (decide (Q a)); tauto.
Qed.

(** Two sample sets that hold the same leaves of the tree. *)
Definition same_leaves (T : Tree) (S1 S2 : gset string) : Prop :=
  forall l, l ∈ leaves_of (root T) -> (identifier l ∈ S1 <-> identifier l ∈ S2).

Lemma same_leaves_in_sample_set T S1 S2 l :
  same_leaves T S1 S2 -> l ∈ leaves_of (root T) ->
  in_sample_set S1 (identifier l) = in_sample_set S2 (identifier l).
Proof.
  intros Hsame Hl. unfold in_sample_set. apply bool_decide_ext, Hsame, Hl.
Qed.

Lemma nearest_leaf_scan_ext T S1 S2 n ds :
  (forall d, d ∈ ds -> is_leaf d = true ->
     in_sample_set S1 (identifier d) = in_sample_set S2 (identifier d)) ->
  forall mi mo,
  nearest_leaf_scan T S1 n ds mi mo = nearest_leaf_scan T S2 n ds mi mo.
Proof.
  induction ds as [|d ds IH]; intros Hext mi mo; [reflexivity|].
  simpl. destruct ((0 <? mi)%N && (0 <? mo)%N); [reflexivity|].
  assert (Hrest : forall mi mo,
            nearest_leaf_scan T S1 n ds mi mo = nearest_leaf_scan T S2 n ds mi mo).
  { apply IH. intros d' Hd'. apply Hext. right. exact Hd'. }
  destruct (is_leaf d) eqn:Hleaf; [|apply Hrest].
  rewrite (Hext d (list_elem_of_here _ _) Hleaf).
  destruct (in_sample_set S2 (identifier d) && (mi =? 0)%N); [apply Hrest|].
  destruct (negb (in_sample_set S2 (identifier d)) && (mo =? 0)%N); apply Hrest.
Qed.

Lemma node_assignment_ext T S1 S2 n :
  same_leaves T S1 S2 -> n ∈ depth_first_expansion (root T) ->
  node_assignment T S1 n = node_assignment T S2 n.
Proof.
  intros Hsame Hn. unfold node_assignment. destruct (is_leaf n) eqn:Hleaf.
  - rewrite (same_leaves_in_sample_set T S1 S2 n Hsame); [reflexivity|].
    apply leaves_of_elem. split; assumption.
  - assert (Hin : filter (fun l => in_sample_set S1 l = true) (get_leaves_ids T (identifier n))
                  = filter (fun l => in_sample_set S2 l = true) (get_leaves_ids T (identifier n))).
    { apply filter_ext_in. intros x Hx.
      apply get_leaves_ids_elem in Hx as (l & Hl & ->).
      rewrite (same_leaves_in_sample_set T S1 S2 l Hsame Hl). reflexivity. }
    assert (Hout : filter (fun l => in_sample_set S1 l = false) (get_leaves_ids T (identifier n))
                   = filter (fun l => in_sample_set S2 l = false) (get_leaves_ids T (identifier n))).
    { apply filter_ext_in. intros x Hx.
      apply get_leaves_ids_elem in Hx as (l & Hl & ->).
      rewrite (same_leaves_in_sample_set T S1 S2 l Hsame Hl). reflexivity. }
    rewrite Hin, Hout.
    rewrite (nearest_leaf_scan_ext T S1 S2 n (depth_first_expansion n)); [reflexivity|].
    intros d Hd Hdl. apply (same_leaves_in_sample_set T S1 S2 d Hsame).
    apply leaves_of_elem. split; [|exact Hdl].
    eapply depth_first_expansion_trans; eassumption.
Qed.

(** X4. The assignment depends on the sample set only through the
    leaves of the tree it holds: two sample sets with the same leaves of
    the tree give the same result, so identifiers of internal nodes and
    identifiers that name no node make no difference. *)
Theorem assignments_depend_on_leaves_only T S1 S2 :
  (forall l, l ∈ leaves_of (root T) -> (identifier l ∈ S1 <-> identifier l ∈ S2)) ->
  get_assignments T S1 = get_assignments T S2.
Proof.
  intros Hsame. unfold get_assignments. apply for_each_ext. intros A n Hn.
  unfold assign_step. rewrite (node_assignment_ext T S1 S2 n Hsame Hn). reflexivity.
Qed.

Lemma assignments_depend_on_leaves_only_witness :
  get_assignments scenario_tree {["B"]}
  = get_assignments scenario_tree (list_to_set ["B"; "X"; "Z"]).
Proof.
  apply (assignments_depend_on_leaves_only scenario_tree {["B"]} (list_to_set ["B"; "X"; "Z"])).
  apply (proj1 (Forall_forall
           (fun l => identifier l ∈ ({["B"]} : gset string)
                     <-> identifier l ∈ (list_to_set ["B"; "X"; "Z"] : gset string))
           (leaves_of (root scenario_tree)))).
  apply (bool_decide_unpack _). vm_compute. exact I.
Defined.

(** A node of the tree is found by its identifier; with distinct
    identifiers it is the node itself. *)
Lemma get_node_found T n :
  n ∈ depth_first_expansion (root T) -> exists n', get_node T (identifier n) = Some n'.
Proof.
  intros Hn. unfold get_node.
  destruct (find _ _) as [n'|] eqn:Hfind; [eexists; reflexivity|]. exfalso.
  pose proof (find_none _ _ Hfind n (proj1 (list_elem_of_In _ _) Hn)) as Hno.
  simpl in Hno. rewrite String.eqb_refl in Hno. discriminate.
Qed.

Lemma get_leaves_ids_inhabited T n :
  n ∈ depth_first_expansion (root T) -> get_leaves_ids T (identifier n) <> [].
Proof.
  intros Hn. unfold get_leaves_ids. destruct (get_node_found T n Hn) as [n' ->].
  destruct (leaves_of_inhabited n') as [l Hl]. intros Hnil.
  assert (Hid : identifier l ∈ map identifier (leaves_of n')).
  { apply elem_of_map. exists l. split; [reflexivity | exact Hl]. }
  rewrite Hnil in Hid. inversion Hid.
Qed.

(** A loop whose every node gets the same value. *)
Lemma assign_loop_constant T sample_set c0 l :
  (forall n, n ∈ l -> node_assignment T sample_set n = Done c0) ->
  forall A0, (forall id v, A0 !! id = Some v -> v = c0) ->
  exists A', for_each (assign_step T sample_set) l A0 = Done A' /\
             forall id v, A' !! id = Some v -> v = c0.
Proof.
  induction l as [|n l IH]; intros Hall A0 HA0.
  - exists A0. split; [reflexivity | exact HA0].
  - rewrite for_each_cons.
    assert (Hstep : assign_step T sample_set A0 n = Done (<[identifier n := c0]> A0)).
    { unfold assign_step. rewrite (Hall n (list_elem_of_here _ _)). reflexivity. }
    rewrite Hstep, bind_done.
    apply IH; [intros n' Hn'; apply Hall; right; exact Hn'|].
    intros id v. rewrite lookup_insert.
    destruct (decide (identifier n = id)); [intros [= <-]; reflexivity | apply HA0].
Qed.

Lemma node_assignment_all_out T sample_set n :
  (forall l, l ∈ leaves_of (root T) -> identifier l ∉ sample_set) ->
  n ∈ depth_first_expansion (root T) ->
  node_assignment T sample_set n = Done F32.zero.
Proof.
  intros Hout Hn. unfold node_assignment. destruct (is_leaf n) eqn:Hleaf.
  - assert (Hno : in_sample_set sample_set (identifier n) = false).
    { apply in_sample_set_false, Hout, leaves_of_elem. split; assumption. }
    rewrite Hno. reflexivity.
  - assert (Hin : filter (fun l => in_sample_set sample_set l = true)
                    (get_leaves_ids T (identifier n)) = []).
    { apply filter_none, Forall_forall. intros x Hx.
      apply get_leaves_ids_elem in Hx as (l & Hl & ->).
      rewrite (proj2 (in_sample_set_false _ _) (Hout l Hl)). discriminate. }
    assert (Hall : filter (fun l => in_sample_set sample_set l = false)
                     (get_leaves_ids T (identifier n)) = get_leaves_ids T (identifier n)).
    { apply filter_all, Forall_forall. intros x Hx.
      apply get_leaves_ids_elem in Hx as (l & Hl & ->).
      apply in_sample_set_false, Hout, Hl. }
    rewrite Hin, Hall.
    destruct (N.of_nat (size (list_to_set (get_leaves_ids T (identifier n)) : gset string)) =? 0)%N
      eqn:Hz.
    + exfalso. apply N.eqb_eq, size_list_to_set_zero in Hz.
      exact (get_leaves_ids_inhabited T n Hn Hz).
    + reflexivity.
Qed.

Lemma node_assignment_all_in T sample_set n :
  (forall l, l ∈ leaves_of (root T) -> identifier l ∈ sample_set) ->
  n ∈ depth_first_expansion (root T) ->
  node_assignment T sample_set n = Done F32.one.
Proof.
  intros Hall Hn. unfold node_assignment. destruct (is_leaf n) eqn:Hleaf.
  - assert (Hyes : in_sample_set sample_set (identifier n) = true).
    { apply in_sample_set_true, Hall, leaves_of_elem. split; assumption. }
    rewrite Hyes. reflexivity.
  - assert (Hout : filter (fun l => in_sample_set sample_set l = false)
                     (get_leaves_ids T (identifier n)) = []).
    { apply filter_none, Forall_forall. intros x Hx.
      apply get_leaves_ids_elem in Hx as (l & Hl & ->).
      rewrite (proj2 (in_sample_set_true _ _) (Hall l Hl)). discriminate. }
    rewrite Hout. reflexivity.
Qed.

(** X5. When no leaf of the tree is in the sample set (the empty set,
    or identifiers that name no leaf), [get_assignments] returns a map
    and every node has the value 0 in it; when every leaf of the tree is
    in the sample set, it returns a map and every node has the value 1.
    Rule 4 and its NaN check are never reached. *)
Theorem uniform_sample_sets T sample_set :
  ((forall l, l ∈ leaves_of (root T) -> identifier l ∉ sample_set) ->
   exists assignments,
     get_assignments T sample_set = Done assignments /\
     forall n, n ∈ depth_first_expansion (root T) ->
               assignments !! identifier n = Some F32.zero) /\
  ((forall l, l ∈ leaves_of (root T) -> identifier l ∈ sample_set) ->
   exists assignments,
     get_assignments T sample_set = Done assignments /\
     forall n, n ∈ depth_first_expansion (root T) ->
               assignments !! identifier n = Some F32.one).
Proof.
  split; intros Hleaves.
  - destruct (assign_loop_constant T sample_set F32.zero (depth_first_expansion (root T))
                (fun n Hn => node_assignment_all_out T sample_set n Hleaves Hn) ∅)
      as (A & Hrun & Hval).
    { intros id v. rewrite lookup_empty. discriminate. }
    exists A. split; [exact Hrun|]. intros n Hn.
    destruct (get_assignments_covers _ _ _ Hrun n Hn) as [v Hv].
    rewrite Hv, (Hval _ _ Hv). reflexivity.
  - destruct (assign_loop_constant T sample_set F32.one (depth_first_expansion (root T))
                (fun n Hn => node_assignment_all_in T sample_set n Hleaves Hn) ∅)
      as (A & Hrun & Hval).
    { intros id v. rewrite lookup_empty. discriminate. }
    exists A. split; [exact Hrun|]. intros n Hn.
    destruct (get_assignments_covers _ _ _ Hrun n Hn) as [v Hv].
    rewrite Hv, (Hval _ _ Hv). reflexivity.
Qed.

Lemma uniform_sample_sets_witness :
  (exists assignments,
     get_assignments scenario_tree ∅ = Done assignments /\
     forall n, n ∈ depth_first_expansion (root scenario_tree) ->
               assignments !! identifier n = Some F32.zero) /\
  (exists assignments,
     get_assignments scenario_tree (list_to_set ["A"; "B"; "C"; "D"]) = Done assignments /\
     forall n, n ∈ depth_first_expansion (root scenario_tree) ->
               assignments !! identifier n = Some F32.one).
Proof.
  split.
  - apply (proj1 (uniform_sample_sets scenario_tree ∅)).
    intros l _. apply not_elem_of_empty.
  - apply (proj2 (uniform_sample_sets scenario_tree (list_to_set ["A"; "B"; "C"; "D"]))).
    apply (proj1 (Forall_forall
             (fun l => identifier l ∈ (list_to_set ["A"; "B"; "C"; "D"] : gset string))
             (leaves_of (root scenario_tree)))).
    apply (bool_decide_unpack _). vm_compute. exact I.
Defined.

(** ** The balance of rule 4 when both sides weigh the same *)

Section Balanced.
Local Open Scope Z_scope.

(** A positive finite float divided by itself is 1. *)
Lemma div_self m e :
  F32.div (S754_finite false m e) (S754_finite false m e) = F32.one.
Proof.
  unfold F32.div, SFdiv. simpl xorb.
  pose proof (div_core_unfold m e m e) as [Hs Hcore]. cbv zeta in Hs, Hcore.
  change F32.prec with 24. change F32.emax with 128.
  rewrite Hcore. clear Hcore Hs.
  replace (Z.pos (digits2_pos m) + e - (Z.pos (digits2_pos m) + e)) with 0 by lia.
  replace (e - e) with 0 by lia.
  change (Z.min (fexp 24 128 0) 0) with (-24).
  change (0 - -24) with 24.
  rewrite (Z.mul_comm (Z.pos m)), Z.div_mul, Z.mod_mul by lia.
  rewrite new_location_zero. vm_compute. reflexivity.
Qed.

End Balanced.

(** X6. When the two ratios of rule 4, the distance to the nearest
    in-sample leaf over the number of in-sample leaves and the same for
    the other leaves, are the same [float], the balance is exactly 0.5;
    so it is when the distances are equal and the numbers of leaves are
    equal. *)
Theorem balanced_rule4_is_half mi mo ils ols :
  (1 <= mi < 2 ^ 64)%N -> (1 <= mo < 2 ^ 64)%N ->
  (1 <= ils < 2 ^ 64)%N -> (1 <= ols < 2 ^ 64)%N ->
  F32.div (F32.of_size_t mi) (F32.of_size_t ils)
  = F32.div (F32.of_size_t mo) (F32.of_size_t ols) ->
  rule4_confidence mi mo ils ols = Done F32.half.
Proof.
  intros Hmi Hmo Hils Hols Heq. unfold rule4_confidence. rewrite Heq.
  pose proof (div_between 0 64 0 64 _ _ (of_size_t_between mo Hmo) (of_size_t_between ols Hols)
                ltac:(lia) ltac:(lia)) as Hb.
  destruct (F32.div (F32.of_size_t mo) (F32.of_size_t ols)) as [s|s| |s m e];
    try (simpl in Hb; contradiction).
  destruct s; [simpl in Hb; contradiction|].
  rewrite div_self. vm_compute. reflexivity.
Qed.

Lemma balanced_rule4_is_half_witness :
  rule4_confidence 3 3 2 2 = Done F32.half /\ rule4_confidence 2 4 3 6 = Done F32.half.
Proof.
  split.
  - apply (balanced_rule4_is_half 3 3 2 2); try lia. reflexivity.
  - apply (balanced_rule4_is_half 2 4 3 6); try lia. vm_compute. reflexivity.
Defined.

(** ** The counts of the association index are those of the leaves *)

(** The leaves below a node that have an assignment of at most 0.5. *)
Definition mapped_out (assignments : gmap string spec_float) (n : Node) : N :=
  N.of_nat (length (filter
    (fun l => match assignments !! identifier l with
              | Some v => negb (gt_half v)
              | None => false
              end = true) (leaves_of n))).

(** The index computed node by node from the leaves below each internal
    node, without the table of counts. *)
Definition association_index_direct (assignments : gmap string spec_float)
    (bfs : list Node) : spec_float :=
  fold_left
    (fun total n =>
       if is_leaf n then total
       else F32.of_double
              (F64.add (F64.of_float total)
                 (ai_term (in_count assignments n) (mapped_out assignments n))))
    (rev bfs) F32.zero.

Lemma is_leaf_children n : is_leaf n = true <-> children n = [].
Proof. unfold is_leaf. destruct (children n); split; congruence. Qed.

Lemma leaves_of_leaf n : is_leaf n = true -> leaves_of n = [n].
Proof.
  intros Hleaf. unfold leaves_of. rewrite depth_first_expansion_unfold.
  rewrite (proj1 (is_leaf_children n) Hleaf). simpl.
  rewrite filter_cons_True by (rewrite Hleaf; exact I). reflexivity.
Qed.

Lemma filter_flat_map {A B : Type} (P : B -> Prop) `{!forall x, Decision (P x)}
    (f : A -> list B) (l : list A) :
  filter P (flat_map f l) = flat_map (fun a => filter P (f a)) l.
Proof.
  induction l as [|a l IH]; [reflexivity|]. simpl. rewrite filter_app, IH. reflexivity.
Qed.

Lemma leaves_of_internal n :
  is_leaf n = false -> leaves_of n = flat_map leaves_of (children n).
Proof.
  intros Hint. unfold leaves_of at 1. rewrite depth_first_expansion_unfold.
  rewrite filter_cons_False by (rewrite Hint; exact id).
  apply filter_flat_map.
Qed.

(** Nodes of a list with distinct identifiers are told apart by their
    identifiers. *)
Lemma same_identifier (l : list Node) n n' :
  NoDup (map identifier l) -> n ∈ l -> n' ∈ l -> identifier n = identifier n' -> n = n'.
Proof.
  intros Hnd Hn Hn' Heq.
  pose proof (find_by_identifier l n Hnd Hn) as H1.
  pose proof (find_by_identifier l n' Hnd Hn') as H2.
  rewrite Heq in H1. congruence.
Qed.

Section DirectCounts.
Variable assignments : gmap string spec_float.
Variable rand : nat -> N.
Variable leaf_count sample_count : N.

Local Abbreviation child := (count_child assignments false rand leaf_count sample_count).
Local Abbreviation step := (ai_step assignments false rand leaf_count sample_count).

Definition leaf_counts (n : Node) : N * N :=
  (in_count assignments n, mapped_out assignments n).

(** The table holds the counts of the leaves below every internal node
    gone through. *)
Definition tracker_counts (tracker : gmap string (N * N)) (processed : list Node) : Prop :=
  forall n, n ∈ processed -> is_leaf n = false ->
            tracker !! identifier n = Some (leaf_counts n).

Definition count_list (cs : list Node) : N * N :=
  (N.of_nat (length (filter
     (fun l => match assignments !! identifier l with
               | Some v => gt_half v
               | None => false
               end = true) (flat_map leaves_of cs))),
   N.of_nat (length (filter
     (fun l => match assignments !! identifier l with
               | Some v => negb (gt_half v)
               | None => false
               end = true) (flat_map leaves_of cs)))).

Lemma count_list_cons c cs :
  count_list (c :: cs)
  = ((in_count assignments c + fst (count_list cs))%N,
     (mapped_out assignments c + snd (count_list cs))%N).
Proof.
  unfold count_list, in_count, mapped_out. simpl.
  rewrite !filter_app, !length_app, !Nat2N.inj_add. reflexivity.
Qed.

Lemma leaf_counts_internal n :
  is_leaf n = false -> leaf_counts n = count_list (children n).
Proof.
  intros Hint. unfold leaf_counts, in_count, mapped_out, count_list.
  rewrite (leaves_of_internal n Hint). reflexivity.
Qed.

Lemma leaf_counts_leaf c :
  is_leaf c = true ->
  leaf_counts c =
  match assignments !! identifier c with
  | Some v => if gt_half v then (1%N, 0%N) else (0%N, 1%N)
  | None => (0%N, 0%N)
  end.
Proof.
  intros Hleaf. unfold leaf_counts, in_count, mapped_out. rewrite (leaves_of_leaf c Hleaf).
  rewrite !filter_cons, !filter_nil.
  destruct (assignments !! identifier c) as [v|]; [destruct (gt_half v)|]; reflexivity.
Qed.

(** The loop over the children adds the counts of the leaves below
    them. *)
Lemma count_children_exact tracker cs :
  (forall c, c ∈ cs -> is_leaf c = false -> tracker !! identifier c = Some (leaf_counts c)) ->
  forall in_c out_c calls,
  for_each (child tracker) cs (in_c, out_c, calls)
  = Done ((in_c + fst (count_list cs))%N, (out_c + snd (count_list cs))%N, calls).
Proof.
  induction cs as [|c cs IH]; intros Hcs in_c out_c calls.
  - simpl. rewrite !N.add_0_r. reflexivity.
  - rewrite for_each_cons, count_list_cons.
    assert (Hc : child tracker (in_c, out_c, calls) c
                 = Done ((in_c + in_count assignments c)%N,
                         (out_c + mapped_out assignments c)%N, calls)).
    { unfold count_child. destruct (is_leaf c) eqn:Hleaf.
      - pose proof (leaf_counts_leaf c Hleaf) as Hl. unfold leaf_counts in Hl.
        destruct (assignments !! identifier c) as [v|]; [destruct (gt_half v)|];
          apply pair_equal_spec in Hl as [H1 H2]; rewrite H1, H2, ?N.add_0_r; reflexivity.
      - rewrite (Hcs c (list_elem_of_here _ _) Hleaf). reflexivity. }
    rewrite Hc, bind_done, IH by (intros c' Hc'; apply Hcs; right; exact Hc').
    simpl fst. simpl snd. rewrite !N.add_assoc. reflexivity.
Qed.

Definition direct_step (total : spec_float) (n : Node) : spec_float :=
  if is_leaf n then total
  else F32.of_double
         (F64.add (F64.of_float total)
            (ai_term (in_count assignments n) (mapped_out assignments n))).

(** The main loop, on nodes told apart by their identifiers. *)
Lemma ai_loop_direct (all : list Node) l :
  NoDup (map identifier all) ->
  forall P st st',
  (forall n, n ∈ l ++ P -> n ∈ all) ->
  children_first P l -> tracker_counts (internal_tracker st) P ->
  for_each step l st = Done st' ->
  tracker_counts (internal_tracker st') (rev l ++ P) /\
  total_ai st' = fold_left direct_step l (total_ai st).
Proof.
  intros Hnd. induction l as [|n l IH]; intros P st st' Hall Hcf Ht Hrun.
  - injection Hrun as <-. split; [exact Ht | reflexivity].
  - rewrite for_each_cons in Hrun. destruct Hcf as [Hc Hcf].
    destruct (step st n) as [st1|f] eqn:Hstep; simpl in Hrun; [|discriminate].
    assert (Hst1 : tracker_counts (internal_tracker st1) (n :: P) /\
                   total_ai st1 = direct_step (total_ai st) n).
    { unfold ai_step in Hstep. unfold direct_step. destruct (is_leaf n) eqn:Hleaf.
      - injection Hstep as <-. split; [|reflexivity].
        intros n' Hn' Hint. apply elem_of_cons in Hn' as [->|Hn']; [congruence|].
        apply Ht; assumption.
      - rewrite (count_children_exact (internal_tracker st) (children n)) in Hstep
          by (intros c Hcn Hci; apply Ht; [apply Hc, Hcn | exact Hci]).
        rewrite bind_done in Hstep. rewrite <- (leaf_counts_internal n Hleaf) in Hstep.
        unfold leaf_counts in Hstep. cbn [fst snd] in Hstep. rewrite !N.add_0_l in Hstep.
        destruct (in_count assignments n + mapped_out assignments n =? 0)%N;
          [discriminate|].
        injection Hstep as <-. simpl. split; [|reflexivity].
        intros n' Hn' Hint. rewrite lookup_insert.
        destruct (decide (identifier n = identifier n')) as [Heq|Hne].
        + assert (n = n') as <-; [|reflexivity].
          apply (same_identifier all); [exact Hnd | | | exact Heq].
          * apply Hall. left.
          * apply Hall. apply elem_of_cons in Hn' as [->|Hn']; [left|].
            right. apply elem_of_app. right. exact Hn'.
        + apply elem_of_cons in Hn' as [->|Hn']; [congruence|]. apply Ht; assumption. }
    destruct Hst1 as [Ht1 Htot].
    destruct (IH (n :: P) st1 st') as [Ht' Htot']; [|exact Hcf|exact Ht1|exact Hrun|].
    { intros n' Hn'. apply Hall. apply elem_of_app in Hn' as [Hn'|Hn'].
      - right. apply elem_of_app. left. exact Hn'.
      - apply elem_of_cons in Hn' as [->|Hn']; [left|]. right. apply elem_of_app. right.
        exact Hn'. }
    split.
    + simpl. rewrite <- app_assoc. exact Ht'.
    + simpl. rewrite Htot', Htot. reflexivity.
Qed.
End DirectCounts.

(** The run without permutation on a tree with distinct identifiers. *)
Lemma association_index_run_direct T assignments rand subroot :
  distinct_identifiers T ->
  (forall l, l ∈ ai_traversal T subroot -> is_leaf l = true ->
             is_Some (assignments !! identifier l)) ->
  exists st,
    association_index_run T assignments false rand subroot = Done st /\
    (forall n, n ∈ ai_traversal T subroot -> is_leaf n = false ->
       internal_tracker st !! identifier n
       = Some (in_count assignments n, mapped_out assignments n)) /\
    get_association_index T assignments false rand subroot
    = Done (association_index_direct assignments (ai_traversal T subroot)).
Proof.
  intros Hnd Hcov.
  destruct (association_index_run_total T assignments false rand subroot (fun _ => Hcov))
    as (st & Hrun & _).
  exists st. split; [exact Hrun|].
  unfold association_index_run in Hrun.
  destruct (ai_loop_direct assignments rand 0 0 (depth_first_expansion (root T))
              (rev (ai_traversal T subroot)) Hnd [] (mkAiState F32.zero ∅ 0) st)
    as [Ht Htot].
  - intros n Hn. rewrite app_nil_r in Hn.
    apply list_elem_of_In, in_rev, list_elem_of_In in Hn. eapply ai_traversal_elem, Hn.
  - apply ai_traversal_children_first.
  - intros n Hn. inversion Hn.
  - exact Hrun.
  - rewrite rev_involutive, app_nil_r in Ht. split; [exact Ht|].
    unfold get_association_index, association_index_run.
    unfold association_index_run in Hrun. rewrite Hrun. simpl. f_equal. exact Htot.
Qed.

(** X7. On a tree with distinct identifiers, when every leaf of the
    traversed subtree has an assignment, the run of
    [get_association_index] without permutation completes, the table it
    fills holds for every internal node of the subtree the number of
    leaves below it with confidence above 0.5 and the number of the
    other leaves below it, and the index returned is the one computed
    node by node from those numbers. *)
Theorem association_index_counts_leaves T assignments rand subroot :
  distinct_identifiers T ->
  (forall l, l ∈ ai_traversal T subroot -> is_leaf l = true ->
             is_Some (assignments !! identifier l)) ->
  exists st,
    association_index_run T assignments false rand subroot = Done st /\
    (forall n, n ∈ ai_traversal T subroot -> is_leaf n = false ->
       internal_tracker st !! identifier n
       = Some (in_count assignments n, mapped_out assignments n)) /\
    get_association_index T assignments false rand subroot
    = Done (association_index_direct assignments (ai_traversal T subroot)).
Proof. apply association_index_run_direct. Qed.

Lemma association_index_counts_leaves_witness :
  exists st,
    association_index_run scenario_tree scenario_only_B false (fun _ => 0%N) None = Done st /\
    (forall n, n ∈ ai_traversal scenario_tree None -> is_leaf n = false ->
       internal_tracker st !! identifier n
       = Some (in_count scenario_only_B n, mapped_out scenario_only_B n)) /\
    get_association_index scenario_tree scenario_only_B false (fun _ => 0%N) None
    = Done (association_index_direct scenario_only_B (ai_traversal scenario_tree None)).
Proof.
  apply (association_index_counts_leaves scenario_tree scenario_only_B (fun _ => 0%N) None).
  - apply (bool_decide_unpack _). vm_compute. exact I.
  - intros l Hl _. revert l Hl.
    apply (proj1 (Forall_forall
             (fun l => is_Some (scenario_only_B !! identifier l))
             (ai_traversal scenario_tree None))).
    vm_compute. repeat constructor; eexists; reflexivity.
Defined.

(** ** What [get_association_index] can end with *)

(** X8. Whatever the tree, the assignment map, the mode and the random
    numbers, [get_association_index] either returns or, without
    permutation only, divides by zero at a node none of whose leaves has
    an assignment: the exit for an internal child missing from the table
    is never taken, and in permutation mode the run always returns. *)
Theorem association_index_outcomes T assignments permute rand subroot :
  (exists ai, get_association_index T assignments permute rand subroot = Done ai) \/
  (permute = false /\
   get_association_index T assignments permute rand subroot = Abort DivisionByZero).
Proof.
  unfold get_association_index. destruct permute.
  - left. destruct (association_index_run_total T assignments true rand subroot)
      as (st & -> & _); [discriminate|]. eexists. reflexivity.
  - unfold association_index_run.
    destruct (ai_loop_outcome assignments rand 0 0 (rev (ai_traversal T subroot)) []
                (mkAiState F32.zero ∅ 0) (ai_traversal_children_first T subroot)
                tracked_empty) as [(st & -> & _)| ->].
    + left. eexists. reflexivity.
    + right. split; reflexivity.
Qed.

(** ** Nodes with leaves of one kind *)

Section Powers.
Local Open Scope Z_scope.

(** Rounding a mantissa that is already aligned keeps it, or overflows. *)
Lemma binary_round_aligned prec emax sx mx ex :
  fexp prec emax (Z.pos (digits2_pos mx) + ex) = ex ->
  binary_round prec emax sx mx ex
  = if ex <=? emax - prec then S754_finite sx mx ex else S754_infinity sx.
Proof.
  intros Hfexp. unfold binary_round, shl_align.
  rewrite Hfexp, Z.sub_diag. unfold binary_round_aux, shr_fexp. simpl Zdigits2.
  rewrite Hfexp, Z.sub_diag. simpl.
  rewrite Hfexp, Z.sub_diag. simpl. reflexivity.
Qed.

Lemma pow2_value k :
  F64.pow2 k = if (Z.of_N k <=? 1023) then S754_finite false 4503599627370496 (Z.of_N k - 52)
               else S754_infinity false.
Proof.
  unfold F64.pow2.
  change (F64.of_Z 1) with (S754_finite false 4503599627370496 (-52)).
  unfold SFldexp. rewrite binary_round_aligned.
  - change (F64.emax - F64.prec) with 971.
    replace (-52 + Z.of_N k) with (Z.of_N k - 52) by lia.
    destruct (Z.of_N k <=? 1023) eqn:H1; destruct (Z.of_N k - 52 <=? 971) eqn:H2;
      try reflexivity; lia.
  - change (Z.pos (digits2_pos 4503599627370496)) with 53. unfold fexp, SpecFloat.emin.
    change F64.prec with 53. change F64.emax with 1024. lia.
Qed.
End Powers.

(** The term of a node whose counted leaves are all of one kind is 0. *)
Lemma ai_term_one_kind k :
  (1 <= k)%N -> ai_term k 0 = S754_zero false /\ ai_term 0 k = S754_zero false.
Proof.
  intros Hk. unfold ai_term.
  rewrite N.add_0_r, N.add_0_l, N.max_0_r, N.max_0_l, N.div_same by lia.
  change (F64.of_size_t (size_t_sub 1 1)) with (S754_zero false).
  rewrite pow2_value. destruct (Z.of_N (size_t_sub k 1) <=? 1023)%Z; split; reflexivity.
Qed.

Lemma association_index_direct_zero assignments bfs :
  (forall n, n ∈ bfs -> is_leaf n = false ->
     ai_term (in_count assignments n) (mapped_out assignments n) = S754_zero false) ->
  association_index_direct assignments bfs = F32.zero.
Proof.
  intros Hzero. unfold association_index_direct.
  assert (Hrev : forall n, n ∈ rev bfs -> is_leaf n = false ->
            ai_term (in_count assignments n) (mapped_out assignments n) = S754_zero false).
  { intros n Hn. apply Hzero. apply list_elem_of_In, in_rev, list_elem_of_In in Hn. exact Hn. }
  clear Hzero. induction (rev bfs) as [|n l IH]; [reflexivity|]. simpl.
  destruct (is_leaf n) eqn:Hleaf.
  - apply IH. intros n' Hn'. apply Hrev. right. exact Hn'.
  - rewrite (Hrev n (list_elem_of_here _ _) Hleaf).
    change (F32.of_double (F64.add (F64.of_float F32.zero) (S754_zero false))) with F32.zero.
    apply IH. intros n' Hn'. apply Hrev. right. exact Hn'.
Qed.

Lemma count_filter_split {A : Type} (P : A -> bool) (l : list A) :
  (length (filter (fun x => P x = true) l)
   + length (filter (fun x => negb (P x) = true) l) = length l)%nat.
Proof.
  induction l as [|a l IH]; [reflexivity|]. rewrite !filter_cons.
  destruct (P a) eqn:Ha; simpl;
    repeat match goal with |- context [decide ?Q] => destruct (decide Q) end;
    simpl; try congruence; lia.
Qed.

(** The traversal holds the nodes below its nodes. *)
Lemma ai_traversal_closed T subroot n :
  forall d, n ∈ ai_traversal T subroot -> d ∈ depth_first_expansion n ->
  d ∈ ai_traversal T subroot.
Proof.
  induction n as [id muts clades cs IH] using Node_ind. intros d Hn Hd.
  rewrite depth_first_expansion_unfold in Hd. apply elem_of_cons in Hd as [->|Hd];
    [exact Hn|].
  simpl in Hd. apply elem_of_flat_map in Hd as (c & Hc & Hd).
  rewrite Forall_forall in IH. apply (IH c Hc d); [|exact Hd].
  assert (Hrev : mkNode id muts clades cs ∈ rev (ai_traversal T subroot)).
  { apply list_elem_of_In, in_rev. rewrite rev_involutive. apply list_elem_of_In, Hn. }
  destruct (children_first_closed _ _ _ c (ai_traversal_children_first T subroot) Hrev Hc)
    as [H|H]; [|inversion H].
  apply list_elem_of_In, in_rev, list_elem_of_In in H. exact H.
Qed.

(** X9. On a tree with distinct identifiers, when every leaf of the
    traversed subtree has an assignment and the confidences of the
    leaves are all above 0.5, or all at most 0.5, every internal node
    adds the term 0 and the association index returned is exactly 0. *)
Theorem association_index_of_one_kind T assignments rand subroot (kind : bool) :
  distinct_identifiers T ->
  (forall l, l ∈ ai_traversal T subroot -> is_leaf l = true ->
     exists v, assignments !! identifier l = Some v /\ gt_half v = kind) ->
  get_association_index T assignments false rand subroot = Done F32.zero.
Proof.
  intros Hnd Hkind.
  destruct (association_index_run_direct T assignments rand subroot Hnd)
    as (st & _ & _ & ->).
  { intros l Hl Hleaf. destruct (Hkind l Hl Hleaf) as (v & -> & _).
    eexists. reflexivity. }
  f_equal. apply association_index_direct_zero. intros n Hn Hint.
  assert (Hleaves : forall l, l ∈ leaves_of n ->
            exists v, assignments !! identifier l = Some v /\ gt_half v = kind).
  { intros l Hl. apply leaves_of_elem in Hl as [Hl Hleaf]. apply Hkind; [|exact Hleaf].
    eapply ai_traversal_closed; eassumption. }
  assert (Hne : (1 <= length (leaves_of n))%nat).
  { destruct (leaves_of_inhabited n) as [l Hl]. destruct (leaves_of n); [inversion Hl|].
    simpl. lia. }
  unfold in_count, mapped_out. destruct kind.
  - rewrite (filter_all _ (leaves_of n)), (filter_none _ (leaves_of n)).
    + apply ai_term_one_kind. lia.
    + apply Forall_forall. intros l Hl. destruct (Hleaves l Hl) as (v & -> & ->). discriminate.
    + apply Forall_forall. intros l Hl. destruct (Hleaves l Hl) as (v & -> & ->). reflexivity.
  - rewrite (filter_none _ (leaves_of n)), (filter_all _ (leaves_of n)).
    + apply ai_term_one_kind. lia.
    + apply Forall_forall. intros l Hl. destruct (Hleaves l Hl) as (v & -> & ->). reflexivity.
    + apply Forall_forall. intros l Hl. destruct (Hleaves l Hl) as (v & -> & ->). discriminate.
Qed.

Definition scenario_all_in : gmap string spec_float :=
  match get_assignments scenario_tree (list_to_set ["A"; "B"; "C"; "D"]) with
  | Done assignments => assignments
  | Abort _ => ∅
  end.

Lemma association_index_of_one_kind_witness :
  get_association_index scenario_tree scenario_all_in false (fun _ => 0%N) None
  = Done F32.zero.
Proof.
  apply (association_index_of_one_kind scenario_tree scenario_all_in (fun _ => 0%N) None true).
  - apply (bool_decide_unpack _). vm_compute. exact I.
  - intros l Hl _.
    assert (Hall : forallb (fun l => match scenario_all_in !! identifier l with
                                     | Some v => gt_half v
                                     | None => false
                                     end) (ai_traversal scenario_tree None) = true).
    { vm_compute. reflexivity. }
    pose proof (proj1 (forallb_forall _ _) Hall l (proj1 (list_elem_of_In _ _) Hl)) as Hl'.
    cbv beta in Hl'. destruct (scenario_all_in !! identifier l) as [v|]; [|discriminate].
    exists v. split; [reflexivity | exact Hl'].
Defined.

(** ** The index of origins *)

(** The regions in which a node has a confidence above the threshold,
    with that confidence, in the order of the regions. *)
Definition origins_of (region_assignments : list (string * gmap string spec_float))
    (min_origin_confidence : spec_float) (id : string) : list (string * spec_float) :=
  omap (fun ra =>
          match snd ra !! id with
          | Some v => if F32.gtb v min_origin_confidence then Some (fst ra, v) else None
          | None => None
          end) region_assignments.

(** A vector that is there once something was pushed on it. *)
Definition pushed {V : Type} (o : option (list V)) (vs : list V) : option (list V) :=
  match vs with
  | [] => o
  | _ => Some (default [] o ++ vs)
  end.

Lemma pushed_app {V : Type} (o : option (list V)) (vs ws : list V) :
  pushed (pushed o vs) ws = pushed o (vs ++ ws).
Proof.
  destruct vs as [|v vs]; [reflexivity|]. destruct ws as [|w ws].
  - rewrite app_nil_r. reflexivity.
  - simpl. rewrite <- app_assoc. reflexivity.
Qed.

Section OriginIndex.
Variable min_origin_confidence : spec_float.
Variable id : string.

Definition index_step (region : string)
    (idx : gmap string (list spec_float) * gmap string (list string))
    (ass : string * spec_float)
  : gmap string (list spec_float) * gmap string (list string) :=
  let '(region_cons, region_ins) := idx in
  if F32.gtb (snd ass) min_origin_confidence
  then (push_back region_cons (fst ass) (snd ass), push_back region_ins (fst ass) region)
  else (region_cons, region_ins).

(** What one region's entries push for the node [id]. *)
Definition hits (l : list (string * spec_float)) : list spec_float :=
  omap (fun ass => if decide (fst ass = id)
                   then if F32.gtb (snd ass) min_origin_confidence then Some (snd ass) else None
                   else None) l.

Lemma hits_cons k v l :
  hits ((k, v) :: l)
  = (if decide (k = id)
     then if F32.gtb v min_origin_confidence then [v] else []
     else []) ++ hits l.
Proof.
  unfold hits. simpl. destruct (decide (k = id)); [|reflexivity].
  destruct (F32.gtb v min_origin_confidence); reflexivity.
Qed.

Lemma index_region_fold region f l :
  (forall idx ass, f idx ass = index_step region idx ass) ->
  forall idx,
  fst (fold_left f l idx) !! id = pushed (fst idx !! id) (hits l) /\
  snd (fold_left f l idx) !! id
  = pushed (snd idx !! id) (map (fun _ => region) (hits l)).
Proof.
  intros Hf. induction l as [|[k v] l IH]; intros [rc ri]; [split; reflexivity|].
  simpl fold_left. rewrite Hf.
  destruct (IH (index_step region (rc, ri) (k, v))) as [H1 H2].
  rewrite H1, H2. clear H1 H2 IH. rewrite hits_cons.
  unfold index_step. simpl fst. simpl snd.
  destruct (decide (k = id)) as [->|Hne].
  - destruct (F32.gtb v min_origin_confidence); [|split; reflexivity].
    simpl fst. simpl snd. unfold push_back. rewrite !lookup_insert_eq.
    split.
    + rewrite <- (pushed_app (rc !! id) [v] (hits l)). reflexivity.
    + rewrite map_app, <- (pushed_app (ri !! id) (map (fun _ => region) [v])). reflexivity.
  - destruct (F32.gtb v min_origin_confidence); [|split; reflexivity].
    simpl fst. simpl snd. unfold push_back. rewrite !lookup_insert_ne by exact Hne.
    split; reflexivity.
Qed.

(** A map names a node once. *)
Lemma hits_of_map (m : gmap string spec_float) :
  hits (map_to_list m)
  = match m !! id with
    | Some v => if F32.gtb v min_origin_confidence then [v] else []
    | None => []
    end.
Proof.
  pose proof (NoDup_fst_map_to_list m) as Hnd.
  assert (Hin : forall v, (id, v) ∈ map_to_list m <-> m !! id = Some v).
  { intros v. apply elem_of_map_to_list. }
  revert Hnd Hin. generalize (map_to_list m). intros l Hnd Hin.
  assert (Hgen : hits l = match list_find (fun ass => fst ass = id) l with
                          | Some (_, ass) =>
                            if F32.gtb (snd ass) min_origin_confidence then [snd ass] else []
                          | None => []
                          end).
  { clear Hin. induction l as [|[k v] l IH]; [reflexivity|].
    simpl in Hnd. apply NoDup_cons in Hnd as [Hk Hnd]. rewrite hits_cons. simpl.
    destruct (decide (k = id)) as [->|Hne].
    - assert (Hrest : hits l = []).
      { clear -Hk. induction l as [|[k' v'] l IH]; [reflexivity|]. rewrite hits_cons.
        destruct (decide (k' = id)) as [->|Hne]; [exfalso; apply Hk; left|].
        apply IH. intros H. apply Hk. right. exact H. }
      rewrite Hrest, app_nil_r. reflexivity.
    - rewrite (IH Hnd). simpl.
      destruct (list_find (fun ass => fst ass = id) l) as [[i ass]|]; reflexivity. }
  rewrite Hgen. destruct (list_find (fun ass => fst ass = id) l) as [[i [k v]]|] eqn:Hfind.
  - apply list_find_Some in Hfind as (Hi & Hk & _). simpl in Hk. subst k.
    rewrite (proj1 (Hin v) (list_elem_of_lookup_2 _ _ _ Hi)). reflexivity.
  - destruct (m !! id) as [v|] eqn:Hm; [|reflexivity]. exfalso.
    apply list_find_None in Hfind. rewrite Forall_forall in Hfind.
    apply (Hfind (id, v) (proj2 (Hin v) eq_refl)). reflexivity.
Qed.

Lemma origin_index_fold (region_assignments : list (string * gmap string spec_float)) :
  forall idx,
  let idx' :=
    fold_left
      (fun idx ra =>
         fold_left
           (fun '(region_cons, region_ins) ass =>
              if F32.gtb (snd ass) min_origin_confidence
              then (push_back region_cons (fst ass) (snd ass),
                    push_back region_ins (fst ass) (fst ra))
              else (region_cons, region_ins))
           (map_to_list (snd ra)) idx)
      region_assignments idx in
  fst idx' !! id
  = pushed (fst idx !! id) (map snd (origins_of region_assignments min_origin_confidence id)) /\
  snd idx' !! id
  = pushed (snd idx !! id) (map fst (origins_of region_assignments min_origin_confidence id)).
Proof.
  induction region_assignments as [|[r m] ras IH]; intros idx; [split; reflexivity|].
  simpl fold_left. cbv zeta in IH |- *.
  match goal with |- context [fold_left _ ras ?i] => destruct (IH i) as [H1 H2] end.
  rewrite H1, H2. clear H1 H2.
  match goal with
  | |- context [fold_left ?f (map_to_list m) idx] =>
    destruct (index_region_fold r f (map_to_list m)
                ltac:(intros [? ?] ?; reflexivity) idx) as [H1 H2]
  end.
  rewrite H1, H2, !pushed_app, hits_of_map. unfold origins_of. simpl.
  destruct (m !! id) as [v|]; [|split; reflexivity].
  destruct (F32.gtb v min_origin_confidence); split; reflexivity.
Qed.
End OriginIndex.

(** X10. The index of origins built by [find_introductions] holds, for
    a node, the regions in which the node has a confidence above the
    threshold, in the order of the regions, and beside them, in the same
    order, the confidences; a node that has no such region has no
    entry. *)
Theorem origin_index_lists_regions region_assignments min_origin_confidence id :
  let origins := origins_of region_assignments min_origin_confidence id in
  fst (origin_index region_assignments min_origin_confidence) !! id
  = (match origins with [] => None | _ => Some (map snd origins) end) /\
  snd (origin_index region_assignments min_origin_confidence) !! id
  = (match origins with [] => None | _ => Some (map fst origins) end).
Proof.
  intros origins. unfold origin_index.
  destruct (origin_index_fold min_origin_confidence id region_assignments (∅, ∅)) as [H1 H2].
  cbv zeta in H1, H2. rewrite H1, H2. simpl fst. simpl snd. rewrite !lookup_empty.
  fold origins. destruct origins; split; reflexivity.
Qed.

(** ** The origins columns *)

Lemma string_append_cons c (x y : string) : (String c x ++ y = String c (x ++ y))%string.
Proof. reflexivity. Qed.

Lemma string_length_append (x y : string) :
  String.length (x ++ y)%string = (String.length x + String.length y)%nat.
Proof.
  induction x as [|c x IH]; [reflexivity|]. rewrite string_append_cons. simpl.
  f_equal. exact IH.
Qed.

Lemma string_append_assoc (x y z : string) :
  ((x ++ y) ++ z = x ++ (y ++ z))%string.
Proof.
  induction x as [|c x IH]; [reflexivity|]. rewrite !string_append_cons. f_equal. exact IH.
Qed.

Lemma string_append_nil_r (x : string) : (x ++ "")%string = x.
Proof.
  induction x as [|c x IH]; [reflexivity|]. rewrite string_append_cons. f_equal. exact IH.
Qed.

Lemma string_concat_cons (x : string) (l : list string) :
  String.concat "" (x :: l) = (x ++ String.concat "" l)%string.
Proof. destruct l; simpl; [rewrite string_append_nil_r|]; reflexivity. Qed.

Lemma string_length_zero (x : string) : String.length x = 0%nat <-> x = "".
Proof. destruct x; simpl; split; congruence. Qed.

(** Appending names that are not empty, with commas between them. *)
Lemma comma_fold (rs : list string) :
  Forall (fun r => r <> "") rs ->
  forall x,
  fold_left comma_append rs x
  = match rs with
    | [] => x
    | _ => if (String.length x =? 0)%nat then String.concat "," rs
           else (x ++ "," ++ String.concat "," rs)%string
    end.
Proof.
  induction 1 as [|r rs Hr Hrs IH]; intros x; [reflexivity|].
  simpl fold_left. rewrite IH. unfold comma_append.
  assert (Hlen : forall y, (String.length (y ++ r)%string =? 0)%nat = false).
  { intros y. apply Nat.eqb_neq. rewrite string_length_append.
    destruct r; [congruence | simpl; lia]. }
  destruct (String.length x =? 0)%nat eqn:Hx.
  - apply Nat.eqb_eq, string_length_zero in Hx. subst x. simpl append.
    destruct rs as [|r' rs]; [reflexivity|].
    rewrite (Hlen ""). reflexivity.
  - destruct rs as [|r' rs]; [reflexivity|].
    assert (Hlen' : (String.length (x ++ "," ++ r)%string =? 0)%nat = false).
    { rewrite <- string_append_assoc. apply Hlen. }
    rewrite Hlen'. rewrite ?string_append_assoc. reflexivity.
Qed.

Lemma concat_not_empty (r : string) (rs : list string) :
  r <> "" -> String.concat "," (r :: rs) <> "".
Proof.
  intros Hr. destruct rs; simpl; [exact Hr|].
  destruct r; [congruence | discriminate].
Qed.

Lemma origins_of_regions region_assignments min_origin_confidence id :
  Forall (fun ra => fst ra <> "") region_assignments ->
  Forall (fun r => r <> "") (map fst (origins_of region_assignments min_origin_confidence id)).
Proof.
  induction 1 as [|[r m] ras Hr Hras IH]; [constructor|]. unfold origins_of. simpl.
  destruct (m !! id) as [v|]; [|exact IH].
  destruct (F32.gtb v min_origin_confidence); [|exact IH].
  simpl. constructor; [exact Hr | exact IH].
Qed.

(** X11. For a stopping node that is not the root, with several
    regions named by non-empty strings, the origins column of
    [find_introductions] is the comma-separated list of the regions in
    which the node has a confidence above the threshold, in region
    order, and the origins_confidence column streams the confidences
    there in the same order, each followed by a comma; when there is no
    such region the columns are [indeterminate] and the literal 0.0, as
    they are whenever the stopping node is the root or there is a single
    region. *)
Theorem origins_columns_list_regions region_assignments min_origin_confidence a :
  Forall (fun ra => fst ra <> "") region_assignments ->
  let region_cons := fst (origin_index region_assignments min_origin_confidence) in
  let region_ins := snd (origin_index region_assignments min_origin_confidence) in
  origins_columns true false region_cons region_ins a
  = match origins_of region_assignments min_origin_confidence (identifier a) with
    | [] => ("indeterminate", [ZeroLiteral])
    | origins => (String.concat "," (map fst origins),
                  map ConfidenceComma (map snd origins))
    end /\
  forall multi_region a_is_root,
    multi_region && negb a_is_root = false ->
    origins_columns multi_region a_is_root region_cons region_ins a
    = ("indeterminate", [ZeroLiteral]).
Proof.
  intros Hnames region_cons region_ins. split.
  - unfold origins_columns. simpl andb. cbv iota.
    destruct (origin_index_fold min_origin_confidence (identifier a) region_assignments (∅, ∅))
      as [H1 H2].
    cbv zeta in H1, H2. cbn [fst snd] in H1, H2.
    rewrite lookup_empty in H1. rewrite lookup_empty in H2.
    subst region_cons region_ins. unfold origin_index. rewrite H1, H2.
    pose proof (origins_of_regions region_assignments min_origin_confidence (identifier a)
                  Hnames) as Hne.
    destruct (origins_of region_assignments min_origin_confidence (identifier a))
      as [|[r v] os]; [reflexivity|].
    simpl pushed. cbv iota. rewrite (comma_fold _ Hne). simpl map in *.
    change (String.length "" =? 0)%nat with true. cbv iota.
    apply Forall_cons in Hne as [Hr _].
    pose proof (concat_not_empty r (map fst os) Hr) as Hc.
    destruct (String.length (String.concat "," (r :: map fst os)) =? 0)%nat eqn:Hlen;
      [|reflexivity].
    apply Nat.eqb_eq, string_length_zero in Hlen. congruence.
  - intros multi_region a_is_root Hno. unfold origins_columns. rewrite Hno. reflexivity.
Qed.

Definition two_regions : list (string * gmap string spec_float) :=
  [("north", scenario_only_B); ("south", scenario_all_in)].

Lemma origins_columns_list_regions_witness :
  origins_columns true false
    (fst (origin_index two_regions F32.half)) (snd (origin_index two_regions F32.half))
    scenario_X
  = ("south", [ConfidenceComma F32.one]).
Proof.
  apply (proj1 (origins_columns_list_regions two_regions F32.half scenario_X
                  ltac:(repeat constructor; discriminate))).
Defined.

(** ** The statistics of a row are computed once for a stopping node *)

(** X12. Under add-info the statistics of a row are recorded under the
    identifier of the node where the walk stopped: once a row has been
    given the clade size and the association index for a stopping node,
    every later row of the region that stops at a node with that
    identifier is given the same two values, whatever the subtree its
    own walk came up through, and the record is not changed; with
    nothing recorded yet, the values are those of the subtree of the
    walk's last node. *)
Theorem statistics_are_recorded_once T assignments a last c mc ai c' :
  additional_info T assignments a last c = Done (mc, ai, c') ->
  (forall a' last', identifier a' = identifier a ->
     additional_info T assignments a' last' c' = Done (mc, ai, c')) /\
  (recorded_mc c !! identifier a = None ->
   mc = get_monophyletic_cladesize T assignments last) /\
  (recorded_ai c !! identifier a = None ->
   get_association_index T assignments false (fun _ => 0%N) last = Done ai) /\
  (forall id, id <> identifier a ->
     recorded_mc c' !! id = recorded_mc c !! id /\
     recorded_ai c' !! id = recorded_ai c !! id).
Proof.
  unfold additional_info. intros Hrun.
  destruct (recorded_mc c !! identifier a) as [mc0|] eqn:Hmc;
    destruct (recorded_ai c !! identifier a) as [ai0|] eqn:Hai;
    try (destruct (get_association_index T assignments false (fun _ => 0%N) last)
           as [ai1|f] eqn:Hrun_ai; simpl in Hrun; [|discriminate]);
    injection Hrun as <- <- <-; simpl;
    (split; [intros a' last' ->; rewrite ?lookup_insert_eq, ?Hmc, ?Hai; simpl;
             rewrite ?insert_insert_eq, ?insert_id by assumption;
             try reflexivity|]);
    (split; [first [discriminate | reflexivity | intros _; reflexivity]|]);
    (split; [first [discriminate | reflexivity | intros _; reflexivity]|]);
    intros id Hid; rewrite ?lookup_insert_ne by congruence; split; reflexivity.
Qed.

Lemma statistics_are_recorded_once_witness :
  exists mc ai c',
    additional_info scenario_tree scenario_only_B scenario_X
      (get_node scenario_tree "Y") (mkCaches ∅ ∅) = Done (mc, ai, c') /\
    additional_info scenario_tree scenario_only_B scenario_X
      (get_node scenario_tree "D") c' = Done (mc, ai, c').
Proof.
  destruct (additional_info scenario_tree scenario_only_B scenario_X
              (get_node scenario_tree "Y") (mkCaches ∅ ∅)) as [[[mc ai] c']|f] eqn:Hrun;
    [|vm_compute in Hrun; discriminate].
  exists mc, ai, c'. split; [reflexivity|].
  apply (proj1 (statistics_are_recorded_once _ _ _ _ _ _ _ _ Hrun)). reflexivity.
Defined.

(** ** The columns of a row *)

Section RowShape.
Variable T : Tree.
Variable region_count : nat.
Variable region_cons : gmap string (list spec_float).
Variable region_ins : gmap string (list string).
Variable add_info : bool.
Variable theta : spec_float.
Variable region : string.
Variable assignments : gmap string spec_float.

(** The columns a row has beside the seven that are always there. *)
Definition row_shape (row : introduction_row) : Prop :=
  (if (region_count =? 1)%nat then row_region_columns row = None
   else exists origins origins_cons,
          row_region_columns row = Some (region, origins, origins_cons) /\
          origins <> "") /\
  (if add_info then is_Some (row_additional_info row)
   else row_additional_info row = None) /\
  row_clades row <> "".

Lemma origins_columns_not_empty multi_region a_is_root a :
  fst (origins_columns multi_region a_is_root region_cons region_ins a) <> "".
Proof.
  unfold origins_columns.
  destruct (if multi_region && negb a_is_root then _ else _) as [origins origins_cons].
  destruct (String.length origins =? 0)%nat eqn:Hlen; simpl; [discriminate|].
  apply Nat.eqb_neq in Hlen. intros ->. apply Hlen. reflexivity.
Qed.

Lemma clades_not_empty path : fst (clades_and_path path) <> "".
Proof.
  unfold clades_and_path. destruct (fold_left _ path ("", "")) as [clades mut_path].
  destruct (String.length clades =? 0)%nat eqn:Hlen; simpl; [discriminate|].
  apply Nat.eqb_neq in Hlen. intros ->. apply Hlen. reflexivity.
Qed.

Lemma emit_row_shape s a a_is_root le st anc c row c' :
  emit_row T region_count region_cons region_ins add_info region assignments
    s a a_is_root le st anc c = Done (row, c') ->
  row_shape row.
Proof.
  unfold emit_row, row_shape.
  pose proof (origins_columns_not_empty (1 <? region_count)%nat a_is_root a) as Ho.
  pose proof (clades_not_empty (rsearch T (identifier a))) as Hc.
  destruct (origins_columns _ _ _ _ _) as [origins origins_cons].
  destruct (clades_and_path _) as [intro_clades intro_mut_path].
  destruct add_info.
  - destruct (additional_info T assignments a (last_node st) c) as [[[mc ai] c1]|f];
      simpl; [|discriminate].
    intros [= <- _]. simpl. split; [|split; [exact (ex_intro _ _ eq_refl) | exact Hc]].
    destruct (region_count =? 1)%nat; [reflexivity|].
    exists origins, origins_cons. split; [reflexivity | exact Ho].
  - simpl. intros [= <- _]. simpl. split; [|split; [reflexivity | exact Hc]].
    destruct (region_count =? 1)%nat; [reflexivity|].
    exists origins, origins_cons. split; [reflexivity | exact Ho].
Qed.

Lemma introduction_walk_shape s path :
  forall st c rows c',
  introduction_walk T region_count region_cons region_ins add_info theta region assignments
    s path st c = Done (rows, c') ->
  Forall row_shape rows.
Proof.
  induction path as [|a rest IH]; intros st c rows c' Hrun; simpl in Hrun.
  - injection Hrun as <- <-. constructor.
  - match type of Hrun with
    | context [mbind _ ?o] => destruct o as [anc|f]; simpl in Hrun; [|discriminate]
    end.
    destruct (F32.ltb anc theta).
    + match type of Hrun with
      | context [mbind _ ?o] => destruct o as [[row c1]|f] eqn:Hemit; simpl in Hrun;
                                  [|discriminate]
      end.
      injection Hrun as <- <-. constructor; [|constructor].
      eapply emit_row_shape, Hemit.
    + eapply IH, Hrun.
Qed.

Lemma walk_region_shape samples rows :
  walk_region T region_count region_cons region_ins add_info theta region assignments samples
  = Done rows ->
  Forall row_shape rows.
Proof.
  intros Hrun. destruct (walk_region_done _ _ _ _ _ _ _ _ _ _ Hrun) as (rowss & -> & Hall).
  apply Forall_forall. intros row Hrow.
  apply elem_of_concat in Hrow as (rs & Hrow & Hrs).
  apply list_elem_of_lookup in Hrs as (i & Hi).
  destruct (Forall2_lookup_r _ _ _ _ _ Hall Hi) as (s & _ & c & c' & Hwalk).
  unfold walk_sample in Hwalk. apply introduction_walk_shape in Hwalk.
  rewrite Forall_forall in Hwalk. apply Hwalk, Hrow.
Qed.
End RowShape.

(** X13. Every row [find_introductions] returns has the columns of the
    header: the region, origins and origins_confidence columns are
    there exactly when the number of regions is not 1, and the
    statistics columns exactly under add-info; the region column names
    a region of the input whose samples hold the sample of the row, and
    neither the origins nor the clades column is ever empty. *)
Theorem rows_have_the_columns_of_the_header T sample_regions add_info clade_output rand theta out row :
  find_introductions T sample_regions add_info clade_output rand theta = Done out ->
  Row row ∈ out ->
  (row_region_columns row = None <-> length sample_regions = 1%nat) /\
  (row_additional_info row = None <-> add_info = false) /\
  (forall region origins origins_cons,
     row_region_columns row = Some (region, origins, origins_cons) ->
     region ∈ map fst sample_regions /\ origins <> "" /\
     row_sample row ∈ samples_of sample_regions region) /\
  row_clades row <> "".
Proof.
  intros Hrun Hrow.
  destruct (find_introductions_done _ _ _ _ _ _ _ Hrun) as (ras & rowss & Hras & -> & Hall).
  apply elem_of_cons in Hrow as [Hrow|Hrow]; [discriminate|].
  apply elem_of_map in Hrow as (row' & [= <-] & Hrow).
  apply elem_of_concat in Hrow as (rs & Hrow & Hrs).
  apply list_elem_of_lookup in Hrs as (i & Hi).
  destruct (Forall2_lookup_r _ _ _ _ _ Hall Hi) as (ra & Hra & Hwalk).
  destruct (Forall2_lookup_r _ _ _ _ _ Hras Hra) as (ms & Hms & Hfst & _).
  pose proof (Forall2_length _ _ _ Hras) as Hlen.
  pose proof (walk_region_shape _ _ _ _ _ _ _ _ _ _ Hwalk) as Hshape.
  pose proof (walk_region_rows _ _ _ _ _ _ _ _ _ _ _ Hwalk Hrow) as [Hsample _].
  rewrite Forall_forall in Hshape. destruct (Hshape row Hrow) as (Hregion & Hinfo & Hclades).
  rewrite <- Hlen in Hregion.
  split; [|split; [|split; [|exact Hclades]]].
  - destruct (length sample_regions =? 1)%nat eqn:Hone.
    + apply Nat.eqb_eq in Hone. split; intros _; assumption.
    + apply Nat.eqb_neq in Hone. destruct Hregion as (o & oc & Hsome & _).
      rewrite Hsome. split; [discriminate | contradiction].
  - destruct add_info.
    + destruct Hinfo as [x Hx]. rewrite Hx. split; discriminate.
    + split; [reflexivity | intros _; exact Hinfo].
  - intros region origins origins_cons Hsome.
    destruct (length sample_regions =? 1)%nat; [congruence|].
    destruct Hregion as (o & oc & Hsome' & Ho). rewrite Hsome in Hsome'.
    injection Hsome' as -> -> ->. split; [|split; [exact Ho | exact Hsample]].
    rewrite Hfst. apply elem_of_map. exists ms. split; [reflexivity|].
    apply list_elem_of_lookup. exists i. exact Hms.
Qed.

Lemma rows_have_the_columns_of_the_header_witness :
  exists out row,
    find_introductions scenario_tree [("north", ["B"]); ("south", ["D"])] true "" no_rand F32.half
    = Done out /\
    Row row ∈ out /\
    (row_region_columns row = None
     <-> length [("north", ["B"]); ("south", ["D"])] = 1%nat) /\
    (row_additional_info row = None <-> true = false) /\
    (forall region origins origins_cons,
       row_region_columns row = Some (region, origins, origins_cons) ->
       region ∈ map fst [("north", ["B"]); ("south", ["D"])] /\ origins <> "" /\
       row_sample row ∈ samples_of [("north", ["B"]); ("south", ["D"])] region) /\
    row_clades row <> "".
Proof.
  eexists _, _. split; [vm_compute; reflexivity|].
  split; [apply list_elem_of_further, list_elem_of_here|].
  eapply (rows_have_the_columns_of_the_header scenario_tree
            [("north", ["B"]); ("south", ["D"])] true "" no_rand F32.half).
  - vm_compute. reflexivity.
  - apply list_elem_of_further, list_elem_of_here.
Defined.

(** ** What [find_introductions] can end with *)

Lemma rsearch_elem T s a : a ∈ rsearch T s -> a ∈ depth_first_expansion (root T).
Proof.
  unfold rsearch. destruct (rsearch_in s (root T)) as [p|] eqn:Hp; [|intros H; inversion H].
  destruct (rsearch_in_some _ _ _ Hp) as (_ & _ & Hsub). apply Hsub.
Qed.

Section WalkerReturns.
Variable T : Tree.
Variable region_count : nat.
Variable region_cons : gmap string (list spec_float).
Variable region_ins : gmap string (list string).
Variable add_info : bool.
Variable theta : spec_float.
Variable region : string.
Variable assignments : gmap string spec_float.
Hypothesis assigned_everywhere : covers assignments T.

(** On assigned nodes the walk returns, whatever the threshold. *)
Lemma introduction_walk_returns s path :
  (forall a, a ∈ path -> a ∈ depth_first_expansion (root T)) ->
  forall st c, exists rows c',
    introduction_walk T region_count region_cons region_ins add_info theta region assignments
      s path st c = Done (rows, c').
Proof.
  induction path as [|a rest IH]; intros Hin st c; [eexists _, _; reflexivity|].
  simpl.
  assert (Hanc : exists anc,
            (if match rest with [] => true | _ => false end then Done F32.zero
             else match assignments !! identifier a with
                  | Some v => Done v
                  | None => Abort UnassignedNode
                  end) = Done anc).
  { destruct rest; [eexists; reflexivity|].
    destruct (assigned_everywhere a (Hin a (list_elem_of_here _ _))) as [v ->].
    eexists; reflexivity. }
  destruct Hanc as [anc ->]. rewrite bind_done. destruct (F32.ltb anc theta).
  - match goal with
    | |- context [emit_row ?T ?n ?rc ?ri ?ai ?r ?A ?s ?a ?b ?le ?st ?anc ?c] =>
      destruct (emit_row_total T n rc ri ai r A assigned_everywhere s a b le st anc c)
        as [[row c'] ->]
    end.
    eexists _, _. reflexivity.
  - apply IH. intros a' Ha'. apply Hin. right. exact Ha'.
Qed.

Lemma walk_region_returns samples :
  exists rows,
    walk_region T region_count region_cons region_ins add_info theta region assignments samples
    = Done rows.
Proof.
  unfold walk_region.
  destruct (for_each_total
              (fun '(rows, c) s =>
                 rc ← walk_sample T region_count region_cons region_ins add_info theta
                        region assignments s c;
                 Done (rows ++ fst rc, snd rc))
              samples) with (s := (@nil introduction_row, mkCaches ∅ ∅)) as [res ->].
  - intros [rows c] s _. unfold walk_sample.
    destruct (introduction_walk_returns s (rsearch T s) (fun a => rsearch_elem T s a)
                (mkWalk s None F32.one 0%N) c) as (rs & c' & ->).
    eexists. reflexivity.
  - eexists. reflexivity.
Qed.
End WalkerReturns.

Lemma get_assignments_abort T sample_set f :
  get_assignments T sample_set = Abort f -> exists d, f = InvalidAssignment d.
Proof.
  intros Hrun. destruct (for_each_abort _ _ _ _ Hrun) as (A & n & _ & Hstep).
  unfold assign_step in Hstep.
  destruct (node_assignment T sample_set n) as [c|f'] eqn:Hc; simpl in Hstep;
    [discriminate|].
  injection Hstep as ->.
  destruct (node_assignment_abort _ _ _ _ Hc) as (mi & mo & ils & ols & _ & Hab).
  destruct (rule4_confidence_abort _ _ _ _ _ Hab) as [-> _]. eexists. reflexivity.
Qed.

Lemma find_introductions_abort T sample_regions add_info clade_output rand theta f :
  find_introductions T sample_regions add_info clade_output rand theta = Abort f ->
  exists ms d,
    ms ∈ sample_regions /\
    get_assignments T (list_to_set (snd ms)) = Abort f /\
    f = InvalidAssignment d.
Proof.
  intros Hrun. unfold find_introductions in Hrun.
  destruct (for_each (assign_region T add_info rand) sample_regions [])
    as [ras|f'] eqn:Hras; simpl in Hrun.
  - exfalso.
    destruct (assign_regions_done _ _ _ _ _ _ Hras) as (news & Heq & Hnews).
    simpl in Heq. subst news.
    destruct (clade_table_returns T clade_output ras (assigned_regions_cover _ _ _ Hnews))
      as [table Htable].
    rewrite Htable, bind_done in Hrun.
    destruct (origin_index ras theta) as [region_cons region_ins].
    destruct (for_each_abort _ _ _ _ Hrun) as (outstrs & ra & Hra & Hstep).
    apply list_elem_of_lookup in Hra as (i & Hi).
    destruct (Forall2_lookup_r _ _ _ _ _ Hnews Hi) as (ms & _ & _ & HA).
    destruct (walk_region_returns T (length ras) region_cons region_ins add_info theta
                (fst ra) (snd ra) (get_assignments_covers _ _ _ HA)
                (samples_of sample_regions (fst ra))) as [rows Hrows].
    rewrite Hrows in Hstep. discriminate.
  - injection Hrun as ->.
    destruct (for_each_abort _ _ _ _ Hras) as (acc & ms & Hms & Hstep).
    unfold assign_region in Hstep.
    destruct (get_assignments T (list_to_set (snd ms))) as [A|f'] eqn:HA; simpl in Hstep.
    + exfalso. destruct add_info; [|discriminate].
      rewrite (region_statistics_total T A rand (get_assignments_covers _ _ _ HA)) in Hstep.
      discriminate.
    + injection Hstep as ->. destruct (get_assignments_abort _ _ _ HA) as [d ->].
      exists ms, d. repeat split; assumption.
Qed.

Lemma find_introductions_returns T sample_regions add_info clade_output rand theta :
  fits_size_t T ->
  exists out, find_introductions T sample_regions add_info clade_output rand theta = Done out.
Proof.
  intros Hfits.
  destruct (find_introductions T sample_regions add_info clade_output rand theta) as [out|f] eqn:Hrun;
    [eexists; reflexivity|]. exfalso.
  destruct (find_introductions_abort _ _ _ _ _ _ _ Hrun) as (ms & d & _ & HA & _).
  destruct (get_assignments_total T (list_to_set (snd ms)) Hfits) as [A HA']. congruence.
Qed.

(** X14. The only way [find_introductions] ends the process is the NaN
    diagnostic of [get_assignments] for one of the regions: the table
    of clade regions, which [record_clade_regions] writes from the maps
    of the first loop when a file is named, never looks up a node that
    a map lacks, the walks never meet a node without an assignment, and
    the statistics never divide by zero and never miss an internal
    child. On a tree that fits [size_t] the function therefore returns,
    for every threshold, every list of regions and with or without the
    table. *)
Theorem find_introductions_failures T sample_regions add_info clade_output rand theta :
  (forall f,
     find_introductions T sample_regions add_info clade_output rand theta = Abort f ->
     exists ms d,
       ms ∈ sample_regions /\
       get_assignments T (list_to_set (snd ms)) = Abort f /\
       f = InvalidAssignment d) /\
  (forall region_assignments,
     for_each (assign_region T add_info rand) sample_regions [] = Done region_assignments ->
     exists table, record_clade_regions T region_assignments = Done table) /\
  (fits_size_t T ->
   exists out, find_introductions T sample_regions add_info clade_output rand theta = Done out).
Proof.
  split; [apply find_introductions_abort|].
  split; [|apply find_introductions_returns].
  intros ras Hras.
  destruct (assign_regions_done _ _ _ _ _ _ Hras) as (news & Heq & Hnews).
  simpl in Heq. subst news.
  apply record_clade_regions_returns, (assigned_regions_cover _ _ _ Hnews).
Qed.

Lemma find_introductions_failures_witness :
  exists out,
    find_introductions scenario_tree [("north", ["B"]); ("south", ["D"; "Z"])] true
      "clades.tsv" no_rand (F32.of_Z (-1)) = Done out.
Proof.
  apply (proj2 (proj2 (find_introductions_failures scenario_tree
                  [("north", ["B"]); ("south", ["D"; "Z"])] true "clades.tsv" no_rand
                  (F32.of_Z (-1))))).
  split; vm_compute; reflexivity.
Defined.

(** ** A threshold that is not above 0 *)

Lemma get_assignments_unit_interval T sample_set assignments :
  get_assignments T sample_set = Done assignments ->
  forall id v, assignments !! id = Some v -> in_unit_interval v.
Proof.
  unfold get_assignments.
  apply (for_each_invariant (assign_step T sample_set)
           (fun A => forall id v, A !! id = Some v -> in_unit_interval v)).
  - intros A n A' _ HA. unfold assign_step.
    destruct (node_assignment T sample_set n) as [c|f] eqn:Hc; simpl; [|discriminate].
    intros [= <-] id v. rewrite lookup_insert.
    destruct (decide (identifier n = id)).
    + intros [= <-]. eapply node_assignment_in_unit_interval, Hc.
    + apply HA.
  - intros id v. rewrite lookup_empty. discriminate.
Qed.

(** What is below the threshold and not below 0 puts the threshold
    above 0. *)
Lemma below_threshold_positive v theta :
  F32.leb F32.zero v = true -> F32.ltb v theta = true -> F32.ltb F32.zero theta = true.
Proof.
  unfold F32.leb, F32.ltb, SFleb, SFltb, F32.zero.
  destruct v as [sv|sv| |sv mv ev], theta as [st|st| |st mt et]; simpl;
    repeat match goal with b : bool |- _ => destruct b end; simpl; try congruence.
Qed.

(** X15. With a threshold that is not above 0 (0, a negative number or
    NaN) no walk ever stops, the root included, and [find_introductions]
    returns the header alone. *)
Theorem no_row_without_positive_threshold T sample_regions add_info clade_output rand theta out :
  F32.ltb F32.zero theta = false ->
  find_introductions T sample_regions add_info clade_output rand theta = Done out ->
  out = [Header (header_line (length sample_regions =? 1)%nat add_info)].
Proof.
  intros Htheta Hrun.
  destruct (find_introductions_done _ _ _ _ _ _ _ Hrun) as (ras & rowss & _ & Hout & _).
  assert (Hnone : concat rowss = []).
  { destruct (concat rowss) as [|row rows] eqn:Hrows; [reflexivity|]. exfalso.
    assert (Hrow : Row row ∈ out).
    { rewrite Hout. right. left. }
    destruct (find_introductions_rows _ _ _ _ _ _ _ _ Hrun Hrow)
      as (ms & A & _ & HA & _ & pre & a & post & _ & Hst).
    destruct Hst as [_ _ Hb Hpar _ _ _].
    assert (Hpos : F32.leb F32.zero (row_parent_confidence row) = true).
    { destruct post as [|b post]; [rewrite Hpar; reflexivity|].
      apply (get_assignments_unit_interval _ _ _ HA _ _ Hpar). }
    rewrite (below_threshold_positive _ _ Hpos Hb) in Htheta. discriminate. }
  rewrite Hout, Hnone. reflexivity.
Qed.

Lemma no_row_without_positive_threshold_witness :
  find_introductions scenario_tree [("default", ["B"; "C"])] false "" no_rand F32.zero
  = Done [Header (header_line true false)].
Proof.
  destruct (find_introductions scenario_tree [("default", ["B"; "C"])] false "" no_rand F32.zero)
    as [out|f] eqn:Hrun; [|vm_compute in Hrun; discriminate].
  f_equal.
  apply (no_row_without_positive_threshold scenario_tree [("default", ["B"; "C"])] false ""
           no_rand F32.zero out eq_refl Hrun).
Defined.

(** ** The distances of rule 4 *)

(** The distance the inner loop of rule 4 finds from a leaf up to the
    node, the branch of the node included; 0 when the walk from the
    leaf does not meet the node. *)
Definition leaf_distance (T : Tree) (n d : Node) : N :=
  default 0%N (total_traveled_to (identifier n) (rsearch T (identifier d)) 0).

(** The first distance that is not 0. *)
Definition first_distance (distances : list N) : N :=
  default 0%N (head (filter (fun x => x <> 0%N) distances)).

Lemma first_distance_cons x distances :
  first_distance (x :: distances) = if (x =? 0)%N then first_distance distances else x.
Proof.
  unfold first_distance. rewrite filter_cons. destruct (x =? 0)%N eqn:Hx.
  - apply N.eqb_eq in Hx. destruct (decide (x <> 0%N)); [contradiction | reflexivity].
  - apply N.eqb_neq in Hx. destruct (decide (x <> 0%N)); [reflexivity | contradiction].
Qed.

Lemma nearest_leaf_scan_from T sample_set n ds :
  forall min_to_in min_to_out,
  nearest_leaf_scan T sample_set n ds min_to_in min_to_out
  = ((if (min_to_in =? 0)%N
      then first_distance
             (map (leaf_distance T n)
                (filter (fun d => is_leaf d && in_sample_set sample_set (identifier d) = true)
                        ds))
      else min_to_in),
     (if (min_to_out =? 0)%N
      then first_distance
             (map (leaf_distance T n)
                (filter (fun d => is_leaf d && negb (in_sample_set sample_set (identifier d))
                                 = true) ds))
      else min_to_out)).
Proof.
  induction ds as [|d ds IH]; intros mi mo.
  - simpl. destruct (N.eqb_spec mi 0), (N.eqb_spec mo 0); subst; reflexivity.
  - assert (Hupd : match total_traveled_to (identifier n) (rsearch T (identifier d)) 0 with
                   | Some t => t
                   | None => 0%N
                   end = leaf_distance T n d).
    { unfold leaf_distance. destruct (total_traveled_to _ _ _); reflexivity. }
    assert (Hpos : forall x, x <> 0%N -> (0 <? x)%N = true).
    { intros x Hx. apply N.ltb_lt. lia. }
    simpl nearest_leaf_scan. rewrite !filter_cons.
    destruct (N.eqb_spec mi 0) as [->|Hmi]; destruct (N.eqb_spec mo 0) as [->|Hmo];
      rewrite ?(Hpos mi Hmi), ?(Hpos mo Hmo); simpl andb; cbv iota;
      try reflexivity;
      destruct (is_leaf d); simpl andb; cbv iota;
      destruct (in_sample_set sample_set (identifier d)); simpl negb; simpl andb;
      cbv iota; rewrite ?andb_false_r, ?andb_true_r; cbv iota;
      rewrite ?Hupd, IH;
      repeat match goal with
      | |- context [decide ?P] => destruct (decide P); try discriminate; try contradiction
      end;
      simpl map; rewrite ?first_distance_cons;
      repeat match goal with
      | |- context [(?x =? 0)%N] => destruct (N.eqb_spec x 0); try contradiction
      end;
      try reflexivity; try congruence.
Qed.

Lemma total_traveled_to_path nid (pre : list Node) a post :
  identifier a = nid -> Forall (fun b => identifier b <> nid) pre ->
  forall total,
  total_traveled_to nid (pre ++ a :: post) total
  = Some (total + mutation_sum pre + mutation_count a)%N.
Proof.
  intros Ha. induction pre as [|b pre IH]; intros Hpre total.
  - simpl. rewrite (proj2 (String.eqb_eq _ _) Ha). f_equal. lia.
  - apply Forall_cons in Hpre as [Hb Hpre]. simpl.
    rewrite (proj2 (String.eqb_neq _ _) Hb), (IH Hpre). f_equal. lia.
Qed.

(** X16. The two distances rule 4 works with: the scan over the
    depth-first expansion of a node leaves as distance to the in-sample
    leaves the distance of the first in-sample leaf whose distance is
    not 0, the distance being the number of mutations on the branches
    from the leaf up to the node, the node's own branch included, and 0
    when every in-sample leaf is at distance 0; likewise for the other
    leaves. Stopping the scan once both are found changes nothing. *)
Theorem rule4_takes_the_first_leaves T sample_set n :
  (forall d pre a post,
     rsearch T (identifier d) = pre ++ a :: post ->
     identifier a = identifier n -> Forall (fun b => identifier b <> identifier n) pre ->
     leaf_distance T n d = (mutation_sum pre + mutation_count a)%N) /\
  nearest_leaf_scan T sample_set n (depth_first_expansion n) 0 0
  = (first_distance
       (map (leaf_distance T n)
          (filter (fun d => is_leaf d && in_sample_set sample_set (identifier d) = true)
                  (depth_first_expansion n))),
     first_distance
       (map (leaf_distance T n)
          (filter (fun d => is_leaf d && negb (in_sample_set sample_set (identifier d)) = true)
                  (depth_first_expansion n)))).
Proof.
  split; [|apply nearest_leaf_scan_from].
  intros d pre a post Hpath Ha Hpre. unfold leaf_distance.
  rewrite Hpath, (total_traveled_to_path _ pre a post Ha Hpre). simpl. lia.
Qed.

(** ** The rows follow the samples *)

Lemma rows_of_samples T (samples : list string) (rowss : list (list introduction_row)) :
  Forall2 (fun s rs => Forall (fun r => row_sample r = s) rs /\
                       length rs = (if names_node T s then 1 else 0)%nat) samples rowss ->
  map row_sample (concat rowss) = filter (fun s => names_node T s = true) samples.
Proof.
  induction 1 as [|s rs samples rowss [Hs Hlen] _ IH]; [reflexivity|].
  simpl. rewrite map_app, IH, filter_cons. destruct (names_node T s).
  - destruct rs as [|r [|r' rs]]; try discriminate.
    apply Forall_cons in Hs as [Hr _]. simpl. rewrite Hr.
    destruct (decide (true = true)); [reflexivity | contradiction].
  - destruct rs; [|discriminate].
    destruct (decide (false = true)); [discriminate | reflexivity].
Qed.

(** X17. On a tree that fits [size_t], with a threshold above 0 and
    regions named apart, the rows of a region are those of its samples
    that name a node of the tree, one row each, in the order in which
    the region lists them; the regions come in their own order. *)
Theorem rows_follow_the_samples T sample_regions add_info clade_output rand theta :
  fits_size_t T ->
  NoDup (map fst sample_regions) ->
  F32.ltb F32.zero theta = true ->
  exists rowss,
    find_introductions T sample_regions add_info clade_output rand theta
    = Done (Header (header_line (length sample_regions =? 1)%nat add_info)
            :: map Row (concat rowss)) /\
    Forall2 (fun ms rows =>
               map row_sample rows = filter (fun s => names_node T s = true) (snd ms))
            sample_regions rowss.
Proof.
  intros Hfits Hnd Htheta.
  destruct (find_introductions_returns T sample_regions add_info clade_output rand theta Hfits)
    as [out Hrun].
  destruct (find_introductions_done _ _ _ _ _ _ _ Hrun) as (ras & rowss & Hras & -> & Hall).
  exists rowss. split; [exact Hrun|].
  assert (Hsamples : forall ms, ms ∈ sample_regions ->
            samples_of sample_regions (fst ms) = snd ms).
  { intros ms. apply samples_of_entry, Hnd. }
  clear Hrun Hnd. revert Hsamples Hall.
  generalize (samples_of sample_regions) (length ras)
             (fst (origin_index ras theta)) (snd (origin_index ras theta)).
  intros lookup region_count region_cons region_ins Hsamples Hall.
  revert rowss Hall. induction Hras as [|ms ra l ras' [Hfst HA] _ IH]; intros rowss Hall.
  - inversion Hall. constructor.
  - inversion Hall as [|? rows ? rowss' Hwalk Hrest]; subst.
    constructor; [|apply IH; [intros ms' Hms'; apply Hsamples; right; exact Hms' | exact Hrest]].
    rewrite Hfst, (Hsamples ms (list_elem_of_here _ _)) in Hwalk.
    destruct (walk_region_done _ _ _ _ _ _ _ _ _ _ Hwalk) as (inner & -> & Hinner).
    apply rows_of_samples. eapply Forall2_impl; [exact Hinner|].
    intros s rs (c & c' & Hs). split.
    + eapply Forall_impl; [eapply walk_sample_done, Hs|]. intros r [Hr _]. exact Hr.
    + destruct (walk_sample_total T region_count region_cons region_ins add_info theta
                  (fst ms) (snd ra) (get_assignments_covers _ _ _ HA) Htheta s c)
        as (rs' & c'' & Hs' & Hlen).
      rewrite Hs in Hs'. injection Hs' as <- <-. exact Hlen.
Qed.

Lemma rows_follow_the_samples_witness :
  exists rowss,
    find_introductions scenario_tree [("north", ["C"; "Z"; "B"; "C"]); ("south", ["D"])]
      false "" no_rand F32.half
    = Done (Header (header_line false false) :: map Row (concat rowss)) /\
    Forall2 (fun ms rows =>
               map row_sample rows
               = filter (fun s => names_node scenario_tree s = true) (snd ms))
            [("north", ["C"; "Z"; "B"; "C"]); ("south", ["D"])] rowss.
Proof.
  apply (rows_follow_the_samples scenario_tree
           [("north", ["C"; "Z"; "B"; "C"]); ("south", ["D"])] false "" no_rand F32.half).
  - split; vm_compute; reflexivity.
  - apply (bool_decide_unpack _). vm_compute. exact I.
  - reflexivity.
Defined.

(** ** The clades and mutation path columns *)

Lemma annotations_fold (anns : list string) :
  forall clades,
  fold_left (fun clades ann =>
               if (0 <? String.length ann)%nat then comma_append clades ann else clades)
            anns clades
  = fold_left comma_append (filter (fun ann => ann <> "") anns) clades.
Proof.
  induction anns as [|ann anns IH]; intros clades; [reflexivity|].
  simpl fold_left. rewrite IH, filter_cons. destruct ann as [|c ann].
  - simpl. destruct (decide ("" <> "")); [congruence | reflexivity].
  - change (0 <? String.length (String c ann))%nat with true. cbv iota.
    destruct (decide (String c ann <> "")) as [_|Hno]; [reflexivity|].
    exfalso. apply Hno. discriminate.
Qed.

Lemma clades_and_path_fold (path : list Node) :
  Forall (fun a => Forall (fun m => m <> "") (mutations a)) path ->
  forall clades mut_path,
  fold_left
    (fun '(intro_clades, intro_mut_path) a =>
       let mutstr := fold_left comma_append (mutations a) "" in
       (fold_left
          (fun clades ann =>
             if (0 <? String.length ann)%nat then comma_append clades ann else clades)
          (clade_annotations a) intro_clades,
        (intro_mut_path ++ mutstr ++ "<")%string))
    path (clades, mut_path)
  = (fold_left comma_append
       (filter (fun ann => ann <> "") (flat_map clade_annotations path)) clades,
     (mut_path
      ++ String.concat "" (map (fun a => String.concat "," (mutations a) ++ "<") path))%string).
Proof.
  induction 1 as [|a path Ha _ IH]; intros clades mut_path.
  - simpl. rewrite string_append_nil_r. reflexivity.
  - simpl fold_left. rewrite IH, annotations_fold. simpl flat_map.
    rewrite filter_app, fold_left_app. f_equal.
    rewrite (comma_fold (mutations a) Ha ""). simpl map. rewrite string_concat_cons.
    assert (Hmut : match mutations a with
                   | [] => ""
                   | _ :: _ => if (String.length "" =? 0)%nat
                               then String.concat "," (mutations a)
                               else ("" ++ "," ++ String.concat "," (mutations a))%string
                   end = String.concat "," (mutations a)).
    { destruct (mutations a); reflexivity. }
    rewrite Hmut, !string_append_assoc. reflexivity.
Qed.

(** X18. The last two columns of a row before the statistics, for the
    root-ward path from the node where the walk stopped: the clades
    column is the comma-separated list of the clade annotations that
    are not empty, node by node from the stopping node up to the root,
    or [none] when there is none; the mutation path holds, for every
    node of the path in that order, the node's mutations separated by
    commas and then the character [<]. *)
Theorem clades_and_mutation_path (path : list Node) :
  Forall (fun a => Forall (fun m => m <> "") (mutations a)) path ->
  clades_and_path path
  = (match filter (fun ann => ann <> "") (flat_map clade_annotations path) with
     | [] => "none"
     | clades => String.concat "," clades
     end,
     String.concat "" (map (fun a => String.concat "," (mutations a) ++ "<")%string path)).
Proof.
  intros Hpath. pose proof (clades_and_path_fold path Hpath "" "") as Hfold.
  unfold clades_and_path. cbv zeta in Hfold |- *. rewrite Hfold. clear Hfold.
  assert (Hne : Forall (fun ann => ann <> "")
                  (filter (fun ann => ann <> "") (flat_map clade_annotations path))).
  { apply Forall_forall. intros ann Hann. apply list_elem_of_filter in Hann as [Hann _].
    exact Hann. }
  rewrite (comma_fold _ Hne "").
  destruct (filter (fun ann => ann <> "") (flat_map clade_annotations path)) as [|c cs];
    [reflexivity|].
  change (String.length "" =? 0)%nat with true. cbv iota.
  apply Forall_cons in Hne as [Hc _]. pose proof (concat_not_empty c cs Hc) as Hcat.
  destruct (String.length (String.concat "," (c :: cs)) =? 0)%nat eqn:Hlen; [|reflexivity].
  apply Nat.eqb_eq, string_length_zero in Hlen. contradiction.
Qed.

Lemma clades_and_mutation_path_witness :
  clades_and_path
    [mkNode "Y" ["A1C"; "G2T"] ["20B"; ""] []; mkNode "X" [] [] [];
     mkNode "root" ["T3A"] ["19A"] []]
  = ("20B,19A", "A1C,G2T<<T3A<").
Proof.
  apply (clades_and_mutation_path
           [mkNode "Y" ["A1C"; "G2T"] ["20B"; ""] []; mkNode "X" [] [] [];
            mkNode "root" ["T3A"] ["19A"] []]).
  repeat constructor; discriminate.
Defined.

(** ** The table of clade regions *)

(** The confidences of a node in the regions that have one for it. *)
Definition clade_support (region_assignments : list (string * gmap string spec_float))
    (n : Node) : list spec_float :=
  omap (fun ra => snd ra !! identifier n) region_assignments.

(** The rows of a node: one for every clade annotation that is not
    empty. *)
Definition clade_rows (region_assignments : list (string * gmap string spec_float))
    (n : Node) : list clade_line :=
  map (fun ca => CladeRow ca (clade_support region_assignments n))
      (filter (fun ca => ca <> "") (clade_annotations n)).

(** The header of the table: every name is followed by a tab. *)
Definition clade_header (region_order : list string) : string :=
  ("clade" ++ tab ++ String.concat "" (map (fun r => r ++ tab) region_order)
   ++ newline)%string.

Lemma header_fold (region_order : list string) :
  forall text,
  fold_left (fun text r => text ++ r ++ tab)%string region_order text
  = (text ++ String.concat "" (map (fun r => r ++ tab) region_order))%string.
Proof.
  induction region_order as [|r l IH]; intros text.
  - simpl. rewrite string_append_nil_r. reflexivity.
  - simpl fold_left. rewrite IH. simpl map. rewrite string_concat_cons.
    rewrite !string_append_assoc. reflexivity.
Qed.

Lemma assignments_of_entry region_assignments ra :
  NoDup (map fst region_assignments) -> ra ∈ region_assignments ->
  assignments_of region_assignments (fst ra) = snd ra.
Proof.
  unfold assignments_of. induction region_assignments as [|ra0 l IH]; intros Hnd Hra;
    [inversion Hra|].
  simpl in *. apply NoDup_cons in Hnd as [Hnotin Hnd].
  apply elem_of_cons in Hra as [->|Hra].
  - rewrite String.eqb_refl. reflexivity.
  - destruct (String.eqb (fst ra0) (fst ra)) eqn:Heq; [|apply IH; assumption].
    exfalso. apply String.eqb_eq in Heq. apply Hnotin. rewrite Heq.
    apply elem_of_map. exists ra. split; [reflexivity | exact Hra].
Qed.

Lemma clade_cells_covered region_assignments n :
  NoDup (map fst region_assignments) ->
  Forall (fun ra => is_Some (snd ra !! identifier n)) region_assignments ->
  clade_cells region_assignments (map fst region_assignments) n
  = Done (clade_support region_assignments n) /\
  length (clade_support region_assignments n) = length region_assignments.
Proof.
  intros Hnd Hcov. unfold clade_cells, clade_support.
  assert (Hgen : forall l cells,
    (forall ra, ra ∈ l -> ra ∈ region_assignments) ->
    Forall (fun ra => is_Some (snd ra !! identifier n)) l ->
    for_each
      (fun cells r =>
         match assignments_of region_assignments r !! identifier n with
         | Some v => Done (cells ++ [v])
         | None => Abort UnassignedNode
         end) (map fst l) cells
    = Done (cells ++ omap (fun ra => snd ra !! identifier n) l) /\
    length (omap (fun ra : string * gmap string spec_float => snd ra !! identifier n) l)
    = length l).
  { induction l as [|ra l IH]; intros cells Hsub Hall.
    - simpl. rewrite app_nil_r. split; reflexivity.
    - apply Forall_cons in Hall as [[v Hv] Hall]. simpl map. rewrite for_each_cons.
      rewrite (assignments_of_entry _ ra Hnd (Hsub ra (list_elem_of_here _ _))), Hv, bind_done.
      destruct (IH (cells ++ [v]) (fun ra' Hra' => Hsub ra' (list_elem_of_further _ _ _ Hra'))
                  Hall) as [-> Hlen].
      unfold omap in *. simpl. rewrite Hv. simpl. rewrite <- app_assoc, Hlen.
      split; reflexivity. }
  destruct (Hgen region_assignments [] (fun _ H => H) Hcov) as [Hrun Hlen].
  split; [exact Hrun | exact Hlen].
Qed.

Lemma clade_rows_loop region_assignments n :
  NoDup (map fst region_assignments) ->
  Forall (fun ra => is_Some (snd ra !! identifier n)) region_assignments ->
  forall cas lines,
  for_each
    (fun lines ca =>
       if (0 <? String.length ca)%nat then
         cells ← clade_cells region_assignments (map fst region_assignments) n;
         Done (lines ++ [CladeRow ca cells])
       else Done lines)
    cas lines
  = Done (lines ++ map (fun ca => CladeRow ca (clade_support region_assignments n))
                       (filter (fun ca => ca <> "") cas)).
Proof.
  intros Hnd Hcov. destruct (clade_cells_covered region_assignments n Hnd Hcov) as [Hcells _].
  induction cas as [|ca cas IH]; intros lines.
  - simpl. rewrite app_nil_r. reflexivity.
  - rewrite for_each_cons, filter_cons. destruct ca as [|ch ca].
    + simpl. rewrite IH. destruct (decide ("" <> "")); [congruence | reflexivity].
    + change (0 <? String.length (String ch ca))%nat with true. cbv iota.
      rewrite Hcells at 1. rewrite !bind_done, IH.
      destruct (decide (String ch ca <> "")) as [_|Hno]; [|exfalso; apply Hno; discriminate].
      simpl. rewrite <- app_assoc. reflexivity.
Qed.

Lemma clade_nodes_loop region_assignments (l : list Node) :
  NoDup (map fst region_assignments) ->
  (forall n, n ∈ l ->
     Forall (fun ra => is_Some (snd ra !! identifier n)) region_assignments) ->
  forall lines,
  for_each
    (fun lines n =>
       for_each
         (fun lines ca =>
            if (0 <? String.length ca)%nat then
              cells ← clade_cells region_assignments (map fst region_assignments) n;
              Done (lines ++ [CladeRow ca cells])
            else Done lines)
         (clade_annotations n) lines)
    l lines
  = Done (lines ++ flat_map (clade_rows region_assignments) l).
Proof.
  intros Hnd. induction l as [|n l IH]; intros Hnode lines.
  - simpl. rewrite app_nil_r. reflexivity.
  - rewrite for_each_cons.
    rewrite (clade_rows_loop region_assignments n Hnd (Hnode n (list_elem_of_here _ _))).
    rewrite bind_done, IH by (intros n' Hn'; apply Hnode; right; exact Hn').
    simpl flat_map. unfold clade_rows at 2. rewrite <- app_assoc. reflexivity.
Qed.

(** X19. For region maps with distinct names that hold every node of
    the tree, as the maps [find_introductions] passes do,
    [record_clade_regions] writes the header and then, node by node in
    depth-first order, one row for every clade annotation that is not
    empty, holding the annotation and the confidence of the node in each
    region, in region order: every row has as many confidences as there
    are regions. *)
Theorem clade_table_is_complete T region_assignments :
  NoDup (map fst region_assignments) ->
  Forall (fun ra => covers (snd ra) T) region_assignments ->
  record_clade_regions T region_assignments
  = Done (CladeHeader (clade_header (map fst region_assignments))
          :: flat_map (clade_rows region_assignments) (depth_first_expansion (root T))) /\
  forall n, n ∈ depth_first_expansion (root T) ->
    length (clade_support region_assignments n) = length region_assignments.
Proof.
  intros Hnd Hcov.
  assert (Hnode : forall n, n ∈ depth_first_expansion (root T) ->
            Forall (fun ra => is_Some (snd ra !! identifier n)) region_assignments).
  { intros n Hn. eapply Forall_impl; [exact Hcov|]. intros ra Hra. apply Hra, Hn. }
  unfold record_clade_regions. split.
  - rewrite (clade_nodes_loop region_assignments _ Hnd Hnode), header_fold.
    reflexivity.
  - intros n Hn. apply clade_cells_covered; [exact Hnd | apply Hnode, Hn].
Qed.

Definition annotated_tree : Tree :=
  mkTree (mkNode "root" [] ["20A"; ""] [leaf "A" ["m1"]; mkNode "X" ["m2"] ["20B"] []]).

Definition annotated_regions : list (string * gmap string spec_float) :=
  [("north", list_to_map [("root", F32.zero); ("A", F32.one); ("X", F32.zero)]);
   ("south", list_to_map [("root", F32.half); ("A", F32.zero); ("X", F32.one)])].

Lemma clade_table_is_complete_witness :
  record_clade_regions annotated_tree annotated_regions
  = Done [CladeHeader ("clade" ++ tab ++ "north" ++ tab ++ "south" ++ tab ++ newline);
          CladeRow "20A" [F32.zero; F32.half]; CladeRow "20B" [F32.zero; F32.one]].
Proof.
  refine (proj1 (clade_table_is_complete annotated_tree annotated_regions _ _)).
  - apply (bool_decide_unpack _). vm_compute. exact I.
  - repeat constructor; intros n Hn; revert n Hn;
      apply (proj1 (Forall_forall _ _)); vm_compute;
      repeat constructor; eexists; reflexivity.
Defined.

(** ** The samples file *)

(** The samples of the records of a region, in order. *)
Definition samples_in (region : string) (records : list (string * string)) : list string :=
  map fst (filter (fun rec => snd rec = region) records).

Section SamplesFileFacts.
Variable string_split : string -> list string.

Lemma read_lines_records lines :
  forall records amap,
  Forall2 (fun line rec => read_line string_split line = Read rec) lines records ->
  exists amap',
    read_lines string_split lines amap = Read amap' /\
    forall region, amap' !! region = pushed (amap !! region) (samples_in region records).
Proof.
  induction lines as [|line lines IH]; intros records amap Hall.
  - inversion Hall; subst. exists amap. split; reflexivity.
  - inversion Hall as [|? [sname rname] ? records' Hline Hrest]; subst.
    simpl. rewrite Hline.
    destruct (IH records' (push_back amap rname sname) Hrest) as (amap' & -> & Hmap).
    exists amap'. split; [reflexivity|]. intros region. rewrite Hmap.
    unfold samples_in, push_back. rewrite filter_cons. simpl.
    destruct (decide (rname = region)) as [->|Hne].
    + rewrite lookup_insert_eq. exact (pushed_app (amap !! region) [sname] _).
    + rewrite lookup_insert_ne by exact Hne. reflexivity.
Qed.

Lemma read_lines_error pre line post e :
  forall amap,
  Forall (fun l => exists rec, read_line string_split l = Read rec) pre ->
  read_line string_split line = ReadError e ->
  read_lines string_split (pre ++ line :: post) amap = ReadError e.
Proof.
  induction pre as [|l pre IH]; intros amap Hpre Hline.
  - simpl. rewrite Hline. reflexivity.
  - apply Forall_cons in Hpre as [[[sname rname] Hl] Hpre]. simpl. rewrite Hl.
    apply IH; assumption.
Qed.
End SamplesFileFacts.

(** X20. When every line of the samples file has a sample name and a
    region name, [read_two_column] returns a map that holds, for every
    region named in the file, the samples of the lines of that region in
    the order of the file, and no entry for any other region; nothing
    is dropped, reordered or merged, a sample listed twice is there
    twice. *)
Theorem samples_keep_the_order_of_the_file string_split lines records :
  Forall2 (fun line rec => read_line string_split line = Read rec) lines records ->
  exists amap,
    read_two_column string_split (Some lines) = Read amap /\
    forall region,
      amap !! region
      = match samples_in region records with
        | [] => None
        | samples => Some samples
        end.
Proof.
  intros Hall. unfold read_two_column.
  destruct (read_lines_records string_split lines records ∅ Hall) as (amap & Hrun & Hmap).
  exists amap. split; [exact Hrun|]. intros region. rewrite Hmap, lookup_empty.
  destruct (samples_in region records); reflexivity.
Qed.

(** X21. A file that cannot be opened, a line with more than two
    words and a line without a word each end the read, and one such
    line is enough: whatever the lines before it held, no map is
    returned. A line has too many columns exactly when it has three
    words or more. *)
Theorem a_bad_line_ends_the_read string_split :
  read_two_column string_split None = ReadError CouldNotOpen /\
  (forall pre line post e,
     Forall (fun l => exists rec, read_line string_split l = Read rec) pre ->
     read_line string_split line = ReadError e ->
     read_two_column string_split (Some (pre ++ line :: post)) = ReadError e) /\
  (forall line,
     (read_line string_split line = ReadError TooManyColumns
      <-> (3 <= length (string_split line))%nat) /\
     (read_line string_split line = ReadError NoWord <-> string_split line = [])).
Proof.
  split; [reflexivity|]. split.
  - intros pre line post e Hpre Hline. apply read_lines_error; assumption.
  - intros line. unfold read_line.
    destruct (string_split line) as [|w1 [|w2 [|w3 ws]]]; simpl.
    + split; split; try discriminate; try reflexivity; lia.
    + unfold strip_carriage_return. destruct w1 as [|c w1]; [split; split; try discriminate; lia|].
      destruct (String.get _ _) as [ch|]; [destruct (Ascii.eqb ch carriage_return)|];
        split; split; try discriminate; lia.
    + unfold strip_carriage_return. destruct w2 as [|c w2]; [split; split; try discriminate; lia|].
      destruct (String.get _ _) as [ch|]; [destruct (Ascii.eqb ch carriage_return)|];
        split; split; try discriminate; lia.
    + split; split; try discriminate; try reflexivity. intros _. lia.
Qed.

Definition three_lines : list string :=
  [("A" ++ tab ++ "north")%string; "B"; ("C" ++ tab ++ "north")%string; "B"].

Lemma samples_keep_the_order_of_the_file_witness :
  exists amap,
    read_two_column whitespace_split (Some three_lines) = Read amap /\
    forall region,
      amap !! region
      = match samples_in region
                [("A", "north"); ("B", "default"); ("C", "north"); ("B", "default")] with
        | [] => None
        | samples => Some samples
        end.
Proof.
  apply (samples_keep_the_order_of_the_file whitespace_split three_lines
           [("A", "north"); ("B", "default"); ("C", "north"); ("B", "default")]).
  repeat constructor.
Defined.

(** ** Lines of names without whitespace *)

Fixpoint no_space (s : string) : bool :=
  match s with
  | EmptyString => true
  | String c s' => negb (isspace c) && no_space s'
  end.

Lemma words_from_word (s : string) :
  forall word rest, no_space s = true ->
  words_from word (s ++ rest) = words_from (word ++ s) rest.
Proof.
  induction s as [|c s IH]; intros word rest Hs.
  - rewrite string_append_nil_r. reflexivity.
  - simpl in Hs. apply andb_true_iff in Hs as [Hc Hs]. apply negb_true_iff in Hc.
    rewrite string_append_cons. simpl words_from. rewrite Hc, (IH _ _ Hs).
    rewrite string_append_assoc. reflexivity.
Qed.

Lemma words_from_space word c rest :
  isspace c = true -> word <> "" ->
  words_from word (String c rest) = word :: words_from "" rest.
Proof.
  intros Hc Hword. simpl. rewrite Hc.
  destruct (String.length word =? 0)%nat eqn:Hlen; [|reflexivity].
  apply Nat.eqb_eq, string_length_zero in Hlen. contradiction.
Qed.

Lemma words_from_end word : word <> "" -> words_from word "" = [word].
Proof.
  intros Hword. simpl. destruct (String.length word =? 0)%nat eqn:Hlen; [|reflexivity].
  apply Nat.eqb_eq, string_length_zero in Hlen. contradiction.
Qed.

(** The last character of a word without whitespace is no carriage
    return. *)
Lemma last_character (s : string) :
  forall c, no_space (String c s) = true ->
  exists ch, String.get (String.length (String c s) - 1) (String c s) = Some ch /\
             Ascii.eqb ch carriage_return = false.
Proof.
  induction s as [|c' s IH]; intros c Hs.
  - exists c. split; [reflexivity|]. simpl in Hs. rewrite andb_true_r in Hs.
    apply negb_true_iff in Hs. destruct (Ascii.eqb c carriage_return) eqn:Heq; [|reflexivity].
    apply Ascii.eqb_eq in Heq. subst c. discriminate.
  - simpl in Hs. apply andb_true_iff in Hs as [_ Hs]. destruct (IH c' Hs) as (ch & Hget & Hch).
    exists ch. split; [|exact Hch]. simpl in *. rewrite Nat.sub_0_r in *. exact Hget.
Qed.

Lemma strip_carriage_return_word (s : string) :
  s <> "" -> no_space s = true -> strip_carriage_return s = Read s.
Proof.
  intros Hne Hs. destruct s as [|c s]; [contradiction|].
  destruct (last_character s c Hs) as (ch & Hget & Hch).
  unfold strip_carriage_return. rewrite Hget, Hch. reflexivity.
Qed.

(** X22. With words separated by whitespace, a line made of a sample
    name, a tab and a region name, both without whitespace and not
    empty, is read back as that sample in that region, and so is the
    line ended by a carriage return; a line that holds the sample name
    alone, ended by a carriage return or not, is read as that sample in
    the region [default]. *)
Theorem lines_are_read_back (s r : string) :
  s <> "" -> r <> "" -> no_space s = true -> no_space r = true ->
  read_line whitespace_split (s ++ tab ++ r) = Read (s, r) /\
  read_line whitespace_split (s ++ tab ++ r ++ String carriage_return "") = Read (s, r) /\
  read_line whitespace_split s = Read (s, "default") /\
  read_line whitespace_split (s ++ String carriage_return "") = Read (s, "default").
Proof.
  intros Hs Hr Hns Hnr.
  assert (Hone : forall rest, whitespace_split (s ++ rest) = words_from s rest).
  { intros rest. unfold whitespace_split. rewrite (words_from_word s "" rest Hns). reflexivity. }
  assert (Hword : forall rest, words_from "" (r ++ rest) = words_from r rest).
  { intros rest. rewrite (words_from_word r "" rest Hnr). reflexivity. }
  assert (Hcr : forall w, w <> "" -> words_from w (String carriage_return "") = [w]).
  { intros w Hw. rewrite (words_from_space w carriage_return "" eq_refl Hw). reflexivity. }
  unfold read_line. repeat split.
  - rewrite Hone. unfold tab. rewrite string_append_cons, (words_from_space s (Ascii.ascii_of_nat 9) _ eq_refl Hs).
    change ("" ++ r)%string with r. rewrite <- (string_append_nil_r r) at 1.
    rewrite Hword, (words_from_end r Hr), (strip_carriage_return_word r Hr Hnr). reflexivity.
  - rewrite Hone. unfold tab. rewrite string_append_cons, (words_from_space s (Ascii.ascii_of_nat 9) _ eq_refl Hs).
    change ("" ++ r ++ String carriage_return "")%string
      with (r ++ String carriage_return "")%string.
    rewrite Hword, (Hcr r Hr), (strip_carriage_return_word r Hr Hnr). reflexivity.
  - rewrite <- (string_append_nil_r s) at 1.
    rewrite Hone, (words_from_end s Hs), (strip_carriage_return_word s Hs Hns). reflexivity.
  - rewrite Hone, (Hcr s Hs), (strip_carriage_return_word s Hs Hns). reflexivity.
Qed.

Lemma lines_are_read_back_witness :
  read_line whitespace_split ("B" ++ tab ++ "R1") = Read ("B", "R1") /\
  read_line whitespace_split ("B" ++ tab ++ "R1" ++ String carriage_return "")
  = Read ("B", "R1") /\
  read_line whitespace_split "B" = Read ("B", "default") /\
  read_line whitespace_split ("B" ++ String carriage_return "") = Read ("B", "default").
Proof.
  apply (lines_are_read_back "B" "R1"); [discriminate | discriminate | reflexivity | reflexivity].
Defined.

(** ** A balance that is NaN

    The counts of the balance are divided as [float]s, and a count of
    2^128 or more is an infinite [float]: on a tree whose two leaves
    each hang on a branch of 2^128 mutations, one leaf in the sample
    and one outside it, both ratios of the root are infinite and the
    balance is NaN. No tree that fits [size_t] comes near
    ([get_assignments_total]). *)
Definition long_branch_tree (muts : list string) : Tree :=
  mkTree (mkNode "root" [] [] [leaf "a" muts; leaf "b" muts]).

Definition long_branch : list string := repeat "m" (N.to_nat (2 ^ 128)).

Lemma long_branch_length : N.of_nat (length long_branch) = (2 ^ 128)%N.
Proof. unfold long_branch. rewrite repeat_length. apply N2Nat.id. Qed.

Lemma long_branch_inputs (muts : list string) :
  N.of_nat (length muts) = (2 ^ 128)%N ->
  rule4_inputs (long_branch_tree muts) {["a"]} (root (long_branch_tree muts))
  = ((2 ^ 128)%N, (2 ^ 128)%N, 1%N, 1%N).
Proof.
  intros Hlen. unfold rule4_inputs.
  rewrite nearest_leaf_scan_from.
  change (get_leaves_ids (long_branch_tree muts) (identifier (root (long_branch_tree muts))))
    with ["a"; "b"].
  assert (Hin : filter (fun l => in_sample_set {["a"]} l = true) ["a"; "b"] = ["a"])
    by (vm_compute; reflexivity).
  assert (Hout : filter (fun l => in_sample_set {["a"]} l = false) ["a"; "b"] = ["b"])
    by (vm_compute; reflexivity).
  rewrite Hin, Hout.
  assert (Hfin : filter (fun d => is_leaf d && in_sample_set {["a"]} (identifier d) = true)
                   (depth_first_expansion (root (long_branch_tree muts)))
                 = [leaf "a" muts]) by (vm_compute; reflexivity).
  assert (Hfout : filter (fun d => is_leaf d && negb (in_sample_set {["a"]} (identifier d))
                                   = true)
                   (depth_first_expansion (root (long_branch_tree muts)))
                 = [leaf "b" muts]) by (vm_compute; reflexivity).
  rewrite Hfin, Hfout.
  assert (Hdist : forall id,
            id = "a" \/ id = "b" ->
            leaf_distance (long_branch_tree muts) (root (long_branch_tree muts)) (leaf id muts)
            = (2 ^ 128)%N).
  { intros id Hid. unfold leaf_distance.
    assert (Hpath : rsearch (long_branch_tree muts) (identifier (leaf id muts))
                    = [leaf id muts] ++ root (long_branch_tree muts) :: []).
    { destruct Hid as [-> | ->]; reflexivity. }
    rewrite Hpath, (total_traveled_to_path _ [leaf id muts] _ [] eq_refl).
    - unfold mutation_sum, mutation_count. simpl fold_right. simpl mutations.
      simpl length. rewrite Hlen. simpl default. rewrite !N.add_0_r, N.add_0_l. reflexivity.
    - constructor; [|constructor]. destruct Hid as [-> | ->]; discriminate. }
  cbn [map]. rewrite !first_distance_cons, (Hdist "a"), (Hdist "b") by auto.
  reflexivity.
Qed.

